(** * Objecticon: a rule-gated object store

    A shallow embedding of [index.js] (the engine) and [datastore/index.js]
    (the multi-driver store), together with the two library calls the engine
    leans on: [extend] and deep-diff's [applyChange].

    JavaScript objects are mutable and shared, so values live in a heap of
    objects addressed by location; a value is a primitive or a reference.
    Objects are modelled by their own properties (no prototype chain). *)

From stdpp Require Import base option list gmap strings pretty.
From Stdlib Require Import ZArith Lia.

Open Scope string_scope.
Open Scope list_scope.
Open Scope Z_scope.

Set Warnings "-register-all".

(** ** JavaScript values and the heap *)

Module JS.

Abbreviation loc := nat.

Inductive value :=
| VUndefined
| VNull
| VBool (b : bool)
| VNum (n : Z)
| VStr (s : string)
| VObj (l : loc).

#[export] Instance value_eq_dec : EqDecision value.
Proof. solve_decision. Defined.

(** What [extend] distinguishes: plain objects and arrays are cloned
    recursively, every other kind of object (a [Date], an instance of a
    class) is not. An array carries its [length]; a date its time value. *)
Inductive class :=
| CPlain
| CArray (len : N)
| CDate (time : Z)
| COther.

Record object := Object {
  o_class : class;
  o_props : gmap string value
}.

Abbreviation heap := (list object).

Inductive exn :=
| TypeError
| RangeError.

Inductive completion (A : Type) :=
| Normal (a : A)
| Thrown (e : exn).
Arguments Normal {A} a.
Arguments Thrown {A} e.

(** A computation reads and writes the heap and either completes or throws. *)
Definition JS (A : Type) := heap → heap * completion A.

Definition ret {A} (a : A) : JS A := fun h => (h, Normal a).
Definition throw {A} (e : exn) : JS A := fun h => (h, Thrown e).
Definition bind {A B} (m : JS A) (k : A → JS B) : JS B :=
  fun h => match m h with
           | (h', Normal a) => k a h'
           | (h', Thrown e) => (h', Thrown e)
           end.

Notation "'let!' x ':=' m 'in' k" := (bind m (fun x => k))
  (at level 10, x pattern, m at level 100, k at level 200,
   format "'[v' 'let!'  x  ':='  m  'in' '/' k ']'").
Notation "m ';;' k" := (bind m (fun _ => k))
  (at level 100, k at level 200, right associativity).

(** [forEach]: run the body on every element, in order. *)
Definition forEach {A} (l : list A) (body : A → JS unit) : JS unit :=
  (fix go (l : list A) : JS unit :=
     match l with
     | [] => ret ()
     | x :: l' => bind (body x) (fun _ => go l')
     end) l.

Definition truthy (v : value) : bool :=
  match v with
  | VUndefined | VNull => false
  | VBool b => b
  | VNum n => negb (n =? 0)
  | VStr s => negb (String.eqb s "")
  | VObj _ => true
  end.

(** *** Property keys *)

(** A path segment or index is a string or a number; as a property key a
    number is its decimal spelling. *)
Inductive seg :=
| SStr (s : string)
| SNum (n : N).

Definition key_of_seg (s : seg) : string :=
  match s with
  | SStr s => s
  | SNum n => pretty n
  end.

Definition digit_of (a : Ascii.ascii) : option N :=
  let n := Ascii.N_of_ascii a in
  if (48 <=? n)%N && (n <=? 57)%N then Some (n - 48)%N else None.

Fixpoint digits_value (acc : N) (s : string) : option N :=
  match s with
  | EmptyString => Some acc
  | String a s' =>
      match digit_of a with
      | Some d => digits_value (10 * acc + d)%N s'
      | None => None
      end
  end.

(** The array index a key denotes, if it is the canonical spelling of one. *)
Definition index_of_key (k : string) : option N :=
  match k with
  | EmptyString => None
  | String a s' =>
      match digits_value 0 k with
      | Some n => if String.eqb (pretty n) k then Some n else None
      | None => None
      end
  end.

(** *** Reading and writing own properties *)

Definition own_get (o : object) (k : string) : value :=
  match o_class o, String.eqb k "length" with
  | CArray len, true => VNum (Z.of_N len)
  | _, _ => default VUndefined (o_props o !! k)
  end.

(** Keep the properties of an array below a new length. *)
Definition below (len : N) (k : string) : bool :=
  match index_of_key k with
  | Some i => (i <? len)%N
  | None => true
  end.

Definition truncate (len : N) (m : gmap string value) : gmap string value :=
  filter (λ kv, Is_true (below len kv.1)) m.

Definition own_set (o : object) (k : string) (v : value) : completion object :=
  match o_class o with
  | CArray len =>
      if String.eqb k "length" then
        match v with
        | VNum n => if 0 <=? n
                    then Normal (Object (CArray (Z.to_N n)) (truncate (Z.to_N n) (o_props o)))
                    else Thrown RangeError
        | _ => Thrown RangeError
        end
      else
        match index_of_key k with
        | Some i => Normal (Object (CArray (N.max len (i + 1))) (<[k := v]> (o_props o)))
        | None => Normal (Object (CArray len) (<[k := v]> (o_props o)))
        end
  | c => Normal (Object c (<[k := v]> (o_props o)))
  end.

Definition own_delete (o : object) (k : string) : completion object :=
  match o_class o, String.eqb k "length" with
  | CArray _, true => Thrown TypeError
  | c, _ => Normal (Object c (delete k (o_props o)))
  end.

(** [v[k]] *)
Definition get (v : value) (k : string) : JS value :=
  fun h =>
    match v with
    | VUndefined | VNull => (h, Thrown TypeError)
    | VObj l =>
        match h !! l with
        | Some o => (h, Normal (own_get o k))
        | None => (h, Normal VUndefined)
        end
    | VStr s =>
        if String.eqb k "length" then (h, Normal (VNum (Z.of_nat (String.length s))))
        else match index_of_key k with
             | Some i =>
                 match String.get (N.to_nat i) s with
                 | Some a => (h, Normal (VStr (String a EmptyString)))
                 | None => (h, Normal VUndefined)
                 end
             | None => (h, Normal VUndefined)
             end
    | _ => (h, Normal VUndefined)
    end.

(** [v[k] = x] in strict-mode code: assigning to a property of a primitive
    throws. *)
Definition set (v : value) (k : string) (x : value) : JS unit :=
  fun h =>
    match v with
    | VObj l =>
        match h !! l with
        | Some o =>
            match own_set o k x with
            | Normal o' => (<[l := o']> h, Normal ())
            | Thrown e => (h, Thrown e)
            end
        | None => (h, Normal ())
        end
    | _ => (h, Thrown TypeError)
    end.

(** [delete v[k]] in strict-mode code. *)
Definition del (v : value) (k : string) : JS unit :=
  fun h =>
    match v with
    | VUndefined | VNull => (h, Thrown TypeError)
    | VObj l =>
        match h !! l with
        | Some o =>
            match own_delete o k with
            | Normal o' => (<[l := o']> h, Normal ())
            | Thrown e => (h, Thrown e)
            end
        | None => (h, Normal ())
        end
    | VStr s =>
        if String.eqb k "length" then (h, Thrown TypeError)
        else match index_of_key k with
             | Some i => if (i <? N.of_nat (String.length s))%N
                         then (h, Thrown TypeError) else (h, Normal ())
             | None => (h, Normal ())
             end
    | _ => (h, Normal ())
    end.

(** A new object: [{}], [[]], [new Date()]. *)
Definition alloc (o : object) : JS value :=
  fun h => (h ++ [o], Normal (VObj (length h))).

Definition new_object : JS value := alloc (Object CPlain ∅).
Definition new_array : JS value := alloc (Object (CArray 0) ∅).
Definition new_Date (now : Z) : JS value := alloc (Object (CDate now) ∅).

Definition class_of (h : heap) (v : value) : option class :=
  match v with
  | VObj l => o_class <$> h !! l
  | _ => None
  end.

Definition isPlainObject (h : heap) (v : value) : bool :=
  match class_of h v with Some CPlain => true | _ => false end.

Definition isArray (h : heap) (v : value) : bool :=
  match class_of h v with Some (CArray _) => true | _ => false end.

(** What a heap holds: the own property [k] of the object [v] refers to,
    and the time value of a date. *)
Definition prop (h : heap) (v : value) (k : string) : value :=
  match v with
  | VObj l =>
      match h !! l with
      | Some o => own_get o k
      | None => VUndefined
      end
  | _ => VUndefined
  end.

Definition time_of (h : heap) (v : value) : option Z :=
  match class_of h v with
  | Some (CDate t) => Some t
  | _ => None
  end.

(** The enumerable own keys of a value, as [for (name in v)] visits them. *)
Definition keys (h : heap) (v : value) : list string :=
  match v with
  | VObj l =>
      match h !! l with
      | Some o => (map_to_list (o_props o)).*1
      | None => []
      end
  | _ => []
  end.

End JS.

(** ** The [extend] package

    [extend(deep, target, source)] copies the enumerable own properties of
    the source onto the target. In a deep copy a property holding a plain
    object or an array is cloned recursively; any other value, a reference
    to another kind of object included, is assigned as it is. *)

Module Extend.
Import JS.

(** The body of the loop over the properties of the source; [recurse] is
    [extend] itself, called for a property that is cloned. *)
Definition copy_property (recurse : value → value → JS value) (deep : bool)
    (target options : value) (name : string) : JS unit :=
  let! src := get target name in
  let! copy := get options name in
  if decide (copy = target) then ret ()
  else fun h =>
    if deep && truthy copy && (isPlainObject h copy || isArray h copy) then
      (let! clone :=
         (if isArray h copy
          then (if truthy src && isArray h src then ret src else new_array)
          else (if truthy src && isPlainObject h src then ret src else new_object)) in
       let! r := recurse clone copy in
       set target name r) h
    else if decide (copy = VUndefined) then ret () h
    else set target name copy h.

(** [stack] bounds the depth of the recursion, as the call stack does:
    going deeper throws a [RangeError]. *)
Fixpoint extend (stack : nat) (deep : bool) (target options : value) : JS value :=
  match stack with
  | O => throw RangeError
  | S stack' =>
      fun h0 =>
        (forEach (keys h0 options)
           (copy_property (extend stack' deep) deep target options) ;;
         ret target) h0
  end.

(** [extend(true, {}, source)] *)
Definition clone (stack : nat) (source : value) : JS value :=
  let! target := new_object in
  extend stack true target source.

End Extend.

(** ** deep-diff: applying a change

    A change names a place by its [path] and says what happens there:
    ['N'] (new) and ['E'] (edited) assign [rhs], ['D'] deletes, ['A'] is a
    change inside the array at that place, at [index], described by a nested
    [item]. *)

Module DeepDiff.
Import JS.

(** The [item] of an array change is itself a change, usually without a
    path; [NoItem] is a missing item. *)
Inductive array_item :=
| NoItem
| Item (kind : string) (path : list seg) (rhs : value) (index : N) (inner : array_item).

Record change := Change {
  kind : string;
  path : list seg;
  lhs : value;
  rhs : value;
  index : N;
  item : array_item
}.

(** The elements of [arr] from index [from] on, [n] of them. *)
Fixpoint slice (o : object) (from : N) (n : nat) : list value :=
  match n with
  | O => []
  | S n' => own_get o (pretty from) :: slice o (from + 1) n'
  end.

Fixpoint push_all (arr : value) (at_ : N) (vs : list value) : JS unit :=
  match vs with
  | [] => ret ()
  | v :: vs' => set arr (pretty at_) v ;; push_all arr (at_ + 1) vs'
  end.

(** [arrayRemove(arr, from)]: cut the element at [from] out of the array. *)
Definition arrayRemove (arr : value) (from : N) : JS value :=
  fun h =>
    match arr with
    | VObj l =>
        match h !! l with
        | Some (Object (CArray len) props as o) =>
            let rest := slice o (from + 1) (N.to_nat (len - (from + 1))) in
            (set arr "length" (VNum (Z.of_N from)) ;;
             push_all arr from rest ;;
             ret arr) h
        | _ => (h, Thrown TypeError)
        end
    | _ => (h, Thrown TypeError)
    end.

(** Follow a path without creating anything: [it = it[path[i]]] for all
    but the last segment; the result is the holder and the last key. *)
Fixpoint descend (it : value) (p : list seg) : JS (value * string) :=
  match p with
  | [] => ret (it, "undefined")
  | [s] => ret (it, key_of_seg s)
  | s :: p' =>
      let! next := get it (key_of_seg s) in
      descend next p'
  end.

Fixpoint applyArrayChange (arr : value) (index : N) (change : array_item)
  : JS value :=
  match change with
  | NoItem => throw TypeError
  | Item kind [] rhs idx inner =>
      if String.eqb kind "A" then
        (let! sub := get arr (pretty index) in
         applyArrayChange sub idx inner ;;
         ret arr)
      else if String.eqb kind "D" then arrayRemove arr index
      else if String.eqb kind "E" || String.eqb kind "N" then
        (set arr (pretty index) rhs ;; ret arr)
      else ret arr
  | Item kind path rhs idx inner =>
      let! it0 := get arr (pretty index) in
      let! (it, k) := descend it0 path in
      if String.eqb kind "A" then
        (let! sub := get it k in
         applyArrayChange sub idx inner ;;
         ret arr)
      else if String.eqb kind "D" then (del it k ;; ret arr)
      else if String.eqb kind "E" || String.eqb kind "N" then
        (set it k rhs ;; ret arr)
      else ret arr
  end.

(** The loop of [applyChange]: follow the path, creating a container where
    a segment leads nowhere (an array for a number, an object otherwise). *)
Fixpoint walk (it : value) (p : list seg) : JS (value * string) :=
  match p with
  | [] => ret (it, "undefined")
  | [s] => ret (it, key_of_seg s)
  | s :: p' =>
      let! cur := get it (key_of_seg s) in
      (if decide (cur = VUndefined) then
         let! c := (match s with SNum _ => new_array | SStr _ => new_object end) in
         set it (key_of_seg s) c
       else ret ()) ;;
      let! next := get it (key_of_seg s) in
      walk next p'
  end.

(** [applyChange(target, source, change)] *)
Definition applyChange (target source : value) (change : DeepDiff.change) : JS unit :=
  if truthy target && truthy source && negb (String.eqb (kind change) "") then
    let! (it, k) := walk target (path change) in
    if String.eqb (kind change) "A" then
      (let! arr := get it k in
       applyArrayChange arr (index change) (item change) ;;
       ret ())
    else if String.eqb (kind change) "D" then del it k
    else if String.eqb (kind change) "E" || String.eqb (kind change) "N" then
      set it k (rhs change)
    else ret ()
  else ret ().

End DeepDiff.

(** ** Callbacks

    Node-style callbacks report an error or nothing. An asynchronous task
    calls back once, at some later time; [async.each] starts a task per
    element and reports the first error to arrive, or success once every
    task is done. *)

Module Async.
Import JS.

Inductive error :=
| NoDriversAvailable                      (* new Error('No drivers available.') *)
| InvalidId (type : string) (id : value)  (* { error: 'invalid id', code: 404 } *)
| PermissionDenied                        (* { error: 'permission denied', code: 400 } *)
| Failure (msg : string).                 (* whatever a driver or a rule reports *)

(** When a task calls back, and with what. *)
Definition outcome := (nat * option error)%type.

(** The earliest error; of two that arrive together, the one whose task was
    started first. *)
Fixpoint first_error (outs : list outcome) : option (nat * error) :=
  match outs with
  | [] => None
  | (_, None) :: outs' => first_error outs'
  | (t, Some e) :: outs' =>
      match first_error outs' with
      | Some (t', e') => if (t' <? t)%nat then Some (t', e') else Some (t, e)
      | None => Some (t, e)
      end
  end.

Definition all_done (outs : list outcome) : nat :=
  foldr (λ o t, Nat.max o.1 t) 0%nat outs.

(** [async.each]: what the final callback receives, and when. *)
Definition each (outs : list outcome) : outcome :=
  match first_error outs with
  | Some (t, e) => (t, Some e)
  | None => (all_done outs, None)
  end.

End Async.

(** ** The multi-driver store ([datastore/index.js]) *)

Module DataStore.
Import JS Async.

(** Data a driver hands back, or a factory makes: fresh, not yet in the
    heap. *)
Inductive lit :=
| LUndefined
| LNull
| LBool (b : bool)
| LNum (n : Z)
| LStr (s : string)
| LDate (time : Z)
| LObject (props : list (string * lit))
| LArray (elems : list lit).

(** [arr.push(v)] *)
Definition push (arr v : value) : JS unit :=
  fun h =>
    match arr with
    | VObj l =>
        match h !! l with
        | Some (Object (CArray len) _) => set arr (pretty len) v h
        | _ => (h, Thrown TypeError)
        end
    | _ => (h, Thrown TypeError)
    end.

Fixpoint materialize (x : lit) : JS value :=
  match x with
  | LUndefined => ret VUndefined
  | LNull => ret VNull
  | LBool b => ret (VBool b)
  | LNum n => ret (VNum n)
  | LStr s => ret (VStr s)
  | LDate t => new_Date t
  | LObject props =>
      let! o := new_object in
      forEach props (fun p => let! v := materialize p.2 in set o p.1 v) ;;
      ret o
  | LArray elems =>
      let! a := new_array in
      forEach elems (fun x' => let! v := materialize x' in push a v) ;;
      ret a
  end.

(** How deep the plain objects and arrays of a datum nest. *)
Fixpoint lit_depth (x : lit) : nat :=
  match x with
  | LObject props => S (foldr (λ p d, Nat.max (lit_depth p.2) d) 0%nat props)
  | LArray elems => S (foldr (λ x' d, Nat.max (lit_depth x') d) 0%nat elems)
  | _ => 0%nat
  end.

Inductive operation := Get | Query | Search.

Definition op_name (op : operation) : string :=
  match op with
  | Get => "get"
  | Query => "query"
  | Search => "search"
  end.

(** What a read is asked for: an id ([get]), a query passed through as it
    is ([query], [search]), or the log entries of an object ([getLog]). *)
Inductive criteria :=
| ById (id : value)
| ByQuery (query : value)
| ByObject (type : string) (objectId : value).

Record read_options := ReadOptions {
  view : value;
  sort_createdAt : option Z;
  limit : option Z
}.

Definition no_options : read_options := ReadOptions VUndefined None None.

Inductive call :=
| CallRead (op : operation) (type : string) (c : criteria) (o : read_options)
| CallPut (type : string) (object : value)
| CallDelete (type : string) (id : value).

Section Drivers.

(** What a driver keeps between calls. *)
Context {State : Type}.

(** A driver: its [options.authoritative] tag, its state, the calls made
    to it so far, and what its methods do. A driver reads the objects it is
    handed and answers with fresh data. *)
Record driver := Driver {
  authoritative : option string;
  d_state : State;
  d_calls : list call;
  d_read : operation → heap → string → criteria → read_options → State →
           State * (outcome * lit);
  d_put : heap → string → value → State → State * outcome;
  d_delete : heap → string → value → State → State * outcome
}.

Definition called (d : driver) (c : call) (s : State) : driver :=
  Driver (authoritative d) s (d_calls d ++ [c]) (d_read d) (d_put d) (d_delete d).

Definition invoke_read (op : operation) (h : heap) (type : string) (c : criteria)
    (o : read_options) (d : driver) : driver * (outcome * lit) :=
  let '(s, r) := d_read d op h type c o (d_state d) in
  (called d (CallRead op type c o) s, r).

Definition invoke_put (h : heap) (type : string) (object : value) (d : driver)
  : driver * outcome :=
  let '(s, r) := d_put d h type object (d_state d) in
  (called d (CallPut type object) s, r).

Definition invoke_delete (h : heap) (type : string) (id : value) (d : driver)
  : driver * outcome :=
  let '(s, r) := d_delete d h type id (d_state d) in
  (called d (CallDelete type id) s, r).

Record DataStore := Store {
  idField : string;
  create : string → lit;
  drivers : list driver;
  loggers : list driver
}.

(** [s.split(',')] *)
Fixpoint split_on (sep : Ascii.ascii) (cur : string) (s : string) : list string :=
  match s with
  | EmptyString => [String.rev cur]
  | String a s' =>
      if Ascii.eqb a sep then String.rev cur :: split_on sep EmptyString s'
      else split_on sep (String a cur) s'
  end.

Definition comma : Ascii.ascii := Ascii.ascii_of_N 44.

Definition split_commas (s : string) : list string := split_on comma EmptyString s.

Definition authorities (d : driver) : list string :=
  match authoritative d with
  | Some tag => if String.eqb tag "" then [] else split_commas tag
  | None => []
  end.

Definition is_authoritative (operation : string) (d : driver) : bool :=
  bool_decide (operation ∈ authorities d).

(** [_getAuthoritative]: the first driver of the array that declares the
    operation, by its position. *)
Fixpoint _getAuthoritative (array : list driver) (operation : string) : option nat :=
  match array with
  | [] => None
  | obj :: array' =>
      if is_authoritative operation obj then Some 0%nat
      else S <$> _getAuthoritative array' operation
  end.

(** [_handleReadOperation]: the handlers afterwards, and what the callback
    receives. *)
Definition _handleReadOperation (operation : DataStore.operation) (handlers : list driver)
    (type : string) (c : criteria) (o : read_options)
  : JS (list driver * (option error * value)) :=
  match _getAuthoritative handlers (op_name operation) with
  | None => ret (handlers, (Some NoDriversAvailable, VUndefined))
  | Some i =>
      match handlers !! i with
      | None => ret (handlers, (Some NoDriversAvailable, VUndefined))
      | Some d =>
          fun h =>
            let '(d', ((_, err), x)) := invoke_read operation h type c o d in
            (let! v := materialize x in
             ret (<[i := d']> handlers, (err, v))) h
      end
  end.

Definition with_drivers (self : DataStore) (ds : list driver) : DataStore :=
  Store (idField self) (create self) ds (loggers self).

Definition with_loggers (self : DataStore) (ls : list driver) : DataStore :=
  Store (idField self) (create self) (drivers self) ls.

Definition read (operation : DataStore.operation) (self : DataStore)
    (type : string) (c : criteria) (o : read_options)
  : JS (DataStore * (option error * value)) :=
  let! (ds, r) := _handleReadOperation operation (drivers self) type c o in
  ret (with_drivers self ds, r).

Definition get := read Get.
Definition query := read Query.
Definition search := read Search.

(** Start [f] on every driver and gather what [async.each] reports. *)
Definition fan_out (f : driver → driver * outcome) (ds : list driver)
  : list driver * outcome :=
  let rs := f <$> ds in (rs.*1, each rs.*2).

Definition or_null (v : value) : value :=
  match v with
  | VUndefined => VNull
  | _ => v
  end.

(** [extend({ createdAt: new Date() }, _defaultLogEntry, options)]: the
    defaults are all [null], and an undefined option leaves the default. *)
Definition auditLogEntry (createdAt : value) (action type : string) (objectId meta : value)
  : object :=
  Object CPlain
    (<["meta" := or_null meta]>
     (<["objectId" := or_null objectId]>
      (<["type" := VStr type]>
       (<["action" := VStr action]>
        (<["createdAt" := createdAt]> ∅))))).

(** [log]: build the entry and put it to every logger. *)
Definition log (self : DataStore) (now : Z) (action type : string) (objectId meta : value)
  : JS (DataStore * outcome) :=
  let! createdAt := new_Date now in
  let! entry := alloc (auditLogEntry createdAt action type objectId meta) in
  fun h =>
    let '(ls, r) := fan_out (invoke_put h "auditlogentry" entry) (loggers self) in
    (h, Normal (with_loggers self ls, r)).

(** What a write leaves behind: the answer given to the caller's callback,
    and how the code that runs after that answer ended. *)
Record written := Written {
  answer : option error;
  afterwards : completion unit
}.

Definition put (self : DataStore) (now : Z) (type : string) (object meta : value)
  : heap → heap * (DataStore * written) :=
  fun h =>
    let '(ds, (_, error)) := fan_out (invoke_put h type object) (drivers self) in
    let self1 := with_drivers self ds in
    (* callback( error ), then the log *)
    match (let! objectId := JS.get object (idField self) in
           log self1 now "put" type objectId meta) h with
    | (h', Normal (self2, _)) => (h', (self2, Written error (Normal ())))
    | (h', Thrown e) => (h', (self1, Written error (Thrown e)))
    end.

Definition delete (self : DataStore) (now : Z) (type : string) (id meta : value)
  : heap → heap * (DataStore * written) :=
  fun h =>
    let '(ds, (_, error)) := fan_out (invoke_delete h type id) (drivers self) in
    let self1 := with_drivers self ds in
    match log self1 now "delete" type id meta h with
    | (h', Normal (self2, _)) => (h', (self2, Written error (Normal ())))
    | (h', Thrown e) => (h', (self1, Written error (Thrown e)))
    end.

Definition getLog (self : DataStore) (type : string) (id : value) (o : read_options)
  : JS (DataStore * (option error * value)) :=
  let! (ls, r) := _handleReadOperation Query (loggers self) "auditlogentry"
                    (ByObject type id) o in
  ret (with_loggers self ls, r).

(** *** What a fan-out leaves behind *)

(** One call on every driver, each keeping what its own call wrote. *)
Definition once (c : call) (run : driver → State * outcome)
    (ds ds' : list driver) : Prop :=
  Forall2 (λ d d', d_calls d' = d_calls d ++ [c] ∧ d_state d' = (run d).1) ds ds'.

(** What the caller of a fan-out is told: nothing if every driver
    succeeded, else the error that arrived first. *)
Definition told (run : driver → State * outcome) (ds : list driver)
    (answer : option error) : Prop :=
  (answer = None ↔ Forall (λ d, (run d).2.2 = None) ds) ∧
  (∀ e, answer = Some e →
     ∃ i d t, ds !! i = Some d ∧ (run d).2 = (t, Some e) ∧
       ∀ j d' t' e', ds !! j = Some d' → (run d').2 = (t', Some e') → (t ≤ t')%nat).

(** What the log of one write leaves: a date and an entry in the heap,
    and one put of that entry on every logger. *)
Definition audited (self : DataStore) (now : Z) (action type : string)
    (objectId meta : value) (h h' : heap) (self' : DataStore) : Prop :=
  let entry := VObj (S (length h)) in
  h' = h ++ [Object (CDate now) ∅;
             auditLogEntry (VObj (length h)) action type objectId meta] ∧
  prop h' entry "action" = VStr action ∧
  prop h' entry "type" = VStr type ∧
  prop h' entry "objectId" = or_null objectId ∧
  prop h' entry "meta" = or_null meta ∧
  time_of h' (prop h' entry "createdAt") = Some now ∧
  once (CallPut "auditlogentry" entry)
    (λ g, d_put g h' "auditlogentry" entry (d_state g)) (loggers self) (loggers self').

End Drivers.

Arguments driver : clear implicits.
Arguments DataStore : clear implicits.

End DataStore.

(** ** The engine ([index.js]) *)

Module Objecticon.
Import JS Async DeepDiff.

(** [s.toLowerCase()], on ASCII letters. *)
Definition lower (a : Ascii.ascii) : Ascii.ascii :=
  let n := Ascii.N_of_ascii a in
  if (65 <=? n)%N && (n <=? 90)%N then Ascii.ascii_of_N (n + 32) else a.

Fixpoint toLowerCase (s : string) : string :=
  match s with
  | EmptyString => EmptyString
  | String a s' => String (lower a) (toLowerCase s')
  end.

(** [_defaults] are [{ idField: 'id', strict: true }]. *)
Record options := Options {
  idField : string;
  strict : bool
}.

Definition _defaults : options := Options "id" true.

(** The operation context [opts]: the fields of the call contract, and
    what the stages of an operation leave on it. *)
Record opts := Opts {
  type : string;
  id : value;
  allowMissing : bool;
  overlay : value;
  changes : option (list change);
  meta : value;
  limit : option Z;
  query : value;
  view : value;
  results : value;
  creating : bool;
  updated : value
}.

(** What a caller passes to [get], [update] or [delete]. *)
Definition request (type : string) (id : value) (changes : option (list DeepDiff.change))
    (meta : value) : opts :=
  Opts type id false VUndefined changes meta None VUndefined VUndefined
       VUndefined false VUndefined.

Definition set_results (o : opts) (v : value) : opts :=
  Opts (type o) (id o) (allowMissing o) (overlay o) (changes o) (meta o) (limit o)
       (query o) (view o) v (creating o) (updated o).

Definition set_creating (o : opts) (b : bool) : opts :=
  Opts (type o) (id o) (allowMissing o) (overlay o) (changes o) (meta o) (limit o)
       (query o) (view o) (results o) b (updated o).

Definition set_updated (o : opts) (v : value) : opts :=
  Opts (type o) (id o) (allowMissing o) (overlay o) (changes o) (meta o) (limit o)
       (query o) (view o) (results o) (creating o) v.

Definition set_allowMissing (o : opts) (b : bool) : opts :=
  Opts (type o) (id o) b (overlay o) (changes o) (meta o) (limit o)
       (query o) (view o) (results o) (creating o) (updated o).

(** The copy of the context made for a rule check: the context extended
    with the action and, for the check of one change, with its field and the
    change itself. *)
Record rule_opts := RuleOpts {
  context : opts;
  action : string;
  field : option string;
  change : option DeepDiff.change
}.

(** [extend({}, opts, { action: action })] *)
Definition with_action (o : opts) (a : string) : rule_opts :=
  RuleOpts o a None None.

(** [extend({}, opts, { action: action, field: field, change: change })] *)
Definition with_change (o : opts) (a f : string) (c : DeepDiff.change) : rule_opts :=
  RuleOpts o a (Some f) (Some c).

(** A rule looks at the context and calls back, with an error to veto. *)
Definition rule := heap → rule_opts → outcome.

(** [self.rules[type][action][field]] *)
Abbreviation registry := (gmap string (gmap string (gmap string (list rule)))).

Inductive event :=
| Updated (type : string) (obj : value)
| UpdatedType (type : string) (obj : value)
| UpdatedTypeId (type : string) (id : value) (obj : value).

(** What the caller of an operation sees: its callback called with an error
    and a result, or an exception. *)
Inductive reply :=
| Callback (error : option error) (result : value)
| Uncaught (e : exn).

Section Engine.

Context {State : Type}.

(** [JSON.stringify], applied to the changes for the audit log. *)
Variable stringify : heap → list DeepDiff.change → string.

(** The bound on recursion depth. *)
Variable stack : nat.

(** The engine, the heap, the context of the operation under way, and what
    the operation takes from outside: the time and the next random id. *)
Record world := World {
  w_heap : heap;
  w_options : options;
  w_rules : registry;
  w_ds : DataStore.DataStore State;
  w_opts : opts;
  w_emitted : list event;
  w_now : Z;
  w_uuid : string
}.

Definition put_heap (w : world) (h : heap) : world :=
  World h (w_options w) (w_rules w) (w_ds w) (w_opts w) (w_emitted w) (w_now w) (w_uuid w).
Definition put_rules (w : world) (r : registry) : world :=
  World (w_heap w) (w_options w) r (w_ds w) (w_opts w) (w_emitted w) (w_now w) (w_uuid w).
Definition put_ds (w : world) (d : DataStore.DataStore State) : world :=
  World (w_heap w) (w_options w) (w_rules w) d (w_opts w) (w_emitted w) (w_now w) (w_uuid w).
Definition put_opts (w : world) (o : opts) : world :=
  World (w_heap w) (w_options w) (w_rules w) (w_ds w) o (w_emitted w) (w_now w) (w_uuid w).
Definition emit (w : world) (e : event) : world :=
  World (w_heap w) (w_options w) (w_rules w) (w_ds w) (w_opts w) (w_emitted w ++ [e])
        (w_now w) (w_uuid w).

(** A stage ends by calling back without an error ([Done]), with one
    ([Failed]), or by throwing ([Threw]). *)
Inductive result (A : Type) :=
| Done (a : A)
| Failed (e : error)
| Threw (x : exn).
Arguments Done {A} a.
Arguments Failed {A} e.
Arguments Threw {A} x.

Definition Task (A : Type) := world → world * result A.

Definition done {A} (a : A) : Task A := fun w => (w, Done a).
Definition fail {A} (e : error) : Task A := fun w => (w, Failed e).

(** [async.series]: the next stage runs only if this one called back
    without an error. *)
Definition andThen {A B} (t : Task A) (k : A → Task B) : Task B :=
  fun w => match t w with
           | (w', Done a) => k a w'
           | (w', Failed e) => (w', Failed e)
           | (w', Threw x) => (w', Threw x)
           end.

Notation "'do!' x ':=' t 'in' k" := (andThen t (fun x => k))
  (at level 10, x pattern, t at level 100, k at level 200).
Notation "t '>>' k" := (andThen t (fun _ => k))
  (at level 100, k at level 200, right associativity).

(** Run a heap computation inside a stage. *)
Definition js {A} (m : JS A) : Task A :=
  fun w => match m (w_heap w) with
           | (h, Normal a) => (put_heap w h, Done a)
           | (h, Thrown x) => (put_heap w h, Threw x)
           end.

Definition the_opts : Task opts := fun w => (w, Done (w_opts w)).
Definition modify_opts (f : opts → opts) : Task unit :=
  fun w => (put_opts w (f (w_opts w)), Done ()).

Definition _createObject : Task unit :=
  do! o := the_opts in
  do! ds := (fun w => (w, Done (w_ds w))) in
  do! obj := js (DataStore.materialize (DataStore.create ds (type o))) in
  modify_opts (fun o => set_results o obj) >>
  do! uuid := (fun w => (w, Done (w_uuid w))) in
  js (JS.set obj "id" (VStr uuid)) >>
  modify_opts (fun o => set_creating o true).

Definition ds_get (type : string) (id : value) : Task value :=
  fun w =>
    match DataStore.get (w_ds w) type (DataStore.ById id) DataStore.no_options (w_heap w) with
    | (h, Normal (ds, (None, v))) => (put_ds (put_heap w h) ds, Done v)
    | (h, Normal (ds, (Some e, _))) => (put_ds (put_heap w h) ds, Failed e)
    | (h, Thrown x) => (put_heap w h, Threw x)
    end.

Definition _getObject : Task unit :=
  do! o := the_opts in
  (* attempt to get the object *)
  do! results := ds_get (type o) (id o) in
  (* check if the object exists *)
  (if truthy results || allowMissing o then done ()
   else fail (InvalidId (type o) (id o))) >>
  (* create the object if necessary *)
  (if truthy results then done () else _createObject) >>
  modify_opts (fun o => set_results o (if truthy (Objecticon.results o)
                                       then Objecticon.results o else results)).

Definition _applyChanges : Task unit :=
  do! o := the_opts in
  do! u := js (Extend.clone stack (results o)) in
  modify_opts (fun o => set_updated o u) >>
  match changes o with
  | None => fun w => (w, Threw TypeError)
  | Some cs =>
      js (forEach cs (fun c => applyChange u (VBool true) c)) >>
      do! stamp := js (JS.get u "updateAt") in
      if decide (stamp = VUndefined) then done ()
      else do! now := (fun w => (w, Done (w_now w))) in
           do! d := js (new_Date now) in
           js (JS.set u "updatedAt" d)
  end.

(** The key under which rules for a field are found: [null] when the
    context names no field. *)
Definition field_or_null (f : option string) : option string :=
  match f with
  | Some s => if String.eqb s "" then None else Some s
  | None => None
  end.

Definition key_of_field (f : option string) : string :=
  match f with
  | Some s => s
  | None => "null"
  end.

Definition rules_for (r : registry) (type action : string) (f : option string)
  : list rule :=
  default [] (default ∅ (default ∅ (r !! type) !! action) !! key_of_field f).

(** [self.rules[type] = self.rules[type] || {}] and the same for the
    action. *)
Definition touch (r : registry) (type action : string) : registry :=
  let by_action := default ∅ (r !! type) in
  let by_field := default ∅ (by_action !! action) in
  <[type := <[action := by_field]> by_action]> r.

(** [_checkRules]: the registry afterwards, and what the callback gets and
    when. *)
Definition _checkRules (strict : bool) (r : registry) (h : heap) (o : rule_opts)
  : registry * outcome :=
  let type := toLowerCase (type (context o)) in
  let action := toLowerCase (action o) in
  let field := field_or_null (field o) in
  let r' := touch r type action in
  let rules := rules_for r' type action field in
  if negb (bool_decide (is_Some field)) && strict && bool_decide (rules = [])
  then (r', (0%nat, Some PermissionDenied))
  else (r', each ((fun rule : rule => rule h o) <$> rules)).

Definition finish (r : outcome) : Task unit :=
  match r.2 with
  | None => done ()
  | Some e => fail e
  end.

Definition _checkTypeRules (action : string) : Task unit :=
  do! o := the_opts in
  fun w =>
    let '(r, out) := _checkRules (strict (w_options w)) (w_rules w) (w_heap w)
                       (with_action o action) in
    finish out (put_rules w r).

(** [change.path.join('.')] *)
Fixpoint join (sep : string) (p : list seg) : string :=
  match p with
  | [] => ""
  | [s] => key_of_seg s
  | s :: p' => key_of_seg s +:+ sep +:+ join sep p'
  end.

Fixpoint check_each (strict : bool) (r : registry) (h : heap) (o : opts) (action : string)
    (cs : list DeepDiff.change) : registry * list outcome :=
  match cs with
  | [] => (r, [])
  | c :: cs' =>
      let field := join "." (path c) in
      let '(r1, out) := _checkRules strict r h (with_change o action field c) in
      let '(r2, outs) := check_each strict r1 h o action cs' in
      (r2, out :: outs)
  end.

Definition _checkDiffRules (action : string) : Task unit :=
  do! o := the_opts in
  match changes o with
  | None => fun w => (w, Threw TypeError)
  | Some cs =>
      fun w =>
        let '(r, outs) := check_each (strict (w_options w)) (w_rules w) (w_heap w)
                            o action cs in
        finish (each outs) (put_rules w r)
  end.

(** [extend({}, opts.meta, { diff: JSON.stringify(opts.changes) })] *)
Definition meta_with_diff (meta : value) (cs : list DeepDiff.change) : JS value :=
  let! m := new_object in
  Extend.extend 1 false m meta ;;
  (fun h => JS.set m "diff" (VStr (stringify h cs)) h) ;;
  ret m.

Definition _write : Task unit :=
  do! o := the_opts in
  do! m := js (meta_with_diff (meta o) (default [] (changes o))) in
  do! error := (fun w =>
    let '(h, (ds, wr)) := DataStore.put (w_ds w) (w_now w) (type o) (updated o) m (w_heap w) in
    (put_ds (put_heap w h) ds, Done (DataStore.answer wr))) in
  match error with
  | Some e => fail e
  | None => modify_opts (fun o => set_results o (Objecticon.updated o))
  end.

Definition _delete : Task unit :=
  do! o := the_opts in
  do! m := js (let! m := new_object in Extend.extend 1 false m (meta o)) in
  do! error := (fun w =>
    let '(h, (ds, wr)) := DataStore.delete (w_ds w) (w_now w) (type o) (id o) m (w_heap w) in
    (put_ds (put_heap w h) ds, Done (DataStore.answer wr))) in
  match error with
  | Some e => fail e
  | None => done ()
  end.

Definition _update : Task unit :=
  _applyChanges >>
  _checkTypeRules "write" >>
  _checkDiffRules "write" >>
  _write.

(** [Math.min( opts.limit || 10, 100 )] *)
Definition log_limit (limit : option Z) : Z :=
  Z.min (match limit with
         | Some n => if n =? 0 then 10 else n
         | None => 10
         end) 100.

Definition _getLog : Task unit :=
  do! o := the_opts in
  let limit := log_limit (limit o) in
  fun w =>
    match DataStore.getLog (w_ds w) (type o) (id o)
            (DataStore.ReadOptions VUndefined (Some (-1)) (Some limit)) (w_heap w) with
    | (h, Normal (ds, (None, v))) =>
        (put_opts (put_ds (put_heap w h) ds) (set_results o v), Done ())
    | (h, Normal (ds, (Some e, _))) => (put_ds (put_heap w h) ds, Failed e)
    | (h, Thrown x) => (put_heap w h, Threw x)
    end.

(** [addRule(type, action, field, rule)]; [field] is [None] when the rule
    is for the whole object. *)
Definition addRule (r : registry) (type action : string) (field : option string)
    (rule : Objecticon.rule) : registry :=
  let type := toLowerCase type in
  let action := toLowerCase action in
  let by_action := default ∅ (r !! type) in
  let by_field := default ∅ (by_action !! action) in
  let rules := default [] (by_field !! key_of_field field) in
  <[type := <[action := <[key_of_field field := rules ++ [rule]]> by_field]> by_action]> r.

(** *** The public operations *)

Definition get (w : world) : world * reply :=
  match (modify_opts (fun o => set_results o VNull) >>
         _getObject >>
         _checkTypeRules "read") w with
  | (w', Done _) => (w', Callback None (results (w_opts w')))
  | (w', Failed e) => (w', Callback (Some e) (results (w_opts w')))
  | (w', Threw x) => (w', Uncaught x)
  end.

Definition update (w : world) : world * reply :=
  match (modify_opts (fun o => set_allowMissing o true) >>
         _getObject >>
         _update) w with
  | (w', Done _) =>
      let o := w_opts w' in
      match JS.get (results o) "id" (w_heap w') with
      | (_, Normal id) =>
          (emit (emit (emit w' (Updated (type o) (results o)))
                      (UpdatedType (type o) (results o)))
                (UpdatedTypeId (type o) id (results o)),
           Callback None (results o))
      | (_, Thrown _) => (w', Callback None (results o))
      end
  | (w', Failed e) => (w', Callback (Some e) VUndefined)
  | (w', Threw x) => (w', Uncaught x)
  end.

Definition delete (w : world) : world * reply :=
  match (_getObject >>
         _checkTypeRules "delete" >>
         _delete) w with
  | (w', Done _) => (w', Callback None VUndefined)
  | (w', Failed e) => (w', Callback (Some e) VUndefined)
  | (w', Threw x) => (w', Uncaught x)
  end.

Definition getLog (w : world) : world * reply :=
  match (_checkTypeRules "log" >> _getLog) w with
  | (w', Done _) => (w', Callback None (results (w_opts w')))
  | (w', Failed e) => (w', Callback (Some e) VUndefined)
  | (w', Threw x) => (w', Uncaught x)
  end.

End Engine.

Arguments Done {A} a.
Arguments Failed {A} e.
Arguments Threw {A} x.

End Objecticon.

(** ** The arrays of drivers and loggers ([datastore/index.js])

    [addDriver] and [addLogger] are [_addArrayItem], [removeDriver] and
    [removeLogger] are [_removeArrayItem], bound to the store's arrays. *)

Module ArrayItems.

Section Items.

(** What an array holds is compared by identity, as [indexOf] compares
    objects. *)
Context {A : Type} `{EqDecision A}.

(** [array.push(item)]: the array afterwards, and its new length. *)
Definition _addArrayItem (array : list A) (item : A) : list A * Z :=
  (array ++ [item], Z.of_nat (length array) + 1).

(** [array.indexOf(item)] *)
Definition indexOf (array : list A) (item : A) : Z :=
  match list_find (λ x, x = item) array with
  | Some (i, _) => Z.of_nat i
  | None => -1
  end.

(** What to remove is given by position (a number) or as the item. *)
Inductive which :=
| ByIndex (n : Z)
| ByItem (x : A).

(** [_removeArrayItem]: the array afterwards, and the answer. A
    [splice(index, 1)] past the end removes nothing. *)
Definition _removeArrayItem (array : list A) (item : which) : list A * bool :=
  let index := match item with
               | ByIndex n => n
               | ByItem x => indexOf array x
               end in
  if -1 <? index then (delete (Z.to_nat index) array, true)
  else (array, false).

End Items.

Arguments which : clear implicits.

End ArrayItems.

(** ** The constructors *)

Module Construction.
Import JS Async.

Section Construction.

Context {State : Type}.

(** The options the store's constructor reads; [None] is a key that is
    left out. *)
Record store_options := StoreOptions {
  so_idField : option string;
  so_create : option (string → DataStore.lit);
  so_drivers : option (list (DataStore.driver State));
  so_loggers : option (list (DataStore.driver State))
}.

(** [new DataStore(_options)]; [None] is the [Error] thrown for options
    without a factory. *)
Definition new_DataStore (_options : store_options) : option (DataStore.DataStore State) :=
  match so_create _options with
  | None => None
  | Some create =>
      Some (DataStore.Store (default "id" (so_idField _options)) create
              (default [] (so_drivers _options))
              (default [] (so_loggers _options)))
  end.

(** The options the engine's constructor reads. *)
Record engine_options := EngineOptions {
  eo_idField : option string;
  eo_strict : option bool;
  eo_create : option (string → DataStore.lit);
  eo_drivers : option (list (DataStore.driver State))
}.

Record engine := Engine {
  e_options : Objecticon.options;
  e_rules : Objecticon.registry;
  e_ds : DataStore.DataStore State
}.

(** [new Objecticon(options)]: the options over the defaults, no rules,
    and a store made from the id field, the factory and the drivers. *)
Definition new_Objecticon (options : engine_options) : option engine :=
  let self_options :=
    Objecticon.Options
      (default (Objecticon.idField Objecticon._defaults) (eo_idField options))
      (default (Objecticon.strict Objecticon._defaults) (eo_strict options)) in
  match new_DataStore (StoreOptions (Some (Objecticon.idField self_options))
                         (eo_create options) (eo_drivers options) None) with
  | None => None
  | Some ds => Some (Engine self_options ∅ ds)
  end.

(** An engine taking a call: the heap, the context of the call, the time
    and the next random id come with the call. *)
Definition serving (e : engine) (h : heap) (o : Objecticon.opts) (now : Z) (uuid : string)
  : Objecticon.world :=
  Objecticon.World h (e_options e) (e_rules e) (e_ds e) o [] now uuid.

End Construction.

Arguments store_options : clear implicits.
Arguments engine_options : clear implicits.
Arguments engine : clear implicits.

End Construction.

(** ** Queries, and the tail of a delete ([index.js]) *)

Module Queries.
Import JS Async Objecticon.

Section Queries.

Context {State : Type}.

Local Notation "t '>>' k" := (andThen t (fun _ => k))
  (at level 100, k at level 200, right associativity).

(** [_query]: the query and the view are handed to the store as they
    are. *)
Definition _query : Task (State:=State) unit :=
  fun w =>
    let o := w_opts w in
    match DataStore.query (w_ds w) (type o) (DataStore.ByQuery (Objecticon.query o))
            (DataStore.ReadOptions (view o) None None) (w_heap w) with
    | (h, Normal (ds, (None, v))) =>
        (put_opts (put_ds (put_heap w h) ds) (set_results o v), Done ())
    | (h, Normal (ds, (Some e, _))) => (put_ds (put_heap w h) ds, Failed e)
    | (h, Thrown x) => (put_heap w h, Threw x)
    end.

Definition query (w : world) : world * reply :=
  match (modify_opts (fun o => set_results o VNull) >>
         _query >>
         _checkTypeRules "query") w with
  | (w', Done _) => (w', Callback None (results (w_opts w')))
  | (w', Failed e) => (w', Callback (Some e) VUndefined)
  | (w', Threw x) => (w', Uncaught x)
  end.

(** [_remove]: the check and the delete, for an object already fetched. *)
Definition _remove : Task (State:=State) unit :=
  _checkTypeRules "delete" >> _delete.

End Queries.

End Queries.

(** ** Stub drivers and small worlds

    Drivers that record nothing of their own and answer as told, a factory
    that knows one type, and worlds built from them. *)

Module Fixture.
Import JS Async DeepDiff.

(** A driver that answers every read with [read_result] and every write
    with [write_result]. *)
Definition stub (tag : option string) (read_result : DataStore.lit) (write_result : outcome)
  : DataStore.driver unit :=
  DataStore.Driver tag () []
    (fun _ _ _ _ _ s => (s, ((0%nat, None), read_result)))
    (fun _ _ _ s => (s, write_result))
    (fun _ _ _ s => (s, write_result)).

Definition ok : outcome := (0%nat, None).
Definition late_ok : outcome := (5%nat, None).
Definition broken (msg : string) (t : nat) : outcome := (t, Some (Failure msg)).

(** A factory in the manner of [Rest.prototype._createObject]: a default
    instance with both timestamps for a known type, [null] otherwise. *)
Definition factory (type : string) : DataStore.lit :=
  if String.eqb type "widget"
  then DataStore.LObject [("createdAt", DataStore.LDate 7); ("updatedAt", DataStore.LDate 7)]
  else DataStore.LNull.

Definition widget : DataStore.lit :=
  DataStore.LObject [("id", DataStore.LStr "w1"); ("name", DataStore.LStr "foo");
                     ("createdAt", DataStore.LDate 7); ("updatedAt", DataStore.LDate 7)].

Definition store (drivers loggers : list (DataStore.driver unit)) : DataStore.DataStore unit :=
  DataStore.Store "id" factory drivers loggers.

Definition stringify (h : heap) (cs : list change) : string := "[]".

Definition world (h : heap) (strict : bool) (rules : Objecticon.registry)
    (ds : DataStore.DataStore unit) (o : Objecticon.opts) : Objecticon.world :=
  Objecticon.World h (Objecticon.Options "id" strict) rules ds o [] 1000 "f81d4fae".

Definition set_name : change := Change "N" [SStr "name"] VUndefined (VStr "bar") 0 NoItem.

Definition allow : Objecticon.rule := fun _ _ => (0%nat, None).

(** A strict engine with no rule at all, asked to write one field. *)
Definition unruled : Objecticon.world (State:=unit) :=
  world [] true ∅ (store [] [])
    (Objecticon.request "widget" (VStr "w1") (Some [set_name]) VUndefined).


Definition obj (props : list (string * value)) : object := Object CPlain (list_to_map props).

(** An object with an [updatedAt] date, and one with a field [updateAt]. *)
Definition dated : heap :=
  [obj [("id", VStr "w1"); ("name", VStr "foo"); ("updatedAt", VObj 1%nat)];
   Object (CDate 7) ∅].

Definition misnamed : heap :=
  [obj [("id", VStr "w1"); ("updateAt", VNum 1)]].

(** A context in the middle of an update: the object is fetched, the
    changes are given. *)
Definition fetched (cs : list change) : Objecticon.opts :=
  Objecticon.set_results (Objecticon.request "widget" (VStr "w1") (Some cs) VUndefined) (VObj 0%nat).

Definition idle (h : heap) (cs : list change) : Objecticon.world (State:=unit) :=
  world h false ∅ (store [] []) (fetched cs).

Definition into_date : change :=
  Change "N" [SStr "updatedAt"; SStr "x"] VUndefined (VNum 1) 0 NoItem.

(** An object with a nested array and a date. *)
Definition nested : heap :=
  [obj [("name", VStr "foo"); ("tags", VObj 1%nat); ("createdAt", VObj 2%nat)];
   Object (CArray 1) (list_to_map [("0", VStr "a")]);
   Object (CDate 7) ∅].

Definition retag : change :=
  Change "A" [SStr "tags"] VUndefined VUndefined 0 (Item "N" [] (VStr "b") 0 NoItem).

(** A store with two data drivers, the first authoritative for reads, in
    which nothing is stored yet. *)
Definition empty_store : DataStore.DataStore unit :=
  store [stub (Some "get,query,search") DataStore.LNull ok;
         stub None DataStore.LNull late_ok] [].

(** An update of a missing object that brings an explicit diff, and one
    that brings an overlay. *)
Definition with_diff : Objecticon.world (State:=unit) :=
  world [] false ∅ empty_store
    (Objecticon.request "widget" (VStr "X") (Some [set_name]) VUndefined).

Definition with_overlay : Objecticon.world (State:=unit) :=
  world [obj [("name", VStr "bar")]] false ∅ empty_store
    (Objecticon.Opts "widget" (VStr "X") false (VObj 0%nat) None VUndefined None VUndefined
       VUndefined VUndefined false VUndefined).

(** A strict engine without rules, over a store that holds the widget. *)
Definition guarded : Objecticon.world (State:=unit) :=
  world [] true ∅ (store [stub (Some "get") widget ok] [])
    (Objecticon.request "widget" (VStr "w1") None VUndefined).

(** An engine with a logger, asked for a thousand log entries. *)
Definition logging : Objecticon.world (State:=unit) :=
  world [] false ∅
    (store [] [stub (Some "query") (DataStore.LArray []) ok])
    (Objecticon.Opts "widget" (VStr "w1") false VUndefined None VUndefined (Some 1000) VUndefined
       VUndefined VUndefined false VUndefined).


End Fixture.

(** ** More drivers and worlds *)

Module Cases.
Import JS Async DeepDiff.

(** A driver whose reads fail. *)
Definition down (tag : option string) (msg : string) : DataStore.driver unit :=
  DataStore.Driver tag () []
    (fun _ _ _ _ _ s => (s, ((3%nat, Some (Failure msg)), DataStore.LNull)))
    (fun _ _ _ s => (s, Fixture.ok))
    (fun _ _ _ s => (s, Fixture.ok)).

(** A store that holds the widget, with a second data driver and a
    logger. *)
Definition stocked : DataStore.DataStore unit :=
  Fixture.store
    [Fixture.stub (Some "get,query,search") Fixture.widget Fixture.ok;
     Fixture.stub None DataStore.LNull Fixture.late_ok]
    [Fixture.stub (Some "query") (DataStore.LArray []) Fixture.ok].

Definition rename : Objecticon.opts :=
  Objecticon.request "widget" (VStr "w1") (Some [Fixture.set_name]) VUndefined.

(** A strict engine without rules over that store, and one that is not
    strict, both asked to set the name of the widget. *)
Definition locked : Objecticon.world (State:=unit) :=
  Fixture.world [] true ∅ stocked rename.

Definition lenient : Objecticon.world (State:=unit) :=
  Fixture.world [] false ∅ stocked rename.

(** An engine whose only driver is down. *)
Definition unreachable : Objecticon.world (State:=unit) :=
  Fixture.world [] false ∅ (Fixture.store [down (Some "get") "down"] []) rename.

(** An update of a type the factory does not know. *)
Definition unknown : Objecticon.world (State:=unit) :=
  Fixture.world [] false ∅ Fixture.empty_store
    (Objecticon.request "gadget" (VStr "g1") (Some [Fixture.set_name]) VUndefined).

(** A change without a path, under strict mode and no rules. *)
Definition pathless : change := Change "N" [] VUndefined (VNum 1) 0 NoItem.

Definition rootless : Objecticon.world (State:=unit) :=
  Fixture.world [] true ∅ (Fixture.store [] [])
    (Objecticon.request "widget" (VStr "w1") (Some [pathless]) VUndefined).

(** Two drivers that are both authoritative for [get]. *)
Definition rivals : DataStore.DataStore unit :=
  Fixture.store
    [Fixture.stub (Some "query") DataStore.LNull Fixture.ok;
     Fixture.stub (Some "get") Fixture.widget Fixture.ok;
     Fixture.stub (Some "get,query") DataStore.LNull Fixture.ok] [].

(** The widget fetched and patched, ready to be written. *)
Definition patched : Objecticon.world (State:=unit) :=
  (Objecticon._applyChanges 8
     (Fixture.world Fixture.dated false ∅ stocked (Fixture.fetched [Fixture.set_name]))).1.

(** A call whose context still carries the result of an earlier one. *)
Definition revisited : Objecticon.world (State:=unit) :=
  Fixture.world Fixture.dated false ∅ stocked (Fixture.fetched [Fixture.set_name]).

(** The options of an engine with a factory and one driver. *)
Definition plain : Construction.engine_options unit :=
  Construction.EngineOptions None None (Some Fixture.factory)
    (Some [Fixture.stub (Some "get,query,search") Fixture.widget Fixture.ok]).

End Cases.

(** ** Separation

    What it takes for a set [P] of heap locations to stay as it is while
    a computation runs: the computation starts from values outside [P], and
    nothing outside [P] refers into it. *)

Module Separation.
Import JS DeepDiff.

Section Protected.

Variable P : gset loc.

Definition outside (v : value) : Prop :=
  match v with
  | VObj l => l ∉ P
  | _ => True
  end.

Definition object_outside (o : object) : Prop :=
  map_Forall (λ _ v, outside v) (o_props o).

(** The objects [extend] clones rather than shares. *)
Definition clonable (o : object) : Prop :=
  match o_class o with
  | CPlain | CArray _ => True
  | _ => False
  end.

(** [P] holds plain objects and arrays only, and no object outside [P]
    has a property that refers into [P]. *)
Definition separated (h : heap) : Prop :=
  (∀ l, l ∈ P → ∃ o, h !! l = Some o ∧ clonable o) ∧
  (∀ l o, h !! l = Some o → l ∉ P → object_outside o).

(** A change brings no reference into [P] with it. *)
Fixpoint item_foreign (i : array_item) : Prop :=
  match i with
  | NoItem => True
  | Item _ _ rhs _ inner => outside rhs ∧ item_foreign inner
  end.

Definition foreign (c : change) : Prop :=
  outside (rhs c) ∧ item_foreign (item c).

(** The heaps a computation started in [h0] may pass through: they extend
    [h0], agree with it on [P], and keep [P] unreferenced from outside. *)
Definition inv (h0 h : heap) : Prop :=
  (length h0 ≤ length h)%nat ∧
  (∀ l, l ∈ P → h !! l = h0 !! l) ∧
  (∀ l o, h !! l = Some o → l ∉ P → object_outside o).

(** [m] keeps the invariant, and what it returns satisfies [Q]. *)
Definition safe {A} (h0 : heap) (Q : A → Prop) (m : JS A) : Prop :=
  ∀ h, inv h0 h → inv h0 (m h).1 ∧ ∀ a, (m h).2 = Normal a → Q a.

End Protected.

(** A value that [extend] copies within [n] nested calls: the plain objects
    and arrays it leads to lie at the locations from [lo] up to [hi], nest
    at most [n] deep, and end in values that are shared, not cloned. An array
    keeps its [length] apart from its properties. *)
Definition shared (lo hi : nat) (h : heap) (v : value) : Prop :=
  match v with
  | VObj l => (lo ≤ l < hi)%nat ∧ ∃ o, h !! l = Some o ∧ ¬ clonable o
  | _ => True
  end.

Inductive well (lo hi : nat) (h : heap) : nat → value → Prop :=
| well_shared n v : shared lo hi h v → well lo hi h n v
| well_cloned n l o :
    (lo ≤ l < hi)%nat → h !! l = Some o → clonable o →
    (o_class o = CPlain ∨ o_props o !! "length" = None) →
    (∀ k v, o_props o !! k = Some v → well lo hi h n v) →
    well lo hi h (S n) (VObj l).

(** The locations a value leads to, by any chain of properties. *)
Inductive reach (h : heap) : value → loc → Prop :=
| reach_here l : reach h (VObj l) l
| reach_step l o k v l' :
    h !! l = Some o → o_props o !! k = Some v → reach h v l' → reach h (VObj l) l'.

(** Two objects of the same kind: both plain, or both arrays. *)
Definition same_kind (c c' : class) : Prop :=
  match c, c' with
  | CPlain, CPlain => True
  | CArray _, CArray _ => True
  | _, _ => False
  end.

(** A string that does not begin with the letter l, as the decimal
    spelling of a number does not. *)
Definition digit_headed (s : string) : Prop :=
  match s with
  | String c _ => c ≠ Ascii.ascii_of_N 108
  | EmptyString => False
  end.

(** What materialising a datum does: the heap grows, the old part stays
    as it is, and the value made is one that [extend] can copy. *)
Definition materialized (x : DataStore.lit) : Prop :=
  ∀ h, ∃ h' v,
    DataStore.materialize x h = (h', Normal v) ∧
    h `prefix_of` h' ∧
    well (length h) (length h') h' (DataStore.lit_depth x) v.

End Separation.

(** ** What an operation leaves behind

    The vocabulary for saying what an operation did to the drivers, to the
    rules and to the listeners. *)

Module Trace.
Import JS Async Objecticon.

Section Trace.

Context {State : Type}.
Implicit Types (w : @world State).

Definition is_write (c : DataStore.call) : bool :=
  match c with
  | DataStore.CallRead _ _ _ _ => false
  | _ => true
  end.

(** The puts and deletes a driver has been asked for. *)
Definition writes (d : DataStore.driver State) : list DataStore.call :=
  filter (λ c, Is_true (is_write c)) (DataStore.d_calls d).

Definition same_writes (ds ds' : list (DataStore.driver State)) : Prop :=
  writes <$> ds' = writes <$> ds.

(** Every lookup finds the same rules in both registries. *)
Definition same_rules (r r' : registry) : Prop :=
  ∀ t a f, rules_for r' t a f = rules_for r t a f.

(** There are as many drivers and as many loggers in both stores. *)
Definition same_size (ds ds' : DataStore.DataStore State) : Prop :=
  length (DataStore.drivers ds') = length (DataStore.drivers ds) ∧
  length (DataStore.loggers ds') = length (DataStore.loggers ds).

(** What no stage of an operation changes: the rules that apply, the
    options, what the call asks for, what has been emitted, how many
    drivers and loggers there are, and the time of the call. *)
Definition steady w w' : Prop :=
  same_rules (w_rules w) (w_rules w') ∧
  w_options w' = w_options w ∧
  type (w_opts w') = type (w_opts w) ∧
  id (w_opts w') = id (w_opts w) ∧
  changes (w_opts w') = changes (w_opts w) ∧
  w_emitted w' = w_emitted w ∧
  same_size (w_ds w) (w_ds w') ∧
  w_now w' = w_now w.

(** No driver and no logger has been asked to put or to delete. *)
Definition unwritten w w' : Prop :=
  same_writes (DataStore.drivers (w_ds w)) (DataStore.drivers (w_ds w')) ∧
  same_writes (DataStore.loggers (w_ds w)) (DataStore.loggers (w_ds w')).

Definition read_only w w' : Prop := steady w w' ∧ unwritten w w'.

(** A stage that relates the world it ends in to the one it started in. *)
Definition keeps {A} (R : @world State → @world State → Prop) (t : Task A) : Prop :=
  ∀ w, R w (t w).1.

(** A whole-object check for [action] cannot pass: strict mode finds no
    rule, or some rule vetoes whatever it is shown. *)
Definition closed w (action : string) : Prop :=
  let rules := rules_for (w_rules w) (toLowerCase (type (w_opts w)))
                 (toLowerCase action) None in
  (strict (w_options w) = true ∧ rules = []) ∨
  Exists (λ rule : rule, ∀ h o, (rule h o).2 ≠ None) rules.

(** What it takes for one check to pass: every rule registered for its
    key passes and, for a whole-object check under strict mode, there is at
    least one. *)
Definition allowed (strict : bool) (r : registry) (h : heap) (o : rule_opts) : Prop :=
  let f := field_or_null (field o) in
  let rules := rules_for r (toLowerCase (type (context o))) (toLowerCase (action o)) f in
  (f = None → strict = true → rules ≠ []) ∧
  Forall (λ rule : rule, (rule h o).2 = None) rules.

(** The context of the call is the same. *)
Definition same_opts w w' : Prop := w_opts w' = w_opts w.

(** A pipeline that a closed check stops before anything is written. *)
Definition blocked {A} (action : string) (t : Task A) : Prop :=
  ∀ w, closed w action → read_only w (t w).1 ∧ ∀ a, (t w).2 ≠ Done a.

(** The three notifications of an update. *)
Definition updated_events (type : string) (id obj : value) : list event :=
  [Updated type obj; UpdatedType type obj; UpdatedTypeId type id obj].

End Trace.

(** Names joined by a separator, as a capability tag lists them. *)
Fixpoint joined (sep : string) (l : list string) : string :=
  match l with
  | [] => ""
  | [s] => s
  | s :: l' => s +:+ sep +:+ joined sep l'
  end.

Fixpoint has_comma (s : string) : bool :=
  match s with
  | EmptyString => false
  | String a s' => Ascii.eqb a DataStore.comma || has_comma s'
  end.

(** The value a scalar datum turns into. *)
Definition scalar (x : DataStore.lit) : option value :=
  match x with
  | DataStore.LNull => Some VNull
  | DataStore.LBool b => Some (VBool b)
  | DataStore.LNum n => Some (VNum n)
  | DataStore.LStr s => Some (VStr s)
  | _ => None
  end.

End Trace.

(** * Properties *)

(** ** Keeping a part of the heap as it is *)

Module SeparationProps.
Import JS DeepDiff Separation.

Lemma forEach_cons {A} (x : A) (l : list A) (body : A → JS unit) :
  forEach (x :: l) body = bind (body x) (fun _ => forEach l body).
Proof. reflexivity. Qed.

Section Safe.
Context (P : gset loc) (h0 : heap) (Hsep : separated P h0).

Local Abbreviation inv := (inv P h0).
Local Abbreviation safe := (safe P h0).
Local Abbreviation outside := (outside P).
Local Abbreviation object_outside := (object_outside P).

Lemma inv_init : inv h0.
Proof. destruct Hsep as [_ H2]. split; [lia|]. split; [done|exact H2]. Qed.

Lemma protected_bound l : l ∈ P → (l < length h0)%nat.
Proof.
  intros Hl. destruct Hsep as [H1 _]. destruct (H1 l Hl) as (o & Ho & _).
  by eapply lookup_lt_Some.
Qed.

Lemma fresh_outside h : inv h → outside (VObj (length h)).
Proof.
  intros (Hlen & _ & _) Hin. apply protected_bound in Hin. lia.
Qed.

Lemma safe_ret {A} (Q : A → Prop) (a : A) : Q a → safe Q (ret a).
Proof. intros Ha h Hinv. split; [done|]. by intros ? [= <-]. Qed.

Lemma safe_throw {A} (Q : A → Prop) e : safe Q (throw e).
Proof. intros h Hinv. split; [done|]. by intros ? [=]. Qed.

Lemma safe_bind {A B} (Q : A → Prop) (R : B → Prop) (m : JS A) (k : A → JS B) :
  safe Q m → (∀ a, Q a → safe R (k a)) → safe R (bind m k).
Proof.
  intros Hm Hk h Hinv. unfold bind.
  destruct (Hm h Hinv) as [Hinv' HQ].
  destruct (m h) as [h' [a|e]]; simpl in *.
  - apply Hk; [by apply HQ|done].
  - split; [done|]. by intros ? [=].
Qed.

Lemma safe_forEach {A} (l : list A) (body : A → JS unit) :
  (∀ x, x ∈ l → safe (λ _, True) (body x)) → safe (λ _, True) (forEach l body).
Proof.
  induction l as [|x l IH]; intros Hbody.
  - by apply safe_ret.
  - rewrite forEach_cons. eapply safe_bind.
    + apply Hbody. by left.
    + intros _ _. apply IH. intros y Hy. apply Hbody. by right.
Qed.

Lemma own_get_outside o k : object_outside o → outside (own_get o k).
Proof.
  intros Ho. unfold own_get.
  destruct (o_class o), (String.eqb k "length"); try done;
    destruct (o_props o !! k) eqn:E; simpl; try done; by eapply Ho.
Qed.

Lemma safe_get v k : outside v → safe outside (get v k).
Proof.
  intros Hv h Hinv. unfold get. destruct v; simpl; try (split; [done|]; by intros ? [= <-]).
  - repeat case_match; simpl; (split; [done|]; by intros ? [= <-]).
  - destruct (h !! l) as [o|] eqn:E; simpl; (split; [done|]; intros ? [= <-]); [|done].
    apply own_get_outside. destruct Hinv as (_ & _ & Hc). by eapply Hc.
Qed.

Lemma safe_get_any v k : safe (λ _, True) (get v k).
Proof.
  intros h Hinv. unfold get.
  repeat case_match; simpl; by split.
Qed.

Lemma inv_insert h l o :
  inv h → l ∉ P → object_outside o → inv (<[l := o]> h).
Proof.
  intros (Hlen & Hk & Hc) Hl Ho. split; [by rewrite length_insert|]. split.
  - intros l' Hl'. rewrite list_lookup_insert_ne; [by apply Hk|]. by intros ->.
  - intros l' o' Hlook Hl'.
    apply list_lookup_insert_Some in Hlook as [(-> & -> & _)|[_ Hlook]]; [done|].
    by eapply Hc.
Qed.

Lemma inv_alloc h o : inv h → object_outside o → inv (h ++ [o]).
Proof.
  intros (Hlen & Hk & Hc) Ho. split; [rewrite length_app; simpl; lia|]. split.
  - intros l Hl. rewrite lookup_app_l; [by apply Hk|].
    apply protected_bound in Hl. lia.
  - intros l o' Hlook Hl.
    apply lookup_app_Some in Hlook as [Hlook|[_ Hlook]]; [by eapply Hc|].
    apply list_lookup_singleton_Some in Hlook as [_ <-]. done.
Qed.

Lemma insert_outside (m : gmap string value) k x :
  map_Forall (λ _ v, outside v) m → outside x →
  map_Forall (λ _ v, outside v) (<[k := x]> m).
Proof. intros Hm Hx. by apply map_Forall_insert_2. Qed.

Lemma own_set_outside o k x o' :
  object_outside o → outside x → own_set o k x = Normal o' → object_outside o'.
Proof.
  unfold object_outside, own_set. intros Ho Hx.
  destruct (o_class o); repeat case_match; intros [= <-]; simpl;
    try (by apply insert_outside).
  unfold truncate. intros k' v' Hlook.
  apply map_lookup_filter_Some in Hlook as [Hlook _]. by eapply Ho.
Qed.

Lemma own_delete_outside o k o' :
  object_outside o → own_delete o k = Normal o' → object_outside o'.
Proof.
  unfold object_outside, own_delete. intros Ho.
  repeat case_match; intros [= <-]; simpl; by apply map_Forall_delete.
Qed.

Lemma safe_set v k x : outside v → outside x → safe (λ _, True) (set v k x).
Proof.
  intros Hv Hx h Hinv. unfold set.
  destruct v; simpl; try by split.
  destruct (h !! l) as [o|] eqn:E; [|by split].
  destruct (own_set o k x) as [o'|e] eqn:E'; [|by split].
  split; [|done]. simpl. apply inv_insert; [done|done|].
  eapply own_set_outside; [|done|done].
  destruct Hinv as (_ & _ & Hc). by eapply Hc.
Qed.

Lemma safe_del v k : outside v → safe (λ _, True) (del v k).
Proof.
  intros Hv h Hinv. unfold del.
  destruct v; simpl; try by split.
  - repeat case_match; by split.
  - destruct (h !! l) as [o|] eqn:E; [|by split].
    destruct (own_delete o k) as [o'|e] eqn:E'; [|by split].
    split; [|done]. simpl. apply inv_insert; [done|done|].
    eapply own_delete_outside; [|done].
    destruct Hinv as (_ & _ & Hc). by eapply Hc.
Qed.

Lemma safe_alloc o : object_outside o → safe outside (alloc o).
Proof.
  intros Ho h Hinv. unfold alloc. simpl. split; [by apply inv_alloc|].
  intros ? [= <-]. by apply fresh_outside.
Qed.

Lemma empty_outside c : object_outside (Object c ∅).
Proof. unfold object_outside. simpl. apply map_Forall_empty. Qed.

Lemma protected_clonable h l :
  inv h → l ∈ P → isPlainObject h (VObj l) || isArray h (VObj l) = true.
Proof.
  intros (_ & Hk & _) Hl. destruct Hsep as [H1 _].
  destruct (H1 l Hl) as (o & Ho & Hc).
  unfold isPlainObject, isArray, class_of. rewrite (Hk l Hl), Ho. simpl.
  unfold clonable in Hc. by destruct (o_class o).
Qed.

Lemma safe_extend stack : ∀ target options,
  outside target → safe outside (Extend.extend stack true target options).
Proof.
  induction stack as [|stack IH]; intros target options Ht.
  { apply safe_throw. }
  intros h Hinv. cbn [Extend.extend].
  refine (safe_bind (λ _, True) _ _ _ _ _ h Hinv); [|intros _ _; by apply safe_ret].
  apply safe_forEach. intros name _. unfold Extend.copy_property.
  eapply safe_bind; [by apply safe_get|]. intros src Hsrc.
  eapply safe_bind; [apply safe_get_any|]. intros copy _.
  destruct (decide (copy = target)); [by apply safe_ret|].
  intros h1 Hinv1.
  destruct (true && truthy copy && (isPlainObject h1 copy || isArray h1 copy)) eqn:Hcond.
  - refine (safe_bind outside _ _ _ _ _ h1 Hinv1).
    + repeat case_match; (by apply safe_ret) || (apply safe_alloc, empty_outside).
    + intros clone Hclone. eapply safe_bind; [by apply IH|].
      intros r Hr. by apply safe_set.
  - destruct (decide (copy = VUndefined)); [by apply safe_ret|].
    apply safe_set; [done| |done].
    destruct copy as [| | | | |l]; try done. simpl. intros Hl.
    rewrite (protected_clonable h1 l Hinv1 Hl) in Hcond. done.
Qed.

Lemma safe_clone stack source : safe outside (Extend.clone stack source).
Proof.
  unfold Extend.clone. eapply safe_bind.
  - apply safe_alloc, empty_outside.
  - intros target Ht. by apply safe_extend.
Qed.

Lemma safe_walk p : ∀ it,
  outside it → safe (λ r, outside r.1) (walk it p).
Proof.
  induction p as [|s p IH]; intros it Hit; [by apply safe_ret|].
  destruct p as [|s' p]; [by apply (safe_ret (λ r, outside r.1))|].
  change (walk it (s :: s' :: p)) with
    (let! cur := get it (key_of_seg s) in
     (if decide (cur = VUndefined) then
        let! c := (match s with SNum _ => new_array | SStr _ => new_object end) in
        set it (key_of_seg s) c
      else ret ()) ;;
     let! next := get it (key_of_seg s) in
     walk next (s' :: p)).
  eapply safe_bind; [apply safe_get_any|]. intros cur _.
  eapply (safe_bind (λ _, True)).
  - destruct (decide (cur = VUndefined)); [|by apply safe_ret].
    eapply safe_bind.
    + destruct s; apply safe_alloc, empty_outside.
    + intros c Hc. by apply safe_set.
  - intros _ _. eapply safe_bind; [by apply safe_get|].
    intros next Hnext. by apply IH.
Qed.

Lemma safe_descend p : ∀ it,
  outside it → safe (λ r, outside r.1) (descend it p).
Proof.
  induction p as [|s p IH]; intros it Hit; [by apply safe_ret|].
  destruct p as [|s' p]; [by apply (safe_ret (λ r, outside r.1))|].
  change (descend it (s :: s' :: p)) with
    (let! next := get it (key_of_seg s) in descend next (s' :: p)).
  eapply safe_bind; [by apply safe_get|].
  intros next Hnext. by apply IH.
Qed.

Lemma safe_push_all vs : ∀ arr at_,
  outside arr → Forall outside vs → safe (λ _, True) (push_all arr at_ vs).
Proof.
  induction vs as [|v vs IH]; intros arr at_ Harr Hvs; [by apply safe_ret|].
  inversion Hvs; subst. simpl.
  eapply safe_bind; [by apply safe_set|]. intros _ _. by apply IH.
Qed.

Lemma slice_outside o n : ∀ from,
  object_outside o → Forall outside (slice o from n).
Proof.
  induction n as [|n IH]; intros from Ho; simpl; constructor.
  - by apply own_get_outside.
  - by apply IH.
Qed.

Lemma safe_arrayRemove arr from :
  outside arr → safe outside (arrayRemove arr from).
Proof.
  intros Harr h Hinv. unfold arrayRemove.
  destruct arr as [| | | | |l]; try by split.
  destruct (h !! l) as [[c props]|] eqn:E; [|by split].
  destruct c; try by split.
  refine (safe_bind (λ _, True) _ _ _ _ _ h Hinv).
  - by apply safe_set.
  - intros _ _. eapply safe_bind.
    + apply safe_push_all; [done|]. apply slice_outside.
      destruct Hinv as (_ & _ & Hc). by eapply Hc.
    + intros _ _. by apply safe_ret.
Qed.

Lemma safe_applyArrayChange it : ∀ arr index,
  outside arr → item_foreign P it → safe outside (applyArrayChange arr index it).
Proof.
  induction it as [|kind path rhs idx inner IH]; intros arr index Harr Hit.
  { apply safe_throw. }
  destruct Hit as [Hrhs Hinner].
  destruct path as [|s path]; cbn [applyArrayChange].
  - repeat case_match.
    + eapply safe_bind; [by apply safe_get|]. intros sub Hsub.
      eapply safe_bind; [by apply IH|]. intros _ _. by apply safe_ret.
    + by apply safe_arrayRemove.
    + eapply safe_bind; [by apply safe_set|]. intros _ _. by apply safe_ret.
    + by apply safe_ret.
  - eapply safe_bind; [by apply safe_get|]. intros it0 Hit0.
    eapply safe_bind; [by apply safe_descend|]. intros [holder k] Hholder.
    simpl in Hholder. repeat case_match.
    + eapply safe_bind; [by apply safe_get|]. intros sub Hsub.
      eapply safe_bind; [by apply IH|]. intros _ _. by apply safe_ret.
    + eapply safe_bind; [by apply safe_del|]. intros _ _. by apply safe_ret.
    + eapply safe_bind; [by apply safe_set|]. intros _ _. by apply safe_ret.
    + by apply safe_ret.
Qed.

Lemma safe_applyChange target source c :
  outside target → foreign P c → safe (λ _, True) (applyChange target source c).
Proof.
  intros Ht [Hrhs Hitem]. unfold applyChange.
  destruct (truthy target && truthy source && negb (String.eqb (kind c) ""));
    [|by apply safe_ret].
  eapply safe_bind; [by apply safe_walk|]. intros [holder k] Hholder.
  simpl in Hholder. repeat case_match.
  - eapply safe_bind; [by apply safe_get|]. intros arr Harr.
    eapply safe_bind; [by apply safe_applyArrayChange|]. intros _ _. by apply safe_ret.
  - by apply safe_del.
  - by apply safe_set.
  - by apply safe_ret.
Qed.

Lemma outside_unreachable h v l :
  inv h → outside v → reach h v l → l ∉ P.
Proof.
  intros Hinv Hv Hreach. induction Hreach as [l|l o k v l' Ho Hk _ IH]; [done|].
  apply IH. destruct Hinv as (_ & _ & Hc). by eapply (Hc l o Ho Hv k v).
Qed.

End Safe.

Lemma extend_returns_target stack deep target options h a :
  (Extend.extend stack deep target options h).2 = Normal a → a = target.
Proof.
  destruct stack as [|stack]; [done|]. cbn [Extend.extend]. unfold bind.
  destruct (forEach _ _ h) as [h' [[]|e]]; simpl; [|done]. by intros [= <-].
Qed.

Lemma clone_returns_fresh stack source h a :
  (Extend.clone stack source h).2 = Normal a → a = VObj (length h).
Proof.
  unfold Extend.clone, bind, new_object, alloc. apply extend_returns_target.
Qed.

End SeparationProps.

(** ** Copying *)

Module CopyProps.
Import JS DeepDiff Separation DataStore SeparationProps.

(** The decimal spelling of a number is not the word [length]. *)
Lemma pretty_N_go_digit_headed (x : N) : ∀ s,
  digit_headed s → digit_headed (pretty_N_go x s).
Proof.
  induction (N.lt_wf_0 x) as [x _ IH]; intros s Hs.
  destruct (decide (x = 0)%N) as [->|Hx]; [by rewrite pretty_N_go_0|].
  rewrite pretty_N_go_step by lia. apply IH.
  - apply N.div_lt; lia.
  - simpl. unfold pretty_N_char. by repeat case_match.
Qed.

Lemma pretty_not_length (n : N) : String.eqb (pretty n) "length" = false.
Proof.
  apply String.eqb_neq. intros H.
  assert (digit_headed (pretty n)) as Hd.
  { unfold pretty, pretty_N. case_decide; [done|].
    rewrite pretty_N_go_step by lia. apply pretty_N_go_digit_headed.
    simpl. unfold pretty_N_char. by repeat case_match. }
  rewrite H in Hd. by apply Hd.
Qed.

Lemma well_agree lo hi h h' n v :
  well lo hi h n v →
  (∀ l, (lo ≤ l < hi)%nat → h' !! l = h !! l) →
  well lo hi h' n v.
Proof.
  intros Hw Hagree. induction Hw as [n v Hs|n l o Hl Ho Hc Hlen _ IH].
  - apply well_shared. destruct v; try done. destruct Hs as (Hl & o & Ho & Hc).
    split; [done|]. exists o. by rewrite Hagree.
  - eapply well_cloned; try done. by rewrite Hagree.
Qed.

Lemma well_bounds lo hi lo' hi' h n v :
  well lo hi h n v → (lo' ≤ lo)%nat → (hi ≤ hi')%nat → well lo' hi' h n v.
Proof.
  intros Hw Hlo Hhi. induction Hw as [n v Hs|n l o Hl Ho Hc Hlen _ IH].
  - apply well_shared. destruct v; try done. destruct Hs as (Hl & Ho).
    split; [lia|done].
  - eapply well_cloned; try done. lia.
Qed.

Lemma well_depth lo hi h n m v :
  well lo hi h n v → (n ≤ m)%nat → well lo hi h m v.
Proof.
  intros Hw. revert m. induction Hw as [n v Hs|n l o Hl Ho Hc Hlen _ IH]; intros m Hm.
  - by apply well_shared.
  - destruct m as [|m]; [lia|]. eapply well_cloned; try done.
    intros k v Hk. apply (IH k v Hk). lia.
Qed.

Lemma lit_induction (Q : lit → Prop) :
  Q LUndefined → Q LNull → (∀ b, Q (LBool b)) → (∀ n, Q (LNum n)) →
  (∀ s, Q (LStr s)) → (∀ t, Q (LDate t)) →
  (∀ props, Forall (λ p, Q p.2) props → Q (LObject props)) →
  (∀ elems, Forall Q elems → Q (LArray elems)) →
  ∀ x, Q x.
Proof.
  intros H1 H2 H3 H4 H5 H6 H7 H8. fix IH 1.
  intros [| | b | n | s | t | props | elems];
    [apply H1|apply H2|apply H3|apply H4|apply H5|apply H6| |].
  - apply H7. induction props as [|[k x] props IHp]; constructor; [apply IH|apply IHp].
  - apply H8. induction elems as [|x elems IHe]; constructor; [apply IH|apply IHe].
Qed.

Lemma prefix_insert (h H : heap) r o :
  h `prefix_of` H → (length h ≤ r)%nat → h `prefix_of` <[r := o]> H.
Proof.
  intros [k ->] Hr. rewrite insert_app_r_alt by done. by apply prefix_app_r.
Qed.

Lemma fill_loop {A} (h : heap) (R : object → Prop) (child : A → lit)
    (store : A → value → JS unit) (items : list A) :
  (∀ a v H o, H !! length h = Some o → R o →
     ∃ k o', store a v H = (<[length h := o']> H, Normal ()) ∧ R o' ∧
             o_props o' = <[k := v]> (o_props o)) →
  Forall (λ a, materialized (child a)) items →
  ∀ H o d,
    h `prefix_of` H → H !! length h = Some o → R o →
    (∀ k v, o_props o !! k = Some v → well (S (length h)) (length H) H d v) →
    ∃ H' o',
      forEach items (λ a, let! v := materialize (child a) in store a v) H
      = (H', Normal ()) ∧
      h `prefix_of` H' ∧ H' !! length h = Some o' ∧ R o' ∧
      (∀ k v, o_props o' !! k = Some v →
         well (S (length h)) (length H') H'
           (Nat.max d (foldr (λ a n, Nat.max (lit_depth (child a)) n) 0%nat items)) v).
Proof.
  intros Hstore. induction 1 as [|a items Ha _ IH]; intros H o d Hpre Hroot HR Hkids.
  { exists H, o. repeat split; try done. intros k v Hk.
    eapply well_depth; [by eapply Hkids|]. simpl. lia. }
  rewrite forEach_cons. unfold bind.
  destruct (Ha H) as (H1 & v & Hmat & Hpre1 & Hv). rewrite Hmat.
  assert (length h < length H)%nat as Hlt by (by eapply lookup_lt_Some).
  assert (H1 !! length h = Some o) as Hroot1.
  { by eapply prefix_lookup_Some. }
  destruct (Hstore a v H1 o Hroot1 HR) as (k & o' & Hst & HR' & Hprops). rewrite Hst.
  assert (length H ≤ length H1)%nat as Hlen by (by apply prefix_length).
  edestruct (IH (<[length h := o']> H1) o' (Nat.max d (lit_depth (child a))))
    as (H' & o'' & Hrun & Hpre' & Hroot' & HR'' & Hkids').
  - apply prefix_insert; [by etrans|done].
  - apply list_lookup_insert_eq. lia.
  - done.
  - intros k' v' Hk'. rewrite Hprops in Hk'. rewrite length_insert.
    apply lookup_insert_Some in Hk' as [[<- <-]|[_ Hk']].
    + eapply well_agree.
      * eapply well_depth; [eapply well_bounds; [exact Hv|lia|done]|lia].
      * intros l Hl. apply list_lookup_insert_ne. lia.
    + apply (well_depth _ _ _ d); [|lia].
      apply (well_bounds (S (length h)) (length H)); [|lia|exact Hlen].
      eapply well_agree; [by eapply Hkids|].
      intros l Hl. rewrite list_lookup_insert_ne by lia.
      destruct (lookup_lt_is_Some_2 H l) as [x Hx]; [lia|].
      rewrite Hx. by eapply prefix_lookup_Some.
  - exists H', o''. unfold bind in Hrun. rewrite Hrun. repeat split; try done.
    intros k' v' Hk'.
    eapply well_depth; [by eapply Hkids'|]. simpl. lia.
Qed.

Lemma well_plain lo hi (h : heap) n l m :
  (lo ≤ l < hi)%nat → h !! l = Some (Object CPlain m) →
  (∀ k v, m !! k = Some v → well (S l) hi h n v) →
  well lo hi h (S n) (VObj l).
Proof.
  intros Hl Ho Hkids. eapply well_cloned; [done|done|done|by left|].
  intros k v Hk. eapply well_bounds; [by eapply Hkids|lia|done].
Qed.

Lemma materialize_object props :
  Forall (λ p : string * lit, materialized p.2) props →
  ∀ h, ∃ h' m,
    materialize (LObject props) h = (h', Normal (VObj (length h))) ∧
    h `prefix_of` h' ∧
    h' !! length h = Some (Object CPlain m) ∧
    (∀ k v, m !! k = Some v →
       well (S (length h)) (length h') h' (pred (lit_depth (LObject props))) v).
Proof.
  intros Hkids h.
  destruct (fill_loop h (λ o, o_class o = CPlain) snd
              (λ p v, set (VObj (length h)) p.1 v) props) with
    (H := h ++ [Object CPlain ∅]) (o := Object CPlain ∅) (d := 0%nat)
    as (H' & [c m] & Hrun & Hpre & Hroot & Hc & Hwell); try done.
  - intros [k x] v H [c m] Hroot Hc. simpl in *. subst c.
    exists k, (Object CPlain (<[k := v]> m)). unfold set. by rewrite Hroot.
  - by apply prefix_app_r.
  - by apply list_lookup_middle.
  - simpl in *. subst c. exists H', m.
    split; [|split; [|split]].
    + cbn [materialize]. unfold bind, new_object, alloc.
      unfold bind in Hrun. by rewrite Hrun.
    + exact Hpre.
    + done.
    + exact Hwell.
Qed.

Lemma materialize_array elems :
  Forall materialized elems → materialized (LArray elems).
Proof.
  intros Hkids h.
  destruct (fill_loop h (λ o, (∃ len, o_class o = CArray len) ∧
                              o_props o !! "length" = None) id
              (λ _ v, push (VObj (length h)) v) elems) with
    (H := h ++ [Object (CArray 0) ∅]) (o := Object (CArray 0) ∅) (d := 0%nat)
    as (H' & [c m] & Hrun & Hpre & Hroot & [[len Hc] Hnl] & Hwell); try done.
  - intros _ v H [c m] Hroot [[len Hc] Hnl]. simpl in *. subst c.
    pose proof (pretty_not_length len) as Hne.
    unfold push, set. rewrite Hroot. unfold own_set. simpl. rewrite Hne.
    destruct (index_of_key (pretty len)); (eexists (pretty len), _; split; [done|]);
      (split; [split; [by eexists|]|done]); simpl;
      rewrite lookup_insert_ne; try done; apply String.eqb_neq in Hne; congruence.
  - by apply prefix_app_r.
  - by apply list_lookup_middle.
  - split; [by eexists|done].
  - simpl in *. subst c. exists H', (VObj (length h)).
    assert (length h < length H')%nat by (by eapply lookup_lt_Some).
    split; [|split].
    + cbn [materialize]. unfold bind, new_array, alloc.
      unfold bind in Hrun. by rewrite Hrun.
    + exact Hpre.
    + cbn [lit_depth]. eapply well_cloned; [lia|done|done|by right|].
      intros k v Hk. eapply well_bounds; [by eapply Hwell|lia|done].
Qed.

Lemma materialize_spec x : materialized x.
Proof.
  induction x as [| | b | n | s | t | props IH | elems IH] using lit_induction;
    try (intros h; exists h; eexists; split; [reflexivity|];
         split; [done|]; by apply well_shared).
  - intros h. exists (h ++ [Object (CDate t) ∅]), (VObj (length h)).
    split; [done|]. split; [by apply prefix_app_r|].
    apply well_shared. simpl. rewrite length_app. simpl. split; [lia|].
    exists (Object (CDate t) ∅). split; [by apply list_lookup_middle|].
    unfold clonable. simpl. tauto.
  - intros h. destruct (materialize_object props IH h) as (h' & m & ? & ? & Hroot & ?).
    exists h', (VObj (length h)). split; [done|]. split; [done|].
    apply (well_plain _ _ _ _ _ m); [|done|done].
    split; [lia|]. by eapply lookup_lt_Some.
  - by apply materialize_array.
Qed.

(** Materialising never throws. *)
Lemma materialize_total x h : ∃ h' v, materialize x h = (h', Normal v).
Proof. destruct (materialize_spec x h) as (h' & v & ? & _). eauto. Qed.

Lemma own_get_prop o k :
  o_class o = CPlain ∨ k ≠ "length" →
  own_get o k = default VUndefined (o_props o !! k).
Proof.
  intros H. unfold own_get. destruct (o_class o); try done.
  destruct (String.eqb_spec k "length"); [|done]. by destruct H.
Qed.

Lemma own_set_prop o k v :
  clonable o → o_class o = CPlain ∨ k ≠ "length" →
  ∃ c, own_set o k v = Normal (Object c (<[k := v]> (o_props o))) ∧
       same_kind (o_class o) c.
Proof.
  intros Hc H. unfold own_set, clonable in *. destruct (o_class o) eqn:E; try done.
  - by exists CPlain.
  - destruct (String.eqb_spec k "length") as [->|_]; [by destruct H|].
    destruct (index_of_key k); by eexists.
Qed.

Lemma same_kind_trans c1 c2 c3 : same_kind c1 c2 → same_kind c2 c3 → same_kind c1 c3.
Proof. by destruct c1, c2, c3. Qed.

Lemma same_kind_clonable c c' m m' :
  same_kind c c' → clonable (Object c m) → clonable (Object c' m').
Proof. by destruct c, c'. Qed.

Lemma get_ref l k h : JS.get (VObj l) k h = (h, Normal (prop h (VObj l) k)).
Proof. unfold JS.get, prop. by destruct (h !! l). Qed.

Lemma shared_not_cloned lo hi h v :
  shared lo hi h v → isPlainObject h v || isArray h v = false.
Proof.
  unfold shared, isPlainObject, isArray, class_of.
  destruct v as [| | | | |l]; try done.
  intros (_ & o & -> & Hc). simpl. unfold clonable in Hc. by destruct (o_class o).
Qed.

Lemma well_cases lo hi h n v :
  well lo hi h n v →
  shared lo hi h v ∨
  ∃ n' l o, n = S n' ∧ v = VObj l ∧ (lo ≤ l < hi)%nat ∧ h !! l = Some o ∧ clonable o ∧
            (o_class o = CPlain ∨ o_props o !! "length" = None) ∧
            (∀ k v', o_props o !! k = Some v' → well lo hi h n' v').
Proof.
  intros [? ? Hs|n' l o ? ? ? ? ?]; [by left|]. right. by exists n', l, o.
Qed.

Lemma bind_get {A} l k (f : value → JS A) h :
  bind (JS.get (VObj l) k) f h = f (prop h (VObj l) k) h.
Proof. unfold bind. by rewrite get_ref. Qed.

Lemma extend_copies stack : ∀ n lo hi h t c ls os,
  (n ≤ stack)%nat →
  well lo hi h n (VObj ls) → h !! ls = Some os → clonable os →
  (hi ≤ t)%nat → h !! t = Some (Object c ∅) → same_kind (o_class os) c →
  ∃ h' c' m',
    Extend.extend stack true (VObj t) (VObj ls) h = (h', Normal (VObj t)) ∧
    (length h ≤ length h')%nat ∧
    (∀ l, (l < length h)%nat → l ≠ t → h' !! l = h !! l) ∧
    h' !! t = Some (Object c' m') ∧ same_kind c c' ∧
    (∀ k v, o_props os !! k = Some v → (∀ l, v ≠ VObj l) → v ≠ VUndefined →
            m' !! k = Some v).
Proof.
  induction stack as [|stack IH]; intros n lo hi h t c ls os Hn Hw Hos Hcl Hhi Ht Hk.
  { inversion Hw as [? ? Hs|? ? ? ? ? ? ? ?]; subst; [|lia].
    destruct Hs as (_ & o & Ho & Hnc). by simplify_eq. }
  inversion Hw as [? ? Hs|n' ? o Hls Ho _ Hlen Hkids]; subst.
  { destruct Hs as (_ & o & Ho & Hnc). by simplify_eq. }
  simplify_eq.
  assert (n' ≤ stack)%nat as Hn' by lia.
  assert (t < length h)%nat as Htlt by (by eapply lookup_lt_Some).
  assert (∀ name copy H ct mt,
            o_props os !! name = Some copy →
            (∀ l, (lo ≤ l < hi)%nat → H !! l = h !! l) →
            H !! t = Some (Object ct mt) → same_kind c ct →
            mt !! name = None →
            ∃ H2 c2 m2,
              Extend.copy_property (Extend.extend stack true) true (VObj t) (VObj ls)
                name H = (H2, Normal ()) ∧
              (length H ≤ length H2)%nat ∧
              (∀ l, (l < length H)%nat → l ≠ t → H2 !! l = H !! l) ∧
              H2 !! t = Some (Object c2 m2) ∧ same_kind c c2 ∧
              (∀ k, k ≠ name → m2 !! k = mt !! k) ∧
              ((∀ l, copy ≠ VObj l) → copy ≠ VUndefined → m2 !! name = Some copy))
    as Hstep.
  { intros name copy H ct mt Hcopy Hsrc Htgt Hkt Hfree.
    assert (name ≠ "length" ∨ o_class os = CPlain) as Hname.
    { destruct Hlen as [?|Hnl]; [by right|]. left. intros ->. congruence. }
    assert (ct = CPlain ∨ name ≠ "length") as Hname'.
    { destruct Hname as [?|Hp]; [by right|]. left.
      rewrite Hp in Hk. destruct c; try done. by destruct ct. }
    assert (t < length H)%nat as HtH by (by eapply lookup_lt_Some).
    assert (H !! ls = Some os) as HosH by (by rewrite Hsrc).
    assert (well lo hi H n' copy) as Hwc.
    { eapply well_agree; [by eapply Hkids|done]. }
    assert (prop H (VObj t) name = VUndefined) as Hsrcv.
    { unfold prop. rewrite Htgt, own_get_prop by (simpl; tauto). simpl. by rewrite Hfree. }
    assert (prop H (VObj ls) name = copy) as Hcopyv.
    { unfold prop. rewrite HosH, own_get_prop by tauto. by rewrite Hcopy. }
    assert (copy ≠ VObj t) as Hne.
    { intros ->. inversion Hwc as [? ? Hs|]; subst; [destruct Hs; lia|lia]. }
    assert (clonable (Object ct mt)) as Hclt.
    { apply (same_kind_clonable c ct ∅ mt Hkt).
      apply (same_kind_clonable (o_class os) c (o_props os) ∅ Hk). by destruct os. }
    unfold Extend.copy_property. rewrite bind_get, Hsrcv, bind_get, Hcopyv.
    destruct (decide (copy = VObj t)) as [|_]; [done|].
    destruct (well_cases _ _ _ _ _ Hwc)
      as [Hs|(n'' & lc & oc & -> & -> & Hlc & Hoc & Hcc & Hlenc & Hkidsc)].
    - (* a shared value is assigned as it is *)
      rewrite (shared_not_cloned _ _ _ _ Hs), andb_false_r.
      destruct (decide (copy = VUndefined)).
      { exists H, ct, mt. by repeat split. }
      destruct (own_set_prop (Object ct mt) name copy Hclt Hname') as (cy & Hcy & Hky).
      exists (<[t := Object cy (<[name := copy]> mt)]> H), cy, (<[name := copy]> mt).
      unfold set. rewrite Htgt, Hcy. split; [done|].
      split; [by rewrite length_insert|].
      split; [intros l _ Hl; by apply list_lookup_insert_ne|].
      split; [by apply list_lookup_insert_eq|].
      split; [by eapply same_kind_trans|].
      split; [intros k Hkn; by apply lookup_insert_ne|].
      intros _ _. by apply lookup_insert_eq.
    - (* a plain object or an array is cloned into a new one *)
      assert (isPlainObject H (VObj lc) || isArray H (VObj lc) = true) as ->.
      { unfold isPlainObject, isArray, class_of. rewrite Hoc. simpl.
        unfold clonable in Hcc. by destruct (o_class oc). }
      simpl andb. cbv iota.
      set (c0 := match o_class oc with CArray _ => CArray 0 | _ => CPlain end).
      assert (same_kind (o_class oc) c0) as Hk0.
      { unfold c0, clonable in *. by destruct (o_class oc). }
      assert ((if isArray H (VObj lc) then new_array else new_object)
              = alloc (Object c0 ∅)) as Hnew.
      { unfold isArray, class_of, c0. rewrite Hoc. simpl. by destruct (o_class oc). }
      rewrite Hnew. unfold bind at 1. unfold alloc at 1.
      assert (well lo hi (H ++ [Object c0 ∅]) (S n'') (VObj lc)) as Hw0.
      { eapply well_agree; [exact Hwc|]. intros l Hl. apply lookup_app_l. lia. }
      assert ((H ++ [Object c0 ∅]) !! lc = Some oc) as Hoc0.
      { rewrite lookup_app_l by lia. done. }
      assert ((H ++ [Object c0 ∅]) !! length H = Some (Object c0 ∅)) as Ht0.
      { by apply list_lookup_middle. }
      assert (hi ≤ length H)%nat as Hhi0 by lia.
      destruct (IH (S n'') lo hi (H ++ [Object c0 ∅]) (length H) c0 lc oc
                  Hn' Hw0 Hoc0 Hcc Hhi0 Ht0 Hk0)
        as (H1 & c1 & m1 & Hrun & Hlen1 & Hsame1 & _ & _ & _).
      unfold bind at 1. rewrite Hrun.
      { rewrite length_app in Hlen1, Hsame1. simpl in Hlen1, Hsame1.
        destruct (own_set_prop (Object ct mt) name (VObj (length H)) Hclt Hname')
          as (cy & Hcy & Hky).
        assert (H1 !! t = Some (Object ct mt)) as Htgt1.
        { rewrite Hsame1 by lia. by rewrite lookup_app_l by lia. }
        exists (<[t := Object cy (<[name := VObj (length H)]> mt)]> H1), cy,
               (<[name := VObj (length H)]> mt).
        unfold set. rewrite Htgt1, Hcy. split; [done|].
        split; [rewrite length_insert; lia|].
        split.
        { intros l Hl Hlt. rewrite list_lookup_insert_ne by done.
          rewrite Hsame1 by lia. by apply lookup_app_l. }
        split; [apply list_lookup_insert_eq; lia|].
        split; [by eapply same_kind_trans|].
        split; [intros k Hkn; by apply lookup_insert_ne|].
        intros Hno. by destruct (Hno lc). } }
  assert (∀ names, NoDup names →
            (∀ name, name ∈ names → is_Some (o_props os !! name)) →
            ∀ H ct mt,
              (∀ l, (lo ≤ l < hi)%nat → H !! l = h !! l) →
              H !! t = Some (Object ct mt) → same_kind c ct →
              (∀ name, name ∈ names → mt !! name = None) →
              ∃ H' c' m',
                forEach names
                  (Extend.copy_property (Extend.extend stack true) true (VObj t) (VObj ls))
                  H = (H', Normal ()) ∧
                (length H ≤ length H')%nat ∧
                (∀ l, (l < length H)%nat → l ≠ t → H' !! l = H !! l) ∧
                H' !! t = Some (Object c' m') ∧ same_kind c c' ∧
                (∀ k, k ∉ names → m' !! k = mt !! k) ∧
                (∀ k v, k ∈ names → o_props os !! k = Some v →
                        (∀ l, v ≠ VObj l) → v ≠ VUndefined → m' !! k = Some v))
    as Hloop.
  { induction names as [|name names IHn]; intros Hnd Hin H ct mt Hsrc Htgt Hkt Hfree.
    { exists H, ct, mt. repeat split; try done. intros k v Hin'. by inversion Hin'. }
    apply NoDup_cons in Hnd as [Hnotin Hnd].
    destruct (Hin name) as [copy Hcopy]; [by left|].
    destruct (Hstep name copy H ct mt)
      as (H2 & c2 & m2 & Hrun & Hlen2 & Hsame2 & Ht2 & Hk2 & Hm2 & Hcopied); try done.
    { apply Hfree. by left. }
    assert (t < length H)%nat as HtH by (by eapply lookup_lt_Some).
    destruct (IHn Hnd) with (H := H2) (ct := c2) (mt := m2)
      as (H' & c' & m' & Hrun' & Hlen' & Hsame' & Ht' & Hk' & Hrest & Hnew); try done.
    - intros name' Hin'. apply Hin. by right.
    - intros l Hl. rewrite Hsame2 by lia. by apply Hsrc.
    - intros name' Hin'. rewrite Hm2; [apply Hfree; by right|].
      intros ->. done.
    - exists H', c', m'. rewrite forEach_cons. unfold bind. rewrite Hrun, Hrun'.
      split; [done|]. split; [lia|].
      split; [intros l Hl Hlt; rewrite Hsame' by lia; by apply Hsame2|].
      split; [done|]. split; [done|]. split.
      + intros k Hk0. apply not_elem_of_cons in Hk0 as [Hkn Hkr].
        rewrite (Hrest k Hkr). by apply Hm2.
      + intros k v Hin' Hkv Hno Hu.
        destruct (decide (k = name)) as [->|Hkn].
        * rewrite (Hrest name Hnotin). simplify_eq. by apply Hcopied.
        * apply elem_of_cons in Hin' as [?|Hin']; [done|]. by eapply Hnew. }
  cbn [Extend.extend]. unfold keys. rewrite Hos.
  destruct (Hloop (map_to_list (o_props os)).*1) with (H := h) (ct := c)
    (mt := (∅ : gmap string value))
    as (H' & c' & m' & Hrun & Hlen' & Hsame' & Ht' & Hk' & _ & Hnew); try done.
  - apply NoDup_fst_map_to_list.
  - intros name Hin. apply list_elem_of_fmap in Hin as [[k v] [-> Hin]].
    apply elem_of_map_to_list in Hin. by eexists.
  - clear -Hk. by destruct (o_class os), c.
  - exists H', c', m'. unfold bind. rewrite Hrun. repeat split; try done.
    intros k v Hkv. apply Hnew; [|done].
    apply list_elem_of_fmap. exists (k, v). split; [done|].
    by apply elem_of_map_to_list.
Qed.

(** Copying a plain object that nests no deeper than the stack allows
    completes: the copy is a new plain object, and nothing that was there
    before is written to. *)
Lemma clone_well stack n lo (h : heap) l m :
  (n ≤ stack)%nat →
  well lo (length h) h n (VObj l) → h !! l = Some (Object CPlain m) →
  ∃ h' m',
    Extend.clone stack (VObj l) h = (h', Normal (VObj (length h))) ∧
    h' !! length h = Some (Object CPlain m') ∧
    (∀ l', (l' < length h)%nat → h' !! l' = h !! l') ∧
    (∀ k v, m !! k = Some v → (∀ l', v ≠ VObj l') → v ≠ VUndefined → m' !! k = Some v).
Proof.
  intros Hn Hw Hl.
  assert (l < length h)%nat as Hlt by (by eapply lookup_lt_Some).
  destruct (extend_copies stack n lo (length h) (h ++ [Object CPlain ∅]) (length h)
              CPlain l (Object CPlain m) Hn)
    as (h' & c' & m' & Hrun & Hlen & Hsame & Ht & Hk & Hcopied); try done.
  - eapply well_agree; [exact Hw|]. intros l' Hl'. apply lookup_app_l. lia.
  - by rewrite lookup_app_l.
  - by apply list_lookup_middle.
  - destruct c'; try done. exists h', m'.
    split; [|split; [done|split; [|exact Hcopied]]].
    + unfold Extend.clone, bind, new_object, alloc. by rewrite Hrun.
    + intros l' Hl'. rewrite Hsame; [by apply lookup_app_l| |lia].
      rewrite length_app. simpl. lia.
Qed.

End CopyProps.

(** ** The multi-driver store *)

Module StoreProps.
Import JS Async DataStore SeparationProps CopyProps.

(** *** What [async.each] reports *)

Lemma first_error_None (outs : list outcome) :
  first_error outs = None ↔ Forall (λ out, out.2 = None) outs.
Proof.
  induction outs as [|[t [e|]] outs IH]; simpl.
  - split; [constructor|done].
  - split.
    + destruct (first_error outs) as [[t' e']|]; [by case_match|done].
    + inversion 1; simplify_eq/=.
  - rewrite IH. split; [by constructor|by inversion 1].
Qed.

Lemma first_error_Some (outs : list outcome) t e :
  first_error outs = Some (t, e) →
  ∃ i, outs !! i = Some (t, Some e) ∧
       ∀ j t' e', outs !! j = Some (t', Some e') → (t ≤ t')%nat.
Proof.
  revert t e. induction outs as [|[t0 [e0|]] outs IH]; intros t e; simpl; [done|..].
  - destruct (first_error outs) as [[t1 e1]|] eqn:E.
    + destruct (IH t1 e1 eq_refl) as (i & Hi & Hmin).
      destruct (t1 <? t0)%nat eqn:Hlt; intros [= <- <-].
      * apply Nat.ltb_lt in Hlt. exists (S i). split; [done|].
        intros [|j] t' e' Hj; simpl in Hj; [simplify_eq; lia|by eapply Hmin].
      * apply Nat.ltb_ge in Hlt. exists 0%nat. split; [done|].
        intros [|j] t' e' Hj; simpl in Hj; [by simplify_eq|].
        specialize (Hmin j t' e' Hj). lia.
    + intros [= <- <-]. exists 0%nat. split; [done|].
      intros [|j] t' e' Hj; simpl in Hj; [by simplify_eq|].
      apply first_error_None in E.
      eapply Forall_lookup_1 in E; [|done]. done.
  - intros H. destruct (IH t e H) as (i & Hi & Hmin).
    exists (S i). split; [done|].
    intros [|j] t' e' Hj; simpl in Hj; [done|by eapply Hmin].
Qed.

Lemma each_succeeds (outs : list outcome) :
  (each outs).2 = None ↔ Forall (λ out, out.2 = None) outs.
Proof.
  unfold each. rewrite <- first_error_None.
  destruct (first_error outs) as [[t e]|]; simpl; split; done.
Qed.

Lemma each_fails (outs : list outcome) e :
  (each outs).2 = Some e →
  ∃ i t, outs !! i = Some (t, Some e) ∧
         ∀ j t' e', outs !! j = Some (t', Some e') → (t ≤ t')%nat.
Proof.
  unfold each. destruct (first_error outs) as [[t e']|] eqn:E; simpl; [|done].
  intros [= <-]. destruct (first_error_Some _ _ _ E) as (i & ? & ?). eauto.
Qed.

Section Store.
Context {State : Type}.
Implicit Types (d : driver State) (self : DataStore State).

(** Fanning out starts the call on each driver once, and answers as
    [async.each] does. *)
Lemma fan_out_drivers (f : driver State → driver State * outcome) ds :
  (fan_out f ds).1 = (λ d, (f d).1) <$> ds.
Proof. unfold fan_out. simpl. by rewrite <- list_fmap_compose. Qed.

Lemma fan_out_answer (f : driver State → driver State * outcome) ds :
  (fan_out f ds).2 = each ((λ d, (f d).2) <$> ds).
Proof. unfold fan_out. simpl. by rewrite <- list_fmap_compose. Qed.

Lemma log_unfold self now action type objectId meta h :
  log self now action type objectId meta h
  = let h1 := h ++ [Object (CDate now) ∅] in
    let h2 := h1 ++ [auditLogEntry (VObj (length h)) action type objectId meta] in
    let r := fan_out (invoke_put h2 "auditlogentry" (VObj (S (length h)))) (loggers self) in
    (h2, Normal (with_loggers self r.1, r.2)).
Proof.
  unfold log, bind, new_Date, alloc. cbv zeta.
  rewrite length_app, Nat.add_1_r.
  match goal with |- context [fan_out ?f ?l] => destruct (fan_out f l) as [ls r] end.
  reflexivity.
Qed.

Lemma put_unfold self now type l meta h :
  put self now type (VObj l) meta h
  = let w := fan_out (invoke_put h type (VObj l)) (drivers self) in
    let h1 := h ++ [Object (CDate now) ∅] in
    let h2 := h1 ++ [auditLogEntry (VObj (length h)) "put" type
                       (prop h (VObj l) (idField self)) meta] in
    let r := fan_out (invoke_put h2 "auditlogentry" (VObj (S (length h)))) (loggers self) in
    (h2, (with_loggers (with_drivers self w.1) r.1, Written w.2.2 (Normal ()))).
Proof.
  unfold put. destruct (fan_out _ (drivers self)) as [ds [t error]]. simpl.
  unfold bind at 1. rewrite get_ref, log_unfold. reflexivity.
Qed.

Lemma delete_unfold self now type id meta h :
  delete self now type id meta h
  = let w := fan_out (invoke_delete h type id) (drivers self) in
    let h1 := h ++ [Object (CDate now) ∅] in
    let h2 := h1 ++ [auditLogEntry (VObj (length h)) "delete" type id meta] in
    let r := fan_out (invoke_put h2 "auditlogentry" (VObj (S (length h)))) (loggers self) in
    (h2, (with_loggers (with_drivers self w.1) r.1, Written w.2.2 (Normal ()))).
Proof.
  unfold delete. destruct (fan_out _ (drivers self)) as [ds [t error]].
  rewrite log_unfold. reflexivity.
Qed.


Lemma put_primary self now type object meta h :
  drivers (put self now type object meta h).2.1
  = (fan_out (invoke_put h type object) (drivers self)).1 ∧
  answer (put self now type object meta h).2.2
  = (fan_out (invoke_put h type object) (drivers self)).2.2.
Proof.
  unfold put. destruct (fan_out _ (drivers self)) as [ds [t error]].
  destruct (bind _ _ h) as [h' [[self2 r]|e]] eqn:E; simpl; [|done].
  split; [|done]. unfold bind in E.
  destruct (JS.get object _ h) as [h1 [v|e]]; [|done].
  rewrite log_unfold in E. by simplify_eq/=.
Qed.

Lemma delete_primary self now type id meta h :
  drivers (delete self now type id meta h).2.1
  = (fan_out (invoke_delete h type id) (drivers self)).1 ∧
  answer (delete self now type id meta h).2.2
  = (fan_out (invoke_delete h type id) (drivers self)).2.2.
Proof. by rewrite delete_unfold. Qed.

Lemma fan_out_once (c : call) (run : driver State → State * outcome) ds :
  once c run ds
    (fan_out (λ d, let '(s, r) := run d in (called d c s, r)) ds).1.
Proof.
  rewrite fan_out_drivers. unfold once.
  induction ds as [|d ds IH]; simpl; constructor; [|done].
  by destruct (run d).
Qed.

Lemma fan_out_result (c : call) (run : driver State → State * outcome) ds :
  (fan_out (λ d, let '(s, r) := run d in (called d c s, r)) ds).2
  = each ((λ d, (run d).2) <$> ds).
Proof.
  rewrite fan_out_answer. f_equal. apply list_fmap_ext. intros _ d _.
  by destruct (run d).
Qed.

Lemma each_told (run : driver State → State * outcome) ds :
  told run ds (each ((λ d, (run d).2) <$> ds)).2.
Proof.
  split.
  - rewrite each_succeeds, Forall_fmap. done.
  - intros e He. apply each_fails in He as (i & t & Hi & Hmin).
    apply list_lookup_fmap_Some in Hi as (d & Hd & Hr).
    exists i, d, t. split; [done|]. split; [done|].
    intros j d' t' e' Hj Hr'. apply (Hmin j t' e').
    rewrite list_lookup_fmap, Hj. simpl. by rewrite Hr'.
Qed.

(** C4. A put or a delete calls every data driver exactly once; it
    succeeds exactly when all of them do, and otherwise reports the error
    that arrived first; what a driver wrote stays written whatever the
    others answer. *)
Theorem write_fan_out self now type object id meta h :
  (once (CallPut type object) (λ d, d_put d h type object (d_state d))
     (drivers self) (drivers (put self now type object meta h).2.1) ∧
   told (λ d, d_put d h type object (d_state d)) (drivers self)
     (answer (put self now type object meta h).2.2)) ∧
  (once (CallDelete type id) (λ d, d_delete d h type id (d_state d))
     (drivers self) (drivers (delete self now type id meta h).2.1) ∧
   told (λ d, d_delete d h type id (d_state d)) (drivers self)
     (answer (delete self now type id meta h).2.2)).
Proof.
  destruct (put_primary self now type object meta h) as [-> ->].
  destruct (delete_primary self now type id meta h) as [-> ->].
  unfold invoke_put, invoke_delete.
  rewrite !fan_out_result.
  repeat split; try apply fan_out_once; apply each_told.
Qed.

Lemma entry_audited self now action type objectId meta h ds :
  let h' := (h ++ [Object (CDate now) ∅]) ++
            [auditLogEntry (VObj (length h)) action type objectId meta] in
  audited self now action type objectId meta h h'
    (with_loggers (with_drivers self ds)
       (fan_out (invoke_put h' "auditlogentry" (VObj (S (length h)))) (loggers self)).1).
Proof.
  intros h'. unfold audited.
  assert (h' !! S (length h)
          = Some (auditLogEntry (VObj (length h)) action type objectId meta)) as Hentry.
  { unfold h'. rewrite lookup_app_r; rewrite length_app; simpl; [|lia].
    by replace (S (length h) - (length h + 1))%nat with 0%nat by lia. }
  assert (h' !! length h = Some (Object (CDate now) ∅)) as Hdate.
  { unfold h'. rewrite lookup_app_l by (rewrite length_app; simpl; lia).
    by apply list_lookup_middle. }
  split; [unfold h'; by rewrite <- app_assoc|].
  unfold prop, time_of, class_of. rewrite Hentry.
  repeat split; try done.
  - unfold auditLogEntry, own_get. simpl.
    rewrite !lookup_insert_ne by done. rewrite lookup_insert_eq. simpl.
    by rewrite Hdate.
  - simpl. apply (fan_out_once (CallPut "auditlogentry" (VObj (S (length h))))
                    (λ g, d_put g h' "auditlogentry" (VObj (S (length h))) (d_state g))).
Qed.

(** C6. Every put and every delete is followed by an audit log entry
    with the action, the type, the object id, the metadata and the time,
    put to every logger, whether the write itself succeeded or failed; and
    what the caller is told does not depend on the loggers or on what they
    answer. *)
Theorem audit_log self now type l id meta h :
  (audited self now "put" type (prop h (VObj l) (idField self)) meta h
     (put self now type (VObj l) meta h).1 (put self now type (VObj l) meta h).2.1 ∧
   ∀ ls, answer (put (with_loggers self ls) now type (VObj l) meta h).2.2
         = answer (put self now type (VObj l) meta h).2.2) ∧
  (audited self now "delete" type id meta h
     (delete self now type id meta h).1 (delete self now type id meta h).2.1 ∧
   ∀ ls, answer (delete (with_loggers self ls) now type id meta h).2.2
         = answer (delete self now type id meta h).2.2).
Proof.
  split; split.
  - rewrite put_unfold. apply entry_audited.
  - intros ls. by rewrite !put_unfold.
  - rewrite delete_unfold. apply entry_audited.
  - intros ls. by rewrite !delete_unfold.
Qed.

(** *** Read routing *)

Lemma getAuthoritative_None (array : list (driver State)) operation :
  _getAuthoritative array operation = None ↔
  Forall (λ d, is_authoritative operation d = false) array.
Proof.
  induction array as [|d array IH]; simpl; [by split|].
  destruct (is_authoritative operation d) eqn:E.
  - split; [done|]. inversion 1; congruence.
  - rewrite fmap_None, IH. split; [by constructor|by inversion 1].
Qed.

Lemma getAuthoritative_first (array : list (driver State)) operation i d :
  array !! i = Some d → is_authoritative operation d = true →
  (∀ j d', (j < i)%nat → array !! j = Some d' → is_authoritative operation d' = false) →
  _getAuthoritative array operation = Some i.
Proof.
  revert i. induction array as [|d0 array IH]; intros i Hi Hd Hfirst; [done|].
  destruct i as [|i]; simpl in *.
  - simplify_eq. by rewrite Hd.
  - rewrite (Hfirst 0%nat d0) by (done || lia).
    rewrite (IH i Hi Hd); [done|].
    intros j d' Hj Hd'. apply (Hfirst (S j) d'); [lia|done].
Qed.

Lemma handleRead_routed op (handlers : list (driver State)) type c o h i d s t err x :
  _getAuthoritative handlers (op_name op) = Some i →
  handlers !! i = Some d →
  d_read d op h type c o (d_state d) = (s, ((t, err), x)) →
  ∃ h' v,
    materialize x h = (h', Normal v) ∧
    _handleReadOperation op handlers type c o h
    = (h', Normal (<[i := called d (CallRead op type c o) s]> handlers, (err, v))).
Proof.
  intros Hi Hd Hread. destruct (materialize_total x h) as (h' & v & Hm).
  exists h', v. split; [done|].
  unfold _handleReadOperation. rewrite Hi, Hd.
  unfold invoke_read. rewrite Hread. unfold bind. by rewrite Hm.
Qed.


End Store.
End StoreProps.

(** ** The rule engine *)

Module RuleProps.
Import JS Async DeepDiff Objecticon.

Section Rules.
Context {State : Type}.
Implicit Types (w : @world State) (r : registry) (o : opts).

(** Looking a key up creates the empty containers on the way; no lookup
    sees a difference. *)
Lemma rules_for_touch r t a t' a' f :
  rules_for (touch r t a) t' a' f = rules_for r t' a' f.
Proof.
  unfold rules_for, touch.
  destruct (decide (t = t')) as [<-|Ht].
  - rewrite lookup_insert_eq. simpl.
    destruct (decide (a = a')) as [<-|Ha].
    + by rewrite lookup_insert_eq.
    + by rewrite lookup_insert_ne.
  - by rewrite lookup_insert_ne.
Qed.

Lemma rules_for_addRule r t a f rule :
  rules_for (addRule r t a f rule) (toLowerCase t) (toLowerCase a) f
  = rules_for r (toLowerCase t) (toLowerCase a) f ++ [rule].
Proof.
  unfold rules_for, addRule.
  rewrite lookup_insert_eq. simpl.
  rewrite lookup_insert_eq. simpl.
  by rewrite lookup_insert_eq.
Qed.

Lemma each_all_pass (outs : list outcome) :
  Forall (λ out, out.2 = None) outs → (each outs).2 = None.
Proof. apply StoreProps.each_succeeds. Qed.

(** A check for a named field is never the strict denial: with no rule
    for the field it passes. *)
Lemma checkRules_field_without_rules strict r h o a f c :
  f ≠ "" →
  rules_for r (toLowerCase (type o)) (toLowerCase a) (Some f) = [] →
  _checkRules strict r h (with_change o a f c)
  = (touch r (toLowerCase (type o)) (toLowerCase a), (0%nat, None)).
Proof.
  intros Hf Hr. unfold _checkRules, with_change. cbn [field context action].
  assert (field_or_null (Some f) = Some f) as ->.
  { unfold field_or_null. destruct (String.eqb_spec f ""); congruence. }
  rewrite rules_for_touch, Hr. reflexivity.
Qed.

Lemma check_each_without_rules strict h o a cs : ∀ r,
  Forall (λ c, join "." (path c) ≠ "" ∧
               rules_for r (toLowerCase (type o)) (toLowerCase a)
                 (Some (join "." (path c))) = []) cs →
  Forall (λ out : outcome, out.2 = None) (check_each strict r h o a cs).2.
Proof.
  induction cs as [|c cs IH]; intros r Hcs; simpl; [constructor|].
  inversion Hcs as [|? ? [Hf Hr] Hcs']; subst.
  rewrite checkRules_field_without_rules by done.
  specialize (IH (touch r (toLowerCase (type o)) (toLowerCase a))).
  destruct (check_each strict _ h o a cs) as [r2 outs] eqn:E. simpl in *.
  constructor; [done|].
  apply IH. eapply Forall_impl; [exact Hcs'|].
  intros c' [? ?]. split; [done|]. by rewrite rules_for_touch.
Qed.



End Rules.




End RuleProps.

(** ** The engine *)

Module EngineProps.
Import JS Async DeepDiff Separation Objecticon SeparationProps CopyProps StoreProps RuleProps.

Section Engine.
Context {State : Type}.
Implicit Types (w : @world State).

Lemma log_limit_spec (limit : option Z) :
  log_limit limit ≤ 100 ∧
  (limit = None ∨ limit = Some 0 → log_limit limit = 10) ∧
  (∀ n, limit = Some n → n ≠ 0 → log_limit limit = Z.min n 100).
Proof.
  unfold log_limit. repeat split.
  - lia.
  - intros [->| ->]; reflexivity.
  - intros n -> Hn. destruct (Z.eqb_spec n 0); [done|reflexivity].
Qed.

(** C7, as amended. The limit handed to the log read is the requested
    limit capped at 100, with 10 standing in for a limit of 0 or none. There
    is no lower bound: a negative limit is handed on as it is. The read goes
    to the logger that is authoritative for queries, newest entries first. *)
Theorem getLog_limit w i d :
  DataStore._getAuthoritative (DataStore.loggers (w_ds w)) "query" = Some i →
  DataStore.loggers (w_ds w) !! i = Some d →
  (∃ d', DataStore.loggers (w_ds (_getLog w).1) !! i = Some d' ∧
         DataStore.d_calls d'
         = DataStore.d_calls d ++
           [DataStore.CallRead DataStore.Query "auditlogentry"
              (DataStore.ByObject (type (w_opts w)) (id (w_opts w)))
              (DataStore.ReadOptions VUndefined (Some (-1))
                 (Some (log_limit (limit (w_opts w)))))]) ∧
  log_limit (limit (w_opts w)) ≤ 100 ∧
  (limit (w_opts w) = None ∨ limit (w_opts w) = Some 0 →
   log_limit (limit (w_opts w)) = 10) ∧
  (∀ n, limit (w_opts w) = Some n → n ≠ 0 →
        log_limit (limit (w_opts w)) = Z.min n 100).
Proof.
  intros Hi Hd. split; [|apply log_limit_spec].
  unfold _getLog, andThen, the_opts, DataStore.getLog.
  set (o := DataStore.ReadOptions _ _ _).
  destruct (DataStore.d_read d DataStore.Query (w_heap w) "auditlogentry"
              (DataStore.ByObject (type (w_opts w)) (id (w_opts w))) o
              (DataStore.d_state d)) as [s [[t err] x]] eqn:Hread.
  destruct (handleRead_routed DataStore.Query _ _ _ _ _ _ _ _ _ _ _ Hi Hd Hread)
    as (h' & v & _ & Hrun).
  unfold bind. rewrite Hrun. simpl.
  assert (i < length (DataStore.loggers (w_ds w)))%nat by (by eapply lookup_lt_Some).
  eexists. split.
  - destruct err; simpl; by apply list_lookup_insert_eq.
  - done.
Qed.

(** C10. When the fetch by id succeeds and the read check then fails,
    [get] calls back with the error of the check and, as the result, with
    the object that was fetched. *)
Theorem get_denied_keeps_result w w1 w2 (v : value) (e : error) :
  ds_get (type (w_opts w)) (id (w_opts w)) (put_opts w (set_results (w_opts w) VNull))
  = (w1, Done v) →
  truthy v = true →
  _checkTypeRules "read" (put_opts w1 (set_results (w_opts w1) v)) = (w2, Failed e) →
  get w = (w2, Callback (Some e) v).
Proof.
  intros Hget Hv Hcheck.
  assert (w_opts w1 = set_results (w_opts w) VNull) as Hopts.
  { unfold ds_get in Hget.
    destruct (DataStore.get _ _ _ _ _) as [h [[ds [[err|] x]]|ex]]; simplify_eq; reflexivity. }
  assert (results (w_opts w2) = v) as Hres.
  { unfold _checkTypeRules, andThen, the_opts in Hcheck. simpl in Hcheck.
    destruct (_checkRules _ _ _ _) as [r out]. unfold finish, fail, Objecticon.done in Hcheck.
    destruct out.2; simplify_eq. reflexivity. }
  unfold get, _getObject, andThen, the_opts, modify_opts. simpl.
  rewrite Hget, Hv. simpl. rewrite Hopts. simpl.
  rewrite Hopts in Hcheck. simpl in Hcheck. rewrite Hcheck. by rewrite Hres.
Qed.

(** C9, as amended. Applying a changeset writes to no plain object and
    to no array of the input: whatever set [P] of plain objects and arrays
    is referred to from nowhere outside itself, by no other object and by no
    [rhs] of the changeset, is the same after as before. The result is a new
    object from which nothing in [P] can be reached. Values of other kinds,
    dates among them, are outside [P]: the result shares them with the
    input. *)
Theorem applyChanges_frame (stack : nat) w (P : gset loc) :
  separated P (w_heap w) →
  (∀ cs, changes (w_opts w) = Some cs → Forall (foreign P) cs) →
  (∀ l, l ∈ P → w_heap (_applyChanges stack w).1 !! l = w_heap w !! l) ∧
  ((_applyChanges stack w).2 = Done () →
     updated (w_opts (_applyChanges stack w).1) = VObj (length (w_heap w)) ∧
     ∀ l, reach (w_heap (_applyChanges stack w).1)
            (updated (w_opts (_applyChanges stack w).1)) l → l ∉ P).
Proof.
  intros Hsep Hcs.
  pose proof (inv_init P (w_heap w) Hsep) as Hinv.
  unfold _applyChanges, andThen, the_opts, js, modify_opts.
  pose proof (safe_clone P (w_heap w) Hsep stack (results (w_opts w)) _ Hinv) as [Hinv1 Hu].
  pose proof (clone_returns_fresh stack (results (w_opts w)) (w_heap w)) as Hfresh.
  destruct (Extend.clone stack (results (w_opts w)) (w_heap w)) as [h1 [u|e]];
    simpl in *; [|split; [apply Hinv1|done]].
  specialize (Hu u eq_refl). specialize (Hfresh u eq_refl).
  destruct (changes (w_opts w)) as [cs|]; simpl; [|split; [apply Hinv1|done]].
  specialize (Hcs cs eq_refl).
  assert (safe P (w_heap w) (λ _, True)
            (forEach cs (λ c, applyChange u (VBool true) c))) as Hloop.
  { apply safe_forEach. intros c Hc. apply safe_applyChange; [done..|].
    by eapply Forall_forall in Hcs. }
  destruct (Hloop h1 Hinv1) as [Hinv2 _].
  destruct (forEach cs _ h1) as [h2 [[]|e]]; simpl in *; [|split; [apply Hinv2|done]].
  pose proof (safe_get_any P (w_heap w) u "updateAt" h2 Hinv2) as [Hinv3 _].
  destruct (JS.get u "updateAt" h2) as [h3 [stamp|e]]; simpl in *;
    [|split; [apply Hinv3|done]].
  destruct (decide (stamp = VUndefined)); simpl.
  { split; [apply Hinv3|]. intros _. split; [done|].
    intros l. by apply (outside_unreachable P (w_heap w)). }
  pose proof (safe_alloc P (w_heap w) Hsep (Object (CDate (w_now w)) ∅)
                (empty_outside P _) h3 Hinv3) as [Hinv4 Hd].
  unfold new_Date, alloc in *. simpl in *. specialize (Hd _ eq_refl).
  pose proof (safe_set P (w_heap w) u "updatedAt" _ Hu Hd _ Hinv4) as [Hinv5 _].
  destruct (JS.set u "updatedAt" _ _) as [h5 [[]|e]]; simpl in *;
    [|split; [apply Hinv5|done]].
  split; [apply Hinv5|]. intros _. split; [done|].
  intros l. by apply (outside_unreachable P (w_heap w)).
Qed.

(** *** The stages of an update *)

Lemma extend_S stack deep target options h :
  Extend.extend (S stack) deep target options h
  = (forEach (keys h options)
       (Extend.copy_property (Extend.extend stack deep) deep target options) ;;
     ret target) h.
Proof. reflexivity. Qed.

Lemma shallow_extend t meta : ∀ (h : heap) m,
  h !! t = Some (Object CPlain m) →
  ∃ m', Extend.extend 1 false (VObj t) meta h
        = (<[t := Object CPlain m']> h, Normal (VObj t)).
Proof.
  intros h m Ht. rewrite extend_S.
  assert ((∃ lm, meta = VObj lm) ∨ keys h meta = []) as [[lm ->]|Hno].
  { destruct meta; eauto. }
  2:{ exists m. rewrite Hno. simpl. unfold bind, ret. by rewrite list_insert_id. }
  assert (∀ names (H : heap) m0,
            H !! t = Some (Object CPlain m0) →
            ∃ m', forEach names
                    (Extend.copy_property (Extend.extend 0 false) false (VObj t) (VObj lm)) H
                  = (<[t := Object CPlain m']> H, Normal ())) as Hloop.
  { induction names as [|name names IH]; intros H m0 HH.
    { exists m0. simpl. by rewrite list_insert_id. }
    assert (t < length H)%nat as Hlt by (by eapply lookup_lt_Some).
    assert (∃ m1, Extend.copy_property (Extend.extend 0 false) false (VObj t) (VObj lm) name H
                  = (<[t := Object CPlain m1]> H, Normal ())) as [m1 Hstep].
    { unfold Extend.copy_property. rewrite !bind_get.
      destruct (decide (_ = VObj t)); [exists m0; simpl; by rewrite list_insert_id|].
      simpl andb. cbv iota.
      destruct (decide (_ = VUndefined)); [exists m0; simpl; by rewrite list_insert_id|].
      eexists. unfold set. rewrite HH. simpl. reflexivity. }
    destruct (IH (<[t := Object CPlain m1]> H) m1) as [m2 Hrest].
    { by apply list_lookup_insert_eq. }
    exists m2. rewrite forEach_cons. unfold bind. rewrite Hstep, Hrest.
    by rewrite list_insert_insert_eq. }
  destruct (Hloop (keys h (VObj lm)) h m Ht) as [m' Hrun].
  exists m'. unfold bind. by rewrite Hrun.
Qed.

Lemma meta_with_diff_spec stringify meta cs (h : heap) :
  ∃ m, meta_with_diff stringify meta cs h
       = (h ++ [Object CPlain m], Normal (VObj (length h))).
Proof.
  unfold meta_with_diff, bind at 1, new_object, alloc.
  destruct (shallow_extend (length h) meta (h ++ [Object CPlain ∅]) ∅) as [m1 Hext].
  { by apply list_lookup_middle. }
  unfold bind at 1. rewrite Hext.
  rewrite insert_app_r_alt, Nat.sub_diag by done. simpl.
  eexists. unfold bind, set. rewrite list_lookup_middle by done. simpl.
  rewrite insert_app_r_alt, Nat.sub_diag by done. reflexivity.
Qed.

Lemma ds_get_missing w i d s t :
  DataStore._getAuthoritative (DataStore.drivers (w_ds w)) "get" = Some i →
  DataStore.drivers (w_ds w) !! i = Some d →
  DataStore.d_read d DataStore.Get (w_heap w) (type (w_opts w))
    (DataStore.ById (id (w_opts w))) DataStore.no_options (DataStore.d_state d)
  = (s, ((t, None), DataStore.LNull)) →
  ds_get (type (w_opts w)) (id (w_opts w)) w
  = (put_ds (put_heap w (w_heap w))
       (DataStore.with_drivers (w_ds w)
          (<[i := DataStore.called d
                    (DataStore.CallRead DataStore.Get (type (w_opts w))
                       (DataStore.ById (id (w_opts w))) DataStore.no_options) s]>
             (DataStore.drivers (w_ds w)))),
     Done VNull).
Proof.
  intros Hi Hd Hread.
  destruct (handleRead_routed DataStore.Get _ _ _ _ _ _ _ _ _ _ _ Hi Hd Hread)
    as (h' & v & Hm & Hrun).
  simpl in Hm. unfold ret in Hm. simplify_eq.
  unfold ds_get, DataStore.get, DataStore.read, bind. by rewrite Hrun.
Qed.

Lemma getObject_creates w i d s t props :
  allowMissing (w_opts w) = true →
  DataStore._getAuthoritative (DataStore.drivers (w_ds w)) "get" = Some i →
  DataStore.drivers (w_ds w) !! i = Some d →
  DataStore.d_read d DataStore.Get (w_heap w) (type (w_opts w))
    (DataStore.ById (id (w_opts w))) DataStore.no_options (DataStore.d_state d)
  = (s, ((t, None), DataStore.LNull)) →
  DataStore.create (w_ds w) (type (w_opts w)) = DataStore.LObject props →
  ∃ w1 h1 m,
    _getObject w = (w1, Done ()) ∧
    w_heap w `prefix_of` h1 ∧
    h1 !! length (w_heap w) = Some (Object CPlain m) ∧
    (∀ k v, m !! k = Some v →
       well (S (length (w_heap w))) (length h1) h1
         (pred (DataStore.lit_depth (DataStore.LObject props))) v) ∧
    w_heap w1 = <[length (w_heap w) :=
                   Object CPlain (<["id" := VStr (w_uuid w)]> m)]> h1 ∧
    w_opts w1 = set_creating (set_results (w_opts w) (VObj (length (w_heap w)))) true ∧
    w_rules w1 = w_rules w ∧ w_options w1 = w_options w ∧ w_now w1 = w_now w ∧
    DataStore.drivers (w_ds w1)
    = <[i := DataStore.called d
               (DataStore.CallRead DataStore.Get (type (w_opts w))
                  (DataStore.ById (id (w_opts w))) DataStore.no_options) s]>
        (DataStore.drivers (w_ds w)).
Proof.
  intros Hallow Hi Hd Hread Hcreate.
  destruct (materialize_object props) with (h := w_heap w)
    as (h1 & m & Hmat & Hpre & Hroot & Hkids).
  { apply Forall_forall. intros ? _. apply materialize_spec. }
  unfold _getObject, andThen, the_opts.
  rewrite (ds_get_missing w i d s t Hi Hd Hread), Hallow. simpl.
  unfold _createObject, andThen, the_opts, js, modify_opts. simpl.
  rewrite Hcreate, Hmat. simpl.
  unfold JS.set. rewrite Hroot. simpl.
  eexists _, h1, m. split; [reflexivity|]. simpl. by repeat split.
Qed.

Lemma applyChange_new_field (h : heap) u m k lhs rhs idx itm :
  h !! u = Some (Object CPlain m) →
  applyChange (VObj u) (VBool true) (Change "N" [SStr k] lhs rhs idx itm) h
  = (<[u := Object CPlain (<[k := rhs]> m)]> h, Normal ()).
Proof.
  intros Hu. unfold applyChange. simpl. unfold bind, ret, set. by rewrite Hu.
Qed.

Lemma applyChanges_sets_name stack w n lo l m lhs idx itm :
  results (w_opts w) = VObj l →
  w_heap w !! l = Some (Object CPlain m) →
  well lo (length (w_heap w)) (w_heap w) n (VObj l) →
  (n ≤ stack)%nat →
  changes (w_opts w) = Some [Change "N" [SStr "name"] lhs (VStr "bar") idx itm] →
  ∃ w2 mu,
    _applyChanges stack w = (w2, Done ()) ∧
    w_heap w2 !! length (w_heap w) = Some (Object CPlain mu) ∧
    mu !! "name" = Some (VStr "bar") ∧
    (∀ s, m !! "id" = Some (VStr s) → mu !! "id" = Some (VStr s)) ∧
    w_opts w2 = set_updated (w_opts w) (VObj (length (w_heap w))) ∧
    w_rules w2 = w_rules w ∧ w_options w2 = w_options w ∧ w_now w2 = w_now w ∧
    w_ds w2 = w_ds w.
Proof.
  intros Hres Hl Hw Hn Hcs.
  destruct (clone_well stack n lo (w_heap w) l m Hn Hw Hl)
    as (h2 & m' & Hclone & Hu & _ & Hcopied).
  assert (∀ s, m !! "id" = Some (VStr s) → m' !! "id" = Some (VStr s)) as Hid.
  { intros s Hs. by apply Hcopied. }
  assert (length (w_heap w) < length h2)%nat as Hlt by (by eapply lookup_lt_Some).
  unfold _applyChanges, andThen, the_opts, js, modify_opts.
  rewrite Hres, Hclone, Hcs. cbn [w_heap put_heap put_opts w_opts].
  rewrite forEach_cons. unfold bind at 1.
  rewrite (applyChange_new_field h2 _ m' "name" _ _ _ _ Hu).
  set (h3 := <[length (w_heap w) := Object CPlain (<["name" := VStr "bar"]> m')]> h2).
  assert (h3 !! length (w_heap w) = Some (Object CPlain (<["name" := VStr "bar"]> m')))
    as Hu3 by (by apply list_lookup_insert_eq).
  change (forEach [] _ h3) with (h3, Normal ()).
  cbn [w_heap put_heap put_opts w_opts w_now].
  rewrite get_ref.
  destruct (decide (prop h3 (VObj (length (w_heap w))) "updateAt" = VUndefined)).
  - eexists _, _. split; [reflexivity|]. cbn. split; [exact Hu3|].
    split; [by rewrite lookup_insert_eq|].
    split; [intros s Hs; rewrite lookup_insert_ne by done; by apply Hid|]. done.
  - unfold new_Date, alloc. cbn [w_heap put_heap put_opts w_opts w_now].
    unfold JS.set. rewrite lookup_app_l by (unfold h3; rewrite length_insert; lia).
    rewrite Hu3. cbn [own_set o_class o_props].
    eexists _, _. split; [reflexivity|]. cbn [w_heap put_heap].
    split; [apply list_lookup_insert_eq; rewrite length_app; unfold h3;
            rewrite length_insert; lia|].
    split; [by rewrite lookup_insert_ne, lookup_insert_eq|].
    split; [intros s Hs; rewrite !lookup_insert_ne by done; by apply Hid|]. done.
Qed.

Lemma checkRules_passes strict r h (o : rule_opts) :
  Forall (λ rule : rule, ∀ h o, (rule h o).2 = None)
    (rules_for r (toLowerCase (type (context o))) (toLowerCase (action o))
       (field_or_null (field o))) →
  (field_or_null (field o) = None → strict = true →
   rules_for r (toLowerCase (type (context o))) (toLowerCase (action o)) None ≠ []) →
  (_checkRules strict r h o).1
  = touch r (toLowerCase (type (context o))) (toLowerCase (action o)) ∧
  (_checkRules strict r h o).2.2 = None.
Proof.
  intros Hpass Hsome. unfold _checkRules. rewrite rules_for_touch.
  destruct (negb (bool_decide (is_Some (field_or_null (field o)))) && strict
            && bool_decide (_ = [])) eqn:E.
  - apply andb_prop in E as [E Hnil]. apply andb_prop in E as [Hf Hs].
    apply bool_decide_eq_true in Hnil. apply negb_true_iff, bool_decide_eq_false in Hf.
    destruct (field_or_null (field o)) eqn:Ef; [by destruct Hf|].
    by destruct (Hsome eq_refl Hs).
  - split; [done|]. apply each_all_pass. apply Forall_fmap.
    eapply Forall_impl; [exact Hpass|]. intros rule Hr. apply Hr.
Qed.

Lemma checkTypeRules_passes w a :
  Forall (λ rule : rule, ∀ h o, (rule h o).2 = None)
    (rules_for (w_rules w) (toLowerCase (type (w_opts w))) (toLowerCase a) None) →
  (strict (w_options w) = true →
   rules_for (w_rules w) (toLowerCase (type (w_opts w))) (toLowerCase a) None ≠ []) →
  _checkTypeRules a w
  = (put_rules w (touch (w_rules w) (toLowerCase (type (w_opts w))) (toLowerCase a)),
     Done ()).
Proof.
  intros Hpass Hsome.
  destruct (checkRules_passes (strict (w_options w)) (w_rules w) (w_heap w)
              (with_action (w_opts w) a)) as [Hr Hout]; [done|by intros _|].
  unfold _checkTypeRules, andThen, the_opts.
  destruct (_checkRules _ _ _ _) as [r out]. simpl in *. subst r.
  unfold finish. by rewrite Hout.
Qed.

Lemma checkDiffRules_passes w a c :
  changes (w_opts w) = Some [c] →
  join "." (path c) ≠ "" →
  Forall (λ rule : rule, ∀ h o, (rule h o).2 = None)
    (rules_for (w_rules w) (toLowerCase (type (w_opts w))) (toLowerCase a)
       (Some (join "." (path c)))) →
  _checkDiffRules a w
  = (put_rules w (touch (w_rules w) (toLowerCase (type (w_opts w))) (toLowerCase a)),
     Done ()).
Proof.
  intros Hcs Hne Hpass.
  assert (field_or_null (Some (join "." (path c))) = Some (join "." (path c))) as Hf.
  { unfold field_or_null. by destruct (String.eqb_spec (join "." (path c)) ""). }
  destruct (checkRules_passes (strict (w_options w)) (w_rules w) (w_heap w)
              (with_change (w_opts w) a (join "." (path c)) c)) as [Hr Hout].
  { unfold with_change. cbn [field context action]. by rewrite Hf. }
  { unfold with_change. cbn [field context action]. by rewrite Hf. }
  unfold _checkDiffRules, andThen, the_opts. rewrite Hcs. cbn [check_each].
  destruct (_checkRules _ _ _ _) as [r [t out]]. simpl in *. subst r out.
  reflexivity.
Qed.

Lemma write_succeeds stringify w u :
  updated (w_opts w) = VObj u →
  (u < length (w_heap w))%nat →
  Forall (λ d, ∀ h ty obj st, (DataStore.d_put d h ty obj st).2.2 = None)
    (DataStore.drivers (w_ds w)) →
  ∃ w3,
    _write stringify w = (w3, Done ()) ∧
    results (w_opts w3) = VObj u ∧
    w_heap w3 !! u = w_heap w !! u.
Proof.
  intros Hu Hlt Hput.
  destruct (meta_with_diff_spec stringify (meta (w_opts w))
              (default [] (changes (w_opts w))) (w_heap w)) as [mm Hmeta].
  unfold _write, andThen, the_opts, js.
  rewrite Hmeta. cbn [w_heap put_heap w_ds w_now].
  rewrite Hu, put_unfold. cbv zeta.
  assert ((DataStore.fan_out
             (DataStore.invoke_put (w_heap w ++ [Object CPlain mm]) (type (w_opts w))
                (VObj u)) (DataStore.drivers (w_ds w))).2.2 = None) as Hok.
  { unfold DataStore.invoke_put. rewrite fan_out_result. apply each_succeeds.
    apply Forall_fmap. eapply Forall_impl; [exact Hput|]. intros d Hd. apply Hd. }
  cbn [DataStore.answer]. rewrite Hok.
  eexists. split; [reflexivity|]. cbn. split; [done|].
  rewrite <- !app_assoc. by rewrite lookup_app_l.
Qed.

(** C2, as amended. An update takes its changeset from the explicit diff
    in [changes]; an overlay is not looked at. Updating an id the store does
    not have, with a diff that sets [name] to bar, makes a new object (the
    factory's default, under a newly generated id), patches a copy of it and
    returns that copy, whose [name] is bar and whose [id] is the generated
    one. This is so when the write rules pass, every driver accepts the put,
    and the stack is deep enough for the copy. *)
Theorem update_applies_explicit_diff stringify stack w i d s t props lhs idx itm :
  changes (w_opts w) = Some [Change "N" [SStr "name"] lhs (VStr "bar") idx itm] →
  DataStore._getAuthoritative (DataStore.drivers (w_ds w)) "get" = Some i →
  DataStore.drivers (w_ds w) !! i = Some d →
  DataStore.d_read d DataStore.Get (w_heap w) (type (w_opts w))
    (DataStore.ById (id (w_opts w))) DataStore.no_options (DataStore.d_state d)
  = (s, ((t, None), DataStore.LNull)) →
  DataStore.create (w_ds w) (type (w_opts w)) = DataStore.LObject props →
  (DataStore.lit_depth (DataStore.LObject props) ≤ stack)%nat →
  Forall (λ rule : rule, ∀ h o, (rule h o).2 = None)
    (rules_for (w_rules w) (toLowerCase (type (w_opts w))) "write" None) →
  (strict (w_options w) = true →
   rules_for (w_rules w) (toLowerCase (type (w_opts w))) "write" None ≠ []) →
  Forall (λ rule : rule, ∀ h o, (rule h o).2 = None)
    (rules_for (w_rules w) (toLowerCase (type (w_opts w))) "write" (Some "name")) →
  Forall (λ d, ∀ h ty obj st, (DataStore.d_put d h ty obj st).2.2 = None)
    (DataStore.drivers (w_ds w)) →
  ∃ w' u,
    update stringify stack w = (w', Callback None (VObj u)) ∧
    (length (w_heap w) < u)%nat ∧
    prop (w_heap w') (VObj u) "name" = VStr "bar" ∧
    prop (w_heap w') (VObj u) "id" = VStr (w_uuid w).
Proof.
  intros Hcs Hi Hd Hread Hcreate Hdepth Htype Hstrict Hfield Hput.
  set (wa := put_opts w (set_allowMissing (w_opts w) true)).
  destruct (getObject_creates wa i d s t props)
    as (w1 & h1 & m & Hget & Hpre & Hroot & Hkids & Hheap1 & Hopts1 & Hrules1 & Hoptions1
        & Hnow1 & Hds1); try done.
  cbn [wa w_heap put_opts w_opts set_allowMissing type id w_uuid] in *.
  set (r := length (w_heap w)) in *.
  assert (r < length h1)%nat as Hr by (by eapply lookup_lt_Some).
  assert (length (w_heap w1) = length h1) as Hlen1.
  { by rewrite Hheap1, length_insert. }
  (* the created object can be copied *)
  assert (well r (length (w_heap w1)) (w_heap w1)
            (DataStore.lit_depth (DataStore.LObject props)) (VObj r)) as Hwell.
  { rewrite Hlen1.
    change (DataStore.lit_depth (DataStore.LObject props))
      with (S (pred (DataStore.lit_depth (DataStore.LObject props)))).
    apply well_plain with (m := <["id" := VStr (w_uuid w)]> m); [lia| |].
    - rewrite Hheap1. by apply list_lookup_insert_eq.
    - intros k v Hk. apply lookup_insert_Some in Hk as [[_ <-]|[_ Hk]].
      + by apply well_shared.
      + eapply well_agree; [by eapply Hkids|].
        intros l Hl. rewrite Hheap1. apply list_lookup_insert_ne. lia. }
  destruct (applyChanges_sets_name stack w1
              (DataStore.lit_depth (DataStore.LObject props)) r r
              (<["id" := VStr (w_uuid w)]> m) lhs idx itm)
    as (w2 & mu & Happly & Hu & Hname & Hid & Hopts2 & Hrules2 & Hoptions2 & Hnow2 & Hds2);
    try done.
  { by rewrite Hopts1. }
  { rewrite Hheap1. by apply list_lookup_insert_eq. }
  { by rewrite Hopts1. }
  assert (type (w_opts w2) = type (w_opts w)) as Hty2 by (by rewrite Hopts2, Hopts1).
  pose proof (checkTypeRules_passes w2 "write") as Hcheck1.
  rewrite Hty2, Hrules2, Hrules1, Hoptions2, Hoptions1 in Hcheck1.
  specialize (Hcheck1 Htype Hstrict).
  set (w3 := put_rules w2 _) in Hcheck1.
  pose proof (checkDiffRules_passes w3 "write"
                (Change "N" [SStr "name"] lhs (VStr "bar") idx itm)) as Hcheck2.
  cbn [w3 w_opts put_rules w_rules path join key_of_seg] in Hcheck2.
  rewrite Hty2, rules_for_touch in Hcheck2.
  specialize (Hcheck2 ltac:(by rewrite Hopts2, Hopts1) ltac:(done) Hfield).
  set (w4 := put_rules w3 _) in Hcheck2.
  destruct (write_succeeds stringify w4 (length (w_heap w1)))
    as (w5 & Hwrite & Hres5 & Hheap5).
  { cbn [w4 w3 w_opts put_rules]. by rewrite Hopts2. }
  { cbn [w4 w3 w_heap put_rules]. by eapply lookup_lt_Some. }
  { cbn [w4 w3 w_ds put_rules]. rewrite Hds2, Hds1.
    apply Forall_insert; [done|].
    eapply Forall_lookup_1 in Hput; [|exact Hd]. exact Hput. }
  cbn [w4 w3 w_heap put_rules] in Hheap5.
  exists (emit (emit (emit w5 (Updated (type (w_opts w5)) (VObj (length (w_heap w1)))))
                  (UpdatedType (type (w_opts w5)) (VObj (length (w_heap w1)))))
            (UpdatedTypeId (type (w_opts w5))
               (prop (w_heap w5) (VObj (length (w_heap w1))) "id")
               (VObj (length (w_heap w1))))),
         (length (w_heap w1)).
  split; [|split; [|split]].
  - unfold update, _update, andThen, modify_opts. fold wa.
    rewrite Hget, Happly, Hcheck1, Hcheck2, Hwrite, Hres5, get_ref. reflexivity.
  - rewrite Hlen1. unfold r in Hr. exact Hr.
  - cbn [emit w_heap]. unfold prop. rewrite Hheap5, Hu. unfold own_get. simpl.
    by rewrite Hname.
  - cbn [emit w_heap]. unfold prop. rewrite Hheap5, Hu. unfold own_get. simpl.
    by rewrite (Hid (w_uuid w)) by (by rewrite lookup_insert_eq).
Qed.

End Engine.

Import Fixture.

(** C2, counterexample. An update that brings the overlay with [name]
    bar and no diff does not return a result: the changeset is missing, and
    applying it throws a TypeError. *)
Lemma update_ignores_overlay :
  prop (w_heap with_overlay) (overlay (w_opts with_overlay)) "name" = VStr "bar" ∧
  (update stringify 8 with_overlay).2 = Uncaught TypeError ∧
  ¬ (∃ w' u, update stringify 8 with_overlay = (w', Callback None u) ∧
             prop (w_heap w') u "name" = VStr "bar").
Proof.
  split; [reflexivity|]. split; [by vm_compute|].
  intros (w' & u & Hrun & _).
  apply (f_equal snd) in Hrun. vm_compute in Hrun. discriminate Hrun.
Qed.

Lemma update_applies_explicit_diff_witness :
  ∃ w' u,
    update stringify 8 with_diff = (w', Callback None (VObj u)) ∧
    (length (w_heap with_diff) < u)%nat ∧
    prop (w_heap w') (VObj u) "name" = VStr "bar" ∧
    prop (w_heap w') (VObj u) "id" = VStr (w_uuid with_diff).
Proof.
  apply (update_applies_explicit_diff stringify 8 with_diff 0
           (stub (Some "get,query,search") DataStore.LNull ok) () 0
           [("createdAt", DataStore.LDate 7); ("updatedAt", DataStore.LDate 7)]
           VUndefined 0 NoItem).
  - reflexivity.
  - reflexivity.
  - reflexivity.
  - reflexivity.
  - reflexivity.
  - vm_compute. lia.
  - vm_compute. constructor.
  - intros H. vm_compute in H. discriminate H.
  - vm_compute. constructor.
  - repeat constructor.
Defined.

Lemma get_denied_keeps_result_witness :
  get guarded
  = ((_checkTypeRules "read"
        (put_opts (ds_get "widget" (VStr "w1")
                     (put_opts guarded (set_results (w_opts guarded) VNull))).1
           (set_results (w_opts guarded) (VObj 0%nat)))).1,
     Callback (Some PermissionDenied) (VObj 0%nat)).
Proof.
  apply (get_denied_keeps_result guarded
           (ds_get "widget" (VStr "w1")
              (put_opts guarded (set_results (w_opts guarded) VNull))).1).
  - by vm_compute.
  - reflexivity.
  - by vm_compute.
Defined.

(** C7, counterexample. A negative limit stays below the claimed
    range. *)
Lemma getLog_limit_not_clamped_below :
  ¬ (∀ limit : option Z, 0 ≤ log_limit limit ≤ 100).
Proof. intros H. specialize (H (Some (-5))). vm_compute in H. by destruct H as [H _]. Qed.

Lemma getLog_limit_witness :
  (∃ d', DataStore.loggers (w_ds (_getLog logging).1) !! 0%nat = Some d' ∧
         DataStore.d_calls d'
         = [DataStore.CallRead DataStore.Query "auditlogentry"
              (DataStore.ByObject "widget" (VStr "w1"))
              (DataStore.ReadOptions VUndefined (Some (-1)) (Some 100))]) ∧
  log_limit (Some 1000) ≤ 100 ∧
  (Some 1000 = None ∨ Some 1000 = Some 0 → log_limit (Some 1000) = 10) ∧
  (∀ n, Some 1000 = Some n → n ≠ 0 → log_limit (Some 1000) = Z.min n 100).
Proof.
  apply (getLog_limit logging 0
           (stub (Some "query") (DataStore.LArray []) ok));
    reflexivity.
Defined.

(** C8. The stamp is decided by a field [updateAt]. An object that
    has [updatedAt] keeps its old date, here 7 at time 1000; an object with
    a field [updateAt] and no [updatedAt] is given the stamp. *)
Lemma stamp_looks_for_updateAt :
  (let r := _applyChanges 8 (idle dated []) in
   r.2 = Done () ∧
   time_of (w_heap r.1) (prop (w_heap r.1) (updated (w_opts r.1)) "updatedAt") = Some 7) ∧
  (let r := _applyChanges 8 (idle misnamed []) in
   r.2 = Done () ∧
   prop misnamed (VObj 0%nat) "updatedAt" = VUndefined ∧
   time_of (w_heap r.1) (prop (w_heap r.1) (updated (w_opts r.1)) "updatedAt")
   = Some 1000).
Proof. vm_compute. repeat split. Qed.

(** C9, counterexample. The input holds a date. The copy shares it, and
    a change whose path runs through the date writes to it: a location
    reachable from the input is not the same afterwards. *)
Lemma applyChanges_shares_dates :
  ¬ (∀ (w : @Objecticon.world unit) (stack : nat) (l : loc),
       reach (w_heap w) (results (w_opts w)) l →
       w_heap (_applyChanges stack w).1 !! l = w_heap w !! l).
Proof.
  intros H.
  specialize (H (idle dated [into_date]) 8%nat 1%nat).
  assert (reach dated (VObj 0%nat) 1%nat) as Hreach.
  { eapply (reach_step _ 0%nat _ "updatedAt" (VObj 1%nat)); [reflexivity|reflexivity|].
    apply reach_here. }
  specialize (H Hreach). vm_compute in H. discriminate H.
Qed.

Lemma separated_nested : separated {[0%nat; 1%nat]} nested.
Proof.
  split.
  - intros l Hl. apply elem_of_union in Hl as [Hl|Hl]; apply elem_of_singleton in Hl;
      subst; eexists; (split; [reflexivity|exact I]).
  - intros l o Hl Hout.
    destruct l as [|[|[|l]]]; simpl in Hl; simplify_eq.
    + exfalso. apply Hout. set_solver.
    + exfalso. apply Hout. set_solver.
    + apply map_Forall_empty.
Qed.

Lemma applyChanges_frame_witness :
  (∀ l, l ∈ ({[0%nat; 1%nat]} : gset loc) →
        w_heap (_applyChanges 8 (idle nested [set_name; retag])).1 !! l = nested !! l) ∧
  ((_applyChanges 8 (idle nested [set_name; retag])).2 = Done () →
   updated (w_opts (_applyChanges 8 (idle nested [set_name; retag])).1) = VObj 3%nat ∧
   ∀ l, reach (w_heap (_applyChanges 8 (idle nested [set_name; retag])).1)
          (updated (w_opts (_applyChanges 8 (idle nested [set_name; retag])).1)) l →
        l ∉ ({[0%nat; 1%nat]} : gset loc)).
Proof.
  apply (applyChanges_frame 8 (idle nested [set_name; retag]) {[0%nat; 1%nat]}).
  - exact separated_nested.
  - intros cs [= <-]. repeat constructor.
Defined.

End EngineProps.

(** ** The arrays of drivers and loggers *)

Module ArrayProps.
Import ArrayItems.

Section Items.
Context {A : Type} `{EqDecision A}.

Lemma indexOf_absent (array : list A) (x : A) :
  x ∉ array → indexOf array x = -1.
Proof.
  intros Hx. unfold indexOf.
  destruct (list_find _ array) as [[i y]|] eqn:E; [|done].
  apply list_find_Some in E as (Hi & -> & _).
  destruct Hx. by eapply list_elem_of_lookup_2.
Qed.

Lemma indexOf_first (l1 l2 : list A) (x : A) :
  x ∉ l1 → indexOf (l1 ++ x :: l2) x = Z.of_nat (length l1).
Proof.
  intros Hx. unfold indexOf.
  destruct (list_find _ (l1 ++ x :: l2)) as [[i y]|] eqn:E.
  - apply list_find_Some in E as (Hi & -> & Hfirst).
    destruct (Nat.lt_trichotomy i (length l1)) as [Hlt|[->|Hgt]]; [|done|].
    + rewrite lookup_app_l in Hi by done.
      destruct Hx. by eapply list_elem_of_lookup_2.
    + destruct (Hfirst (length l1) x); [by apply list_lookup_middle|done|done].
  - apply list_find_None in E.
    rewrite Forall_app, Forall_cons in E. by destruct E as (_ & ? & _).
Qed.

Lemma delete_past_end (array : list A) (i : nat) :
  (length array ≤ i)%nat → delete i array = array.
Proof.
  revert i. induction array as [|x array IH]; intros i Hi; [by destruct i|].
  destruct i as [|i]; simpl in *; [lia|]. f_equal. apply IH. lia.
Qed.

(** X22. Removal by position. A negative position is refused. A position
    past the end is accepted and answered with [true], though nothing is
    removed. A position inside the array takes that one element out: the
    elements before it stay where they are, those after it move down by
    one. *)
Theorem removeArrayItem_by_index (array : list A) (n : Z) :
  (n < 0 → _removeArrayItem array (ByIndex n) = (array, false)) ∧
  (Z.of_nat (length array) ≤ n → _removeArrayItem array (ByIndex n) = (array, true)) ∧
  (0 ≤ n < Z.of_nat (length array) →
   (_removeArrayItem array (ByIndex n)).2 = true ∧
   S (length (_removeArrayItem array (ByIndex n)).1) = length array ∧
   ∀ i, (_removeArrayItem array (ByIndex n)).1 !! i
        = if decide (i < Z.to_nat n)%nat then array !! i else array !! S i).
Proof.
  unfold _removeArrayItem. split; [|split].
  - intros Hn. destruct (Z.ltb_spec (-1) n); [lia|done].
  - intros Hn. destruct (Z.ltb_spec (-1) n); [|lia].
    rewrite delete_past_end; [done|lia].
  - intros Hn. destruct (Z.ltb_spec (-1) n); [|lia]. simpl.
    split; [done|]. split.
    + rewrite length_delete; [lia|]. apply lookup_lt_is_Some_2. lia.
    + intros i. destruct (decide (i < Z.to_nat n)%nat).
      * by apply list_lookup_delete_lt.
      * apply list_lookup_delete_ge. lia.
Qed.

(** X23. Removal by item. An item the array does not hold is refused and the
    array stays as it is. Otherwise the first occurrence of the item is
    taken out, and only that one. So an item that is added and then removed
    leaves the array as it was, if the array did not hold it before. *)
Theorem removeArrayItem_by_item (array : list A) (x : A) :
  (x ∉ array → _removeArrayItem array (ByItem x) = (array, false)) ∧
  (∀ l1 l2, array = l1 ++ x :: l2 → x ∉ l1 →
            _removeArrayItem array (ByItem x) = (l1 ++ l2, true)) ∧
  (x ∉ array → _removeArrayItem (_addArrayItem array x).1 (ByItem x) = (array, true)).
Proof.
  assert (∀ l1 l2, x ∉ l1 →
            _removeArrayItem (l1 ++ x :: l2) (ByItem x) = (l1 ++ l2, true)) as Hfirst.
  { intros l1 l2 Hx. unfold _removeArrayItem. rewrite indexOf_first by done.
    destruct (Z.ltb_spec (-1) (Z.of_nat (length l1))); [|lia].
    by rewrite Nat2Z.id, delete_middle. }
  split; [|split].
  - intros Hx. unfold _removeArrayItem. by rewrite indexOf_absent.
  - intros l1 l2 -> Hx. by apply Hfirst.
  - intros Hx. unfold _addArrayItem. simpl.
    rewrite (Hfirst array [] Hx). by rewrite app_nil_r.
Qed.

End Items.

(** What [push] answers is the new length. *)
Lemma addArrayItem_length {A} (array : list A) (item : A) :
  (_addArrayItem array item).2 = Z.of_nat (length (_addArrayItem array item).1).
Proof. unfold _addArrayItem. simpl. rewrite length_app. simpl. lia. Qed.

Lemma removeArrayItem_by_index_witness :
  (_removeArrayItem ["a"; "b"; "c"] (ByIndex 1)).2 = true ∧
  S (length (_removeArrayItem ["a"; "b"; "c"] (ByIndex 1)).1) = 3%nat ∧
  _removeArrayItem ["a"; "b"; "c"] (ByIndex 5) = (["a"; "b"; "c"], true).
Proof.
  destruct (removeArrayItem_by_index ["a"; "b"; "c"] 1) as (_ & _ & Hin).
  destruct (removeArrayItem_by_index ["a"; "b"; "c"] 5) as (_ & Hpast & _).
  destruct Hin as (Ht & Hlen & _); [simpl; lia|].
  split; [exact Ht|]. split; [exact Hlen|]. apply Hpast. simpl. lia.
Defined.

End ArrayProps.

(** ** Capability tags *)

Module TagProps.
Import JS Async DataStore Trace.

#[local] Arguments String.append !_ _ / : simpl nomatch.

Lemma append_empty (s : string) : s +:+ "" = s.
Proof. induction s as [|a s IH]; [done|]. simpl. by f_equal. Qed.

Lemma append_assoc (s1 s2 s3 : string) : (s1 +:+ s2) +:+ s3 = s1 +:+ (s2 +:+ s3).
Proof. induction s1 as [|a s1 IH]; [done|]. simpl. by f_equal. Qed.

Lemma rev_app_append (s t : string) : String.rev_app s t = String.rev s +:+ t.
Proof.
  unfold String.rev. revert t. induction s as [|a s IH]; intros t; simpl; [done|].
  rewrite (IH (String a "")), IH, append_assoc. done.
Qed.

Lemma rev_app_rev_app (s t u : string) :
  String.rev_app (String.rev_app s t) u = String.rev_app t (s +:+ u).
Proof.
  revert t u. induction s as [|a s IH]; intros t u; simpl; [done|].
  by rewrite IH.
Qed.

Lemma joined_cons sep (s : string) (l : list string) :
  l ≠ [] → joined sep (s :: l) = s +:+ sep +:+ joined sep l.
Proof. by destruct l. Qed.

Lemma split_on_nonempty sep cur s : split_on sep cur s ≠ [].
Proof.
  revert cur. induction s as [|a s IH]; intros cur; simpl; [done|].
  by destruct (Ascii.eqb a sep).
Qed.

(** Splitting loses nothing: the parts, joined by commas, are the string
    that was split. *)
Lemma joined_split_on cur s :
  joined "," (split_on comma cur s) = String.rev cur +:+ s.
Proof.
  revert cur. induction s as [|a s IH]; intros cur; simpl.
  - by rewrite append_empty.
  - destruct (Ascii.eqb_spec a comma) as [->|Hne].
    + rewrite joined_cons by apply split_on_nonempty.
      rewrite IH. reflexivity.
    + rewrite IH. unfold String.rev. simpl.
      rewrite (rev_app_append cur (String a "")), append_assoc. reflexivity.
Qed.

Lemma split_on_part cur (s rest : string) :
  has_comma s = false →
  split_on comma cur (s +:+ String comma rest)
  = String.rev (String.rev_app s cur) :: split_on comma "" rest.
Proof.
  revert cur. induction s as [|a s IH]; intros cur Hs; simpl in *.
  - by rewrite ?Ascii.eqb_refl.
  - apply orb_false_iff in Hs as [Ha Hs]. rewrite Ha. by apply IH.
Qed.

Lemma split_on_last cur (s : string) :
  has_comma s = false →
  split_on comma cur s = [String.rev (String.rev_app s cur)].
Proof.
  revert cur. induction s as [|a s IH]; intros cur Hs; simpl in *; [done|].
  apply orb_false_iff in Hs as [Ha Hs]. rewrite Ha. by apply IH.
Qed.

Lemma rev_rev_app (s : string) : String.rev (String.rev_app s "") = s.
Proof. unfold String.rev. rewrite rev_app_rev_app. simpl. apply append_empty. Qed.

Lemma split_joined (names : list string) :
  names ≠ [] → Forall (λ s, has_comma s = false) names →
  split_commas (joined "," names) = names.
Proof.
  unfold split_commas.
  induction names as [|s names IH]; intros Hne Hall; [done|].
  inversion Hall as [|? ? Hs Hall']; subst.
  destruct names as [|s' names].
  - simpl. rewrite split_on_last by done. by rewrite rev_rev_app.
  - rewrite joined_cons by done.
    change ("," +:+ joined "," (s' :: names)) with (String comma (joined "," (s' :: names))).
    rewrite split_on_part by done. rewrite rev_rev_app.
    f_equal. by apply IH.
Qed.

Lemma joined_empty (names : list string) :
  names ≠ [] → names ≠ [""] → joined "," names ≠ "".
Proof.
  intros Hne Hne'. destruct names as [|s [|s' names]]; [done|simpl; congruence|].
  rewrite joined_cons by done. destruct s; discriminate.
Qed.

Section Tags.
Context {State : Type}.
Implicit Types (d : driver State).

(** X19. A driver is authoritative for the names its tag lists between commas
    and for nothing else. The names are compared as they are written, with
    no trimming and no folding of case. A driver without a tag, or with an
    empty one, is authoritative for nothing. Splitting a tag at its commas
    loses nothing of it. *)
Theorem authoritative_for_listed_names d :
  (∀ names,
     authoritative d = Some (joined "," names) →
     names ≠ [] → names ≠ [""] → Forall (λ s, has_comma s = false) names →
     authorities d = names ∧
     ∀ operation, is_authoritative operation d = bool_decide (operation ∈ names)) ∧
  (authoritative d = None ∨ authoritative d = Some "" →
   ∀ operation, is_authoritative operation d = false) ∧
  (∀ tag, joined "," (split_commas tag) = tag).
Proof.
  split; [|split].
  - intros names Htag Hne Hne' Hall.
    assert (authorities d = names) as Hauth.
    { unfold authorities. rewrite Htag.
      destruct (String.eqb_spec (joined "," names) "") as [He|_].
      - by destruct (joined_empty names).
      - by apply split_joined. }
    split; [done|]. intros operation. unfold is_authoritative. by rewrite Hauth.
  - intros [Hd|Hd] operation; unfold is_authoritative, authorities; by rewrite Hd.
  - intros tag. unfold split_commas. by rewrite joined_split_on.
Qed.

(** The driver that serves a read is the first one in the array that is
    authoritative for the operation. *)
Lemma getAuthoritative_least (array : list (driver State)) operation i :
  _getAuthoritative array operation = Some i ↔
  (∃ d, array !! i = Some d ∧ is_authoritative operation d = true) ∧
  (∀ j d', (j < i)%nat → array !! j = Some d' → is_authoritative operation d' = false).
Proof.
  split.
  - revert i. induction array as [|d0 array IH]; intros i; simpl; [done|].
    destruct (is_authoritative operation d0) eqn:E.
    + intros [= <-]. split; [by exists d0|]. intros j d' Hj. lia.
    + intros Hi. apply fmap_Some in Hi as (i' & Hi' & ->).
      destruct (IH i' Hi') as [Hd Hfirst]. split; [done|].
      intros [|j] d' Hj Hd'; simpl in Hd'; [by simplify_eq|].
      apply (Hfirst j d'); [lia|done].
  - intros [(d & Hd & Hauth) Hfirst].
    by apply (StoreProps.getAuthoritative_first array operation i d).
Qed.

(** X20. When several drivers are authoritative for an operation, the read
    goes to the first of them in the order of the array: that driver is
    called once, and every other driver, the later authoritative ones
    included, is left as it is. *)
Theorem first_authoritative_serves op (self : DataStore State) type c o h i d s t err x :
  drivers self !! i = Some d →
  is_authoritative (op_name op) d = true →
  (∀ j d', (j < i)%nat → drivers self !! j = Some d' →
           is_authoritative (op_name op) d' = false) →
  d_read d op h type c o (d_state d) = (s, ((t, err), x)) →
  _getAuthoritative (drivers self) (op_name op) = Some i ∧
  ∃ h' v,
    materialize x h = (h', Normal v) ∧
    read op self type c o h
    = (h', Normal (with_drivers self
                     (<[i := called d (CallRead op type c o) s]> (drivers self)),
                   (err, v))).
Proof.
  intros Hi Hd Hfirst Hread.
  assert (_getAuthoritative (drivers self) (op_name op) = Some i) as Hauth.
  { apply getAuthoritative_least. split; [by exists d|done]. }
  split; [done|].
  destruct (StoreProps.handleRead_routed op _ type c o h i d s t err x Hauth Hi Hread)
    as (h' & v & Hm & Hrun).
  exists h', v. split; [done|]. unfold read, bind. by rewrite Hrun.
Qed.

End Tags.

End TagProps.

(** ** What the stages of an operation leave as it is *)

Module TraceProps.
Import JS Async DeepDiff Objecticon Queries Trace.
Import SeparationProps CopyProps StoreProps RuleProps.

Section Trace.
Context {State : Type}.
Implicit Types (w : @world State) (d : DataStore.driver State).

Local Abbreviation Task := (Task (State:=State)).
Local Abbreviation keeps := (keeps (State:=State)).
Local Abbreviation blocked := (blocked (State:=State)).

Local Notation "t '>>' k" := (andThen t (fun _ => k))
  (at level 100, k at level 200, right associativity).

Lemma same_rules_refl : Reflexive same_rules.
Proof. by intros r t a f. Qed.
#[local] Existing Instance same_rules_refl.

Lemma same_rules_trans : Transitive same_rules.
Proof. intros r1 r2 r3 H12 H23 t a f. by rewrite H23. Qed.
#[local] Existing Instance same_rules_trans.

Lemma same_writes_refl : Reflexive (same_writes (State:=State)).
Proof. by intros ds. Qed.
#[local] Existing Instance same_writes_refl.

Lemma same_writes_trans : Transitive (same_writes (State:=State)).
Proof. unfold same_writes. intros ds1 ds2 ds3 H12 H23. by rewrite H23. Qed.
#[local] Existing Instance same_writes_trans.

Lemma same_size_refl : Reflexive (same_size (State:=State)).
Proof. by intros ds. Qed.
#[local] Existing Instance same_size_refl.

Lemma same_size_trans : Transitive (same_size (State:=State)).
Proof. intros ds1 ds2 ds3 [Hd Hl] [Hd' Hl']. split; congruence. Qed.
#[local] Existing Instance same_size_trans.

Lemma steady_refl : Reflexive (steady (State:=State)).
Proof. intros w. by repeat split. Qed.
#[local] Existing Instance steady_refl.

Lemma steady_trans : Transitive (steady (State:=State)).
Proof.
  intros w1 w2 w3 (Hr & Ho & Ht & Hi & Hc & He & Hz & Hn)
    (Hr' & Ho' & Ht' & Hi' & Hc' & He' & Hz' & Hn').
  split; [by etrans|]. split; [congruence|]. split; [congruence|].
  split; [congruence|]. split; [congruence|]. split; [congruence|].
  split; [by etrans|congruence].
Qed.
#[local] Existing Instance steady_trans.

Lemma unwritten_refl : Reflexive (unwritten (State:=State)).
Proof. intros w. by split. Qed.
#[local] Existing Instance unwritten_refl.

Lemma unwritten_trans : Transitive (unwritten (State:=State)).
Proof. intros w1 w2 w3 [Hd Hl] [Hd' Hl']. split; by etrans. Qed.
#[local] Existing Instance unwritten_trans.

Lemma read_only_refl : Reflexive (read_only (State:=State)).
Proof. intros w. by split. Qed.
#[local] Existing Instance read_only_refl.

Lemma read_only_trans : Transitive (read_only (State:=State)).
Proof. intros w1 w2 w3 [Hs Hu] [Hs' Hu']. split; by etrans. Qed.
#[local] Existing Instance read_only_trans.

Lemma same_opts_refl : Reflexive (same_opts (State:=State)).
Proof. by intros w. Qed.
#[local] Existing Instance same_opts_refl.

Lemma same_opts_trans : Transitive (same_opts (State:=State)).
Proof. unfold same_opts. intros w1 w2 w3 H12 H23. by rewrite H23. Qed.
#[local] Existing Instance same_opts_trans.

(** *** Stages in sequence *)

Lemma andThen_Done {A B} (t : Task A) (k : A → Task B) w w' b :
  andThen t k w = (w', Done b) → ∃ w1 a, t w = (w1, Done a) ∧ k a w1 = (w', Done b).
Proof.
  unfold andThen. destruct (t w) as [w1 [a|e|x]]; [|done..]. intros Hk. by exists w1, a.
Qed.

Lemma js_Done {A} (m : JS A) w w' a :
  js m w = (w', Done a) → ∃ h, m (w_heap w) = (h, Normal a) ∧ w' = put_heap w h.
Proof.
  unfold js. destruct (m (w_heap w)) as [h [a'|e]]; [|done]. intros [= <- <-]. by exists h.
Qed.

Lemma js_opts {A} (m : JS A) : keeps same_opts (js m).
Proof. intros w. unfold js. by destruct (m (w_heap w)) as [h [a|e]]. Qed.

Lemma keeps_andThen {A B} (R : @world State → @world State → Prop) `{!Transitive R}
    (t : Task A) (k : A → Task B) :
  keeps R t → (∀ a, keeps R (k a)) → keeps R (andThen t k).
Proof.
  intros Ht Hk w. unfold andThen. specialize (Ht w).
  destruct (t w) as [w1 [a|e|x]]; simpl in *; [|done..].
  etrans; [exact Ht|apply Hk].
Qed.

Lemma keeps_pure {A} (R : @world State → @world State → Prop) `{!Reflexive R}
    (f : @world State → result A) :
  keeps R (λ w, (w, f w)).
Proof. by intros w. Qed.

Lemma keeps_both {A} (t : Task A) :
  keeps steady t → keeps unwritten t → keeps read_only t.
Proof. intros Hs Hu w. by split. Qed.

Lemma keeps_js {A} (m : JS A) : keeps read_only (js m).
Proof.
  intros w. unfold js. by destruct (m (w_heap w)) as [h [a|e]].
Qed.

Lemma keeps_modify_opts (f : opts → opts) :
  (∀ o, type (f o) = type o ∧ id (f o) = id o ∧ changes (f o) = changes o) →
  keeps read_only (modify_opts f).
Proof.
  intros Hf w. destruct (Hf (w_opts w)) as (? & ? & ?). by repeat split.
Qed.

Lemma keeps_if {A} (R : @world State → @world State → Prop) (b : bool) (t1 t2 : Task A) :
  keeps R t1 → keeps R t2 → keeps R (if b then t1 else t2).
Proof. by destruct b. Qed.

(** *** Reads *)

Lemma writes_called_read d op type c o s :
  writes (DataStore.called d (DataStore.CallRead op type c o) s) = writes d.
Proof.
  unfold writes, DataStore.called. simpl.
  rewrite filter_app. simpl. rewrite filter_cons_False by (simpl; tauto).
  by rewrite filter_nil, app_nil_r.
Qed.

Lemma same_writes_read (handlers : list (DataStore.driver State)) i d op type c o s :
  handlers !! i = Some d →
  same_writes handlers (<[i := DataStore.called d (DataStore.CallRead op type c o) s]> handlers).
Proof.
  intros Hi. unfold same_writes.
  rewrite list_fmap_insert, writes_called_read.
  apply list_insert_id. by rewrite list_lookup_fmap, Hi.
Qed.

Lemma handleRead_same_writes op (handlers : list (DataStore.driver State)) type c o h :
  match (DataStore._handleReadOperation op handlers type c o h).2 with
  | Normal (hs, _) => same_writes handlers hs ∧ length hs = length handlers
  | Thrown _ => True
  end.
Proof.
  unfold DataStore._handleReadOperation.
  destruct (DataStore._getAuthoritative handlers _) as [i|]; [|done].
  destruct (handlers !! i) as [d|] eqn:Hi; [|done].
  unfold DataStore.invoke_read.
  destruct (DataStore.d_read d _ _ _ _ _ _) as [s [[t err] x]].
  unfold bind. destruct (DataStore.materialize x h) as [h' [v|e]]; simpl; [|done].
  split; [by apply same_writes_read|apply length_insert].
Qed.

Lemma keeps_ds_get type id : keeps read_only (ds_get type id).
Proof.
  intros w. unfold ds_get, DataStore.get, DataStore.read, bind.
  pose proof (handleRead_same_writes DataStore.Get (DataStore.drivers (w_ds w)) type
                (DataStore.ById id) DataStore.no_options (w_heap w)) as Hread.
  destruct (DataStore._handleReadOperation _ _ _ _ _ _) as [h [[hs [[e|] v]]|x]];
    simpl in *; try destruct Hread; by repeat split.
Qed.

Lemma keeps_query : keeps read_only _query.
Proof.
  intros w. unfold _query, DataStore.query, DataStore.read, bind.
  pose proof (handleRead_same_writes DataStore.Query (DataStore.drivers (w_ds w))
                (type (w_opts w)) (DataStore.ByQuery (Objecticon.query (w_opts w)))
                (DataStore.ReadOptions (view (w_opts w)) None None) (w_heap w)) as Hread.
  destruct (DataStore._handleReadOperation _ _ _ _ _ _) as [h [[hs [[e|] v]]|x]];
    simpl in *; try destruct Hread; by repeat split.
Qed.

Lemma keeps_getLog : keeps read_only _getLog.
Proof.
  intros w. unfold _getLog, andThen, the_opts, DataStore.getLog, bind.
  match goal with
  | |- context [DataStore._handleReadOperation ?op ?hs ?t ?c ?o ?h] =>
      pose proof (handleRead_same_writes op hs t c o h) as Hread
  end.
  destruct (DataStore._handleReadOperation _ _ _ _ _ _) as [h [[hs [[e|] v]]|x]];
    simpl in *; try destruct Hread; by repeat split.
Qed.

(** *** The stages of the engine *)

Lemma keeps_createObject : keeps read_only _createObject.
Proof.
  unfold _createObject.
  apply keeps_andThen; [apply _|by apply keeps_pure|]. intros o.
  apply keeps_andThen; [apply _|by apply keeps_pure|]. intros ds.
  apply keeps_andThen; [apply _|apply keeps_js|]. intros obj.
  apply keeps_andThen; [apply _|by apply keeps_modify_opts|]. intros _.
  apply keeps_andThen; [apply _|by apply keeps_pure|]. intros uuid.
  apply keeps_andThen; [apply _|apply keeps_js|]. intros _.
  by apply keeps_modify_opts.
Qed.

Lemma keeps_getObject : keeps read_only _getObject.
Proof.
  unfold _getObject.
  apply keeps_andThen; [apply _|by apply keeps_pure|]. intros o.
  apply keeps_andThen; [apply _|apply keeps_ds_get|]. intros results.
  apply keeps_andThen; [apply _| |].
  { apply keeps_if; by apply keeps_pure. }
  intros _. apply keeps_andThen; [apply _| |].
  { apply keeps_if; [by apply keeps_pure|apply keeps_createObject]. }
  intros _. apply keeps_modify_opts. intros o'. by destruct (truthy _).
Qed.

Lemma keeps_applyChanges stack : keeps read_only (_applyChanges stack).
Proof.
  unfold _applyChanges.
  apply keeps_andThen; [apply _|by apply keeps_pure|]. intros o.
  apply keeps_andThen; [apply _|apply keeps_js|]. intros u.
  apply keeps_andThen; [apply _|by apply keeps_modify_opts|]. intros _.
  destruct (changes o) as [cs|]; [|by apply keeps_pure].
  apply keeps_andThen; [apply _|apply keeps_js|]. intros _.
  apply keeps_andThen; [apply _|apply keeps_js|]. intros stamp.
  destruct (decide (stamp = VUndefined)); [by apply keeps_pure|].
  apply keeps_andThen; [apply _|by apply keeps_pure|]. intros now.
  apply keeps_andThen; [apply _|apply keeps_js|]. intros dt.
  apply keeps_js.
Qed.

Lemma checkRules_registry strict r h (o : rule_opts) :
  (_checkRules strict r h o).1
  = touch r (toLowerCase (type (context o))) (toLowerCase (action o)).
Proof. unfold _checkRules. by case_match. Qed.

Lemma checkRules_same_rules strict r h (o : rule_opts) :
  same_rules r (_checkRules strict r h o).1.
Proof. rewrite checkRules_registry. intros t a f. apply rules_for_touch. Qed.

Lemma check_each_same_rules strict h o a cs : ∀ r,
  same_rules r (check_each strict r h o a cs).1.
Proof.
  induction cs as [|c cs IH]; intros r; simpl; [done|].
  pose proof (checkRules_same_rules strict r h (with_change o a (join "." (path c)) c)) as H1.
  destruct (_checkRules _ _ _ _) as [r1 out]. simpl in H1.
  specialize (IH r1). destruct (check_each _ _ _ _ _ cs) as [r2 outs]. simpl in *.
  by etrans.
Qed.

Lemma keeps_finish (out : outcome) w : (finish (State:=State) out w).1 = w.
Proof. unfold finish. by destruct out.2. Qed.

Lemma keeps_checkTypeRules a : keeps read_only (_checkTypeRules a).
Proof.
  intros w. unfold _checkTypeRules, andThen, the_opts.
  pose proof (checkRules_same_rules (strict (w_options w)) (w_rules w) (w_heap w)
                (with_action (w_opts w) a)) as Hr.
  destruct (_checkRules _ _ _ _) as [r out]. rewrite keeps_finish. by repeat split.
Qed.

Lemma keeps_checkDiffRules a : keeps read_only (_checkDiffRules a).
Proof.
  intros w. unfold _checkDiffRules, andThen, the_opts.
  destruct (changes (w_opts w)) as [cs|]; [|done].
  pose proof (check_each_same_rules (strict (w_options w)) (w_heap w) (w_opts w) a cs
                (w_rules w)) as Hr.
  destruct (check_each _ _ _ _ _ cs) as [r outs]. rewrite keeps_finish. by repeat split.
Qed.

Lemma fan_out_length (f : DataStore.driver State → DataStore.driver State * outcome) ds :
  length (DataStore.fan_out f ds).1 = length ds.
Proof. by rewrite fan_out_drivers, length_fmap. Qed.

Lemma log_same_size (self : DataStore.DataStore State) now action type objectId meta h :
  match (DataStore.log self now action type objectId meta h).2 with
  | Normal (self', _) => same_size self self'
  | Thrown _ => True
  end.
Proof. rewrite log_unfold. cbn. split; [done|apply fan_out_length]. Qed.

Lemma put_same_size (self : DataStore.DataStore State) now type object meta h :
  same_size self (DataStore.put self now type object meta h).2.1.
Proof.
  unfold DataStore.put.
  pose proof (fan_out_length (DataStore.invoke_put h type object)
                (DataStore.drivers self)) as Hlen.
  destruct (DataStore.fan_out _ (DataStore.drivers self)) as [ds [t error]]. simpl in Hlen.
  unfold bind. destruct (JS.get object _ h) as [h1 [v|e]]; [|by split].
  match goal with
  | |- context [DataStore.log ?s ?n ?a ?ty ?oid ?m ?hh] =>
      pose proof (log_same_size s n a ty oid m hh) as Hlog;
      destruct (DataStore.log s n a ty oid m hh) as [h2 [[self2 r]|e]]
  end; simpl in *; [|by split].
  destruct Hlog as [Hd Hl]. simpl in *. split; congruence.
Qed.

Lemma delete_same_size (self : DataStore.DataStore State) now type ident meta h :
  same_size self (DataStore.delete self now type ident meta h).2.1.
Proof.
  rewrite delete_unfold. cbn. split; apply fan_out_length.
Qed.

Lemma keeps_write stringify : keeps steady (_write stringify).
Proof.
  intros w. unfold _write, andThen, the_opts, js.
  destruct (meta_with_diff _ _ _ _) as [h [m|x]]; [|done].
  match goal with
  | |- context [DataStore.put ?s ?n ?ty ?ob ?mm ?hh] =>
      pose proof (put_same_size s n ty ob mm hh) as Hsize;
      destruct (DataStore.put s n ty ob mm hh) as [h' [ds wr]]
  end. simpl in *. destruct Hsize.
  destruct (DataStore.answer wr); by repeat split.
Qed.

Lemma keeps_delete : keeps steady _delete.
Proof.
  intros w. unfold _delete, andThen, the_opts, js.
  destruct (bind _ _ _) as [h [m|x]]; [|done].
  match goal with
  | |- context [DataStore.delete ?s ?n ?ty ?ob ?mm ?hh] =>
      pose proof (delete_same_size s n ty ob mm hh) as Hsize;
      destruct (DataStore.delete s n ty ob mm hh) as [h' [ds wr]]
  end. simpl in *. destruct Hsize.
  destruct (DataStore.answer wr); by repeat split.
Qed.

Lemma read_only_steady (t : Task unit) : keeps read_only t → keeps steady t.
Proof. intros H w. apply H. Qed.

(** *** A check that cannot pass *)

Lemma steady_closed w w' a : steady w w' → closed w a → closed w' a.
Proof.
  intros (Hr & Ho & Ht & _). unfold closed. by rewrite Hr, Ho, Ht.
Qed.

Lemma each_fails_some (outs : list outcome) :
  Exists (λ out, out.2 ≠ None) outs → ∃ e, (each outs).2 = Some e.
Proof.
  intros Hex. destruct (each outs).2 as [e|] eqn:E; [by exists e|].
  apply each_succeeds in E. apply Exists_exists in Hex as (out & Hin & Hne).
  eapply Forall_forall in E; [|done]. done.
Qed.

Lemma closed_denies w a :
  closed w a → ∃ e, (_checkTypeRules a w).2 = Failed e.
Proof.
  intros Hc. unfold _checkTypeRules, andThen, the_opts, _checkRules. cbn [field with_action
    context action field_or_null].
  rewrite rules_for_touch.
  destruct Hc as [[Hs Hnil]|Hex].
  - rewrite Hs, Hnil. simpl. by exists PermissionDenied.
  - destruct (negb _ && _ && _); simpl; [by exists PermissionDenied|].
    destruct (each_fails_some
                ((λ rule : rule, rule (w_heap w) (with_action (w_opts w) a)) <$>
                 rules_for (w_rules w) (toLowerCase (type (w_opts w))) (toLowerCase a) None))
      as [e He].
    { apply Exists_fmap. eapply Exists_impl; [exact Hex|]. intros rule Hv. apply Hv. }
    exists e. unfold finish. by rewrite He.
Qed.

Lemma blocked_check {A} a (k : unit → Task A) :
  blocked a (andThen (_checkTypeRules a) k).
Proof.
  intros w Hc. destruct (closed_denies w a Hc) as [e He].
  pose proof (keeps_checkTypeRules a w) as Hk.
  unfold andThen. destruct (_checkTypeRules a w) as [w1 r]. simpl in *. subst r.
  by split.
Qed.

Lemma blocked_after {A B} a (t : Task A) (k : A → Task B) :
  keeps read_only t → (∀ x, blocked a (k x)) → blocked a (andThen t k).
Proof.
  intros Ht Hk w Hc. specialize (Ht w). unfold andThen.
  destruct (t w) as [w1 [x|e|x]]; simpl in *; [|by split..].
  destruct (Hk x w1) as [Hro Hnot].
  { eapply steady_closed; [apply Ht|done]. }
  split; [by etrans|done].
Qed.

End Trace.

End TraceProps.

(** ** What the operations do and do not do *)

Module OperationProps.
Import JS Async DeepDiff Objecticon Queries Trace.
Import SeparationProps CopyProps StoreProps RuleProps EngineProps TraceProps.

Section Operations.
Context {State : Type}.
Variable stringify : heap → list DeepDiff.change → string.
Variable stack : nat.
Implicit Types (w : @world State) (d : DataStore.driver State).

Local Abbreviation keeps := (keeps (State:=State)).
Local Abbreviation blocked := (blocked (State:=State)).

Local Notation "t '>>' k" := (andThen t (fun _ => k))
  (at level 100, k at level 200, right associativity).

Local Existing Instances steady_refl steady_trans read_only_refl read_only_trans
  same_opts_refl same_opts_trans.

(** *** The pipelines *)

Lemma keeps_get_pipeline :
  keeps read_only
    (modify_opts (fun o => set_results o VNull) >> _getObject >> _checkTypeRules "read").
Proof.
  apply keeps_andThen; [apply _|by apply keeps_modify_opts|]. intros _.
  apply keeps_andThen; [apply _|apply keeps_getObject|]. intros _.
  apply keeps_checkTypeRules.
Qed.

Lemma keeps_query_pipeline :
  keeps read_only
    (modify_opts (fun o => set_results o VNull) >> _query >> _checkTypeRules "query").
Proof.
  apply keeps_andThen; [apply _|by apply keeps_modify_opts|]. intros _.
  apply keeps_andThen; [apply _|apply keeps_query|]. intros _.
  apply keeps_checkTypeRules.
Qed.

Lemma keeps_getLog_pipeline :
  keeps read_only (_checkTypeRules "log" >> _getLog).
Proof.
  apply keeps_andThen; [apply _|apply keeps_checkTypeRules|]. intros _.
  apply keeps_getLog.
Qed.

Lemma keeps_update_pipeline :
  keeps steady
    (modify_opts (fun o => set_allowMissing o true) >> _getObject >> _update stringify stack).
Proof.
  apply keeps_andThen; [apply _|by apply read_only_steady, keeps_modify_opts|]. intros _.
  apply keeps_andThen; [apply _|apply read_only_steady, keeps_getObject|]. intros _.
  unfold _update.
  apply keeps_andThen; [apply _|apply read_only_steady, keeps_applyChanges|]. intros _.
  apply keeps_andThen; [apply _|apply read_only_steady, keeps_checkTypeRules|]. intros _.
  apply keeps_andThen; [apply _|apply read_only_steady, keeps_checkDiffRules|]. intros _.
  apply keeps_write.
Qed.

Lemma keeps_delete_pipeline :
  keeps steady (_getObject >> _checkTypeRules "delete" >> _delete).
Proof.
  apply keeps_andThen; [apply _|apply read_only_steady, keeps_getObject|]. intros _.
  apply keeps_andThen; [apply _|apply read_only_steady, keeps_checkTypeRules|]. intros _.
  apply keeps_delete.
Qed.

Lemma get_world w :
  (get w).1 = ((modify_opts (fun o => set_results o VNull) >> _getObject >>
                _checkTypeRules "read") w).1.
Proof. unfold get. by destruct (andThen _ _ w) as [w' [[]|e|x]]. Qed.

Lemma query_world w :
  (query w).1 = ((modify_opts (fun o => set_results o VNull) >> _query >>
                  _checkTypeRules "query") w).1.
Proof. unfold query. by destruct (andThen _ _ w) as [w' [[]|e|x]]. Qed.

Lemma getLog_world w :
  (getLog w).1 = ((_checkTypeRules "log" >> _getLog) w).1.
Proof. unfold getLog. by destruct (andThen _ _ w) as [w' [[]|e|x]]. Qed.

Lemma delete_world w :
  (delete w).1 = ((_getObject >> _checkTypeRules "delete" >> _delete) w).1.
Proof. unfold delete. by destruct (andThen _ _ w) as [w' [[]|e|x]]. Qed.

(** X9. A read operation asks no driver and no logger to put or to delete,
    emits nothing, and leaves the rules and the options as they are: this
    holds for [get], [query] and [getLog], whatever they are asked and
    however they end. *)
Theorem reads_never_write w :
  read_only w (get w).1 ∧ read_only w (query w).1 ∧ read_only w (getLog w).1.
Proof.
  rewrite get_world, query_world, getLog_world.
  split; [apply keeps_get_pipeline|].
  split; [apply keeps_query_pipeline|apply keeps_getLog_pipeline].
Qed.

(** *** Notifications *)

Lemma applyChanges_updated w w' :
  _applyChanges stack w = (w', Done ()) → ∃ u, updated (w_opts w') = VObj u.
Proof.
  unfold _applyChanges. intros Hrun.
  apply andThen_Done in Hrun as (w0 & o & [= <- <-] & Hrun).
  apply andThen_Done in Hrun as (w1 & u & Hclone & Hrun).
  apply js_Done in Hclone as (h1 & Hclone & ->).
  apply (f_equal snd) in Hclone. apply clone_returns_fresh in Hclone. subst u.
  apply andThen_Done in Hrun as (w2 & [] & [= <-] & Hrun).
  exists (length (w_heap w)).
  assert (same_opts (put_opts (put_heap w h1)
                       (set_updated (w_opts w) (VObj (length (w_heap w))))) w') as ->;
    [|done].
  apply (f_equal fst) in Hrun. simpl in Hrun. rewrite <- Hrun.
  destruct (changes (w_opts w)) as [cs|]; [|done].
  apply keeps_andThen; [apply _|apply js_opts|]. intros _.
  apply keeps_andThen; [apply _|apply js_opts|]. intros stamp.
  destruct (decide (stamp = VUndefined)); [done|].
  apply keeps_andThen; [apply _|done|]. intros now.
  apply keeps_andThen; [apply _|apply js_opts|]. intros dt.
  apply js_opts.
Qed.

Lemma checkTypeRules_opts a w : w_opts (_checkTypeRules a w).1 = w_opts w.
Proof.
  unfold _checkTypeRules, andThen, the_opts.
  destruct (_checkRules _ _ _ _) as [r out]. by rewrite keeps_finish.
Qed.

Lemma checkDiffRules_opts a w : w_opts (_checkDiffRules a w).1 = w_opts w.
Proof.
  unfold _checkDiffRules, andThen, the_opts.
  destruct (changes (w_opts w)) as [cs|]; [|done].
  destruct (check_each _ _ _ _ _ cs) as [r outs]. by rewrite keeps_finish.
Qed.

Lemma write_results w w' :
  _write stringify w = (w', Done ()) → results (w_opts w') = updated (w_opts w).
Proof.
  unfold _write, andThen, the_opts, js.
  destruct (meta_with_diff _ _ _ _) as [h [m|x]]; [|done].
  destruct (DataStore.put _ _ _ _ _ _) as [h' [ds wr]]. simpl.
  destruct (DataStore.answer wr); [done|]. by intros [= <-].
Qed.

Lemma update_results w w' :
  _update stringify stack w = (w', Done ()) → ∃ u, results (w_opts w') = VObj u.
Proof.
  unfold _update, andThen.
  destruct (_applyChanges stack w) as [w1 [[]|e|x]] eqn:E1; [|done..].
  apply applyChanges_updated in E1 as [u Hu].
  pose proof (checkTypeRules_opts "write" w1) as H2.
  destruct (_checkTypeRules "write" w1) as [w2 [[]|e|x]]; [|done..].
  pose proof (checkDiffRules_opts "write" w2) as H3.
  destruct (_checkDiffRules "write" w2) as [w3 [[]|e|x]]; [|done..].
  intros Hw. apply write_results in Hw. exists u.
  simpl in *. by rewrite Hw, H3, H2.
Qed.

(** X6. An update notifies its listeners only after a successful write. When
    it calls back with a result, the result is an object and exactly three
    notifications have been emitted, in this order: [updated],
    [updated.<type>] and [updated.<type>.<id>], each with the result, the
    last under the [id] of the result. When it calls back with an error, or
    throws, nothing has been emitted. A delete emits nothing. *)
Theorem update_emits w :
  match (update stringify stack w).2 with
  | Callback None v =>
      (∃ u, v = VObj u) ∧
      w_emitted (update stringify stack w).1
      = w_emitted w ++
        updated_events (type (w_opts w))
          (prop (w_heap (update stringify stack w).1) v "id") v
  | _ => w_emitted (update stringify stack w).1 = w_emitted w
  end ∧
  w_emitted (delete w).1 = w_emitted w.
Proof.
  split.
  - unfold update.
    pose proof (keeps_update_pipeline w) as (_ & _ & Hty & _ & _ & Hem & _).
    set (pipeline := andThen _ _) in *.
    destruct (pipeline w) as [w' [[]|e|x]] eqn:E; simpl in *; [|done..].
    assert (∃ u, results (w_opts w') = VObj u) as [u Hu].
    { unfold pipeline, andThen, modify_opts in E.
      destruct (_getObject _) as [w1 [[]|e|x]]; [|done..].
      by eapply update_results. }
    rewrite Hu, get_ref. simpl. split; [by eexists|].
    rewrite Hem, Hty. unfold updated_events. by rewrite <- !app_assoc.
  - rewrite delete_world. apply keeps_delete_pipeline.
Qed.

(** *** Operations that are denied *)

Lemma blocked_update :
  blocked "write"
    (modify_opts (fun o => set_allowMissing o true) >> _getObject >> _update stringify stack).
Proof.
  apply blocked_after; [by apply keeps_modify_opts|]. intros _.
  apply blocked_after; [apply keeps_getObject|]. intros _.
  unfold _update.
  apply blocked_after; [apply keeps_applyChanges|]. intros _.
  apply blocked_check.
Qed.

Lemma blocked_delete :
  blocked "delete" (_getObject >> _checkTypeRules "delete" >> _delete).
Proof.
  apply blocked_after; [apply keeps_getObject|]. intros _.
  apply blocked_check.
Qed.



Lemma update_rules w :
  w_rules (update stringify stack w).1
  = w_rules ((modify_opts (fun o => set_allowMissing o true) >> _getObject >>
              _update stringify stack) w).1 ∧
  w_options (update stringify stack w).1
  = w_options ((modify_opts (fun o => set_allowMissing o true) >> _getObject >>
                _update stringify stack) w).1.
Proof.
  unfold update. destruct (andThen _ _ w) as [w' [[]|e|x]]; simpl; [|done..].
  by destruct (JS.get _ _ _) as [h [v|x]].
Qed.

(** X10. No operation changes the rules that apply or the options of the
    engine, however it ends: every lookup of the rules of a type, an action
    and a field gives the same list afterwards. (A check may create empty
    containers for its type and action; no lookup tells the difference.) *)
Theorem operations_keep_rules w :
  Forall (λ w', same_rules (w_rules w) (w_rules w') ∧ w_options w' = w_options w)
    [(get w).1; (query w).1; (getLog w).1; (update stringify stack w).1; (delete w).1].
Proof.
  rewrite get_world, query_world, getLog_world, delete_world.
  destruct (update_rules w) as [Hr Ho].
  repeat constructor.
  - apply keeps_get_pipeline.
  - apply keeps_get_pipeline.
  - apply keeps_query_pipeline.
  - apply keeps_query_pipeline.
  - apply keeps_getLog_pipeline.
  - apply keeps_getLog_pipeline.
  - rewrite Hr. apply keeps_update_pipeline.
  - rewrite Ho. apply keeps_update_pipeline.
  - apply keeps_delete_pipeline.
  - apply keeps_delete_pipeline.
Qed.

(** *** The order of reading and checking *)

Lemma checkTypeRules_world a w : ∃ r, (_checkTypeRules a w).1 = put_rules w r.
Proof.
  unfold _checkTypeRules, andThen, the_opts.
  destruct (_checkRules _ _ _ _) as [r out]. rewrite keeps_finish. by exists r.
Qed.


Lemma ds_get_routed w ty ident i d s t err x :
  DataStore._getAuthoritative (DataStore.drivers (w_ds w)) "get" = Some i →
  DataStore.drivers (w_ds w) !! i = Some d →
  DataStore.d_read d DataStore.Get (w_heap w) ty (DataStore.ById ident)
    DataStore.no_options (DataStore.d_state d) = (s, ((t, err), x)) →
  ∃ h' v,
    DataStore.materialize x (w_heap w) = (h', Normal v) ∧
    ds_get ty ident w
    = (put_ds (put_heap w h')
         (DataStore.with_drivers (w_ds w)
            (<[i := DataStore.called d
                      (DataStore.CallRead DataStore.Get ty (DataStore.ById ident)
                         DataStore.no_options) s]>
               (DataStore.drivers (w_ds w)))),
       match err with None => Done v | Some e => Failed e end).
Proof.
  intros Hi Hd Hread.
  destruct (handleRead_routed DataStore.Get _ _ _ _ _ _ _ _ _ _ _ Hi Hd Hread)
    as (h' & v & Hm & Hrun).
  exists h', v. split; [done|].
  unfold ds_get, DataStore.get, DataStore.read, bind. rewrite Hrun. by destruct err.
Qed.


(** *** An id the store does not have, a read that fails *)

(** X13. A [get] or a [delete] of an id the store does not have calls back
    with the error of an invalid id, unless the call allows a missing
    object. The authoritative driver has been asked to get, and that is all:
    no rule has been looked up, nothing is created, no driver is asked to
    delete and no log entry is made. *)
Theorem missing_id_is_an_error w i d s t :
  allowMissing (w_opts w) = false →
  DataStore._getAuthoritative (DataStore.drivers (w_ds w)) "get" = Some i →
  DataStore.drivers (w_ds w) !! i = Some d →
  DataStore.d_read d DataStore.Get (w_heap w) (type (w_opts w))
    (DataStore.ById (id (w_opts w))) DataStore.no_options (DataStore.d_state d)
  = (s, ((t, None), DataStore.LNull)) →
  let asked :=
    DataStore.with_drivers (w_ds w)
      (<[i := DataStore.called d
                (DataStore.CallRead DataStore.Get (type (w_opts w))
                   (DataStore.ById (id (w_opts w))) DataStore.no_options) s]>
         (DataStore.drivers (w_ds w))) in
  get w
  = (put_ds (put_opts w (set_results (w_opts w) VNull)) asked,
     Callback (Some (InvalidId (type (w_opts w)) (id (w_opts w)))) VNull) ∧
  delete w
  = (put_ds w asked,
     Callback (Some (InvalidId (type (w_opts w)) (id (w_opts w)))) VUndefined).
Proof.
  intros Hallow Hi Hd Hread asked. split.
  - unfold get, andThen, modify_opts, _getObject, andThen, the_opts.
    cbn [w_opts put_opts type id allowMissing set_results].
    destruct (ds_get_routed (put_opts w (set_results (w_opts w) VNull))
                (type (w_opts w)) (id (w_opts w)) i d s t None DataStore.LNull Hi Hd Hread)
      as (h' & v & [= <- <-] & ->).
    cbn. by rewrite Hallow.
  - unfold delete, andThen, _getObject, andThen, the_opts.
    destruct (ds_get_routed w (type (w_opts w)) (id (w_opts w)) i d s t None
                DataStore.LNull Hi Hd Hread) as (h' & v & [= <- <-] & ->).
    cbn. rewrite Hallow. by destruct w.
Qed.

(** X14. When the authoritative driver fails to get the object, the
    operation calls back with the error of the driver and stops there:
    [get], [update] and [delete] alike. An update creates nothing, though
    it allows a missing object; no rule is looked up and nothing is
    written. *)
Theorem read_error_ends_the_operation w i d s t e x :
  DataStore._getAuthoritative (DataStore.drivers (w_ds w)) "get" = Some i →
  DataStore.drivers (w_ds w) !! i = Some d →
  DataStore.d_read d DataStore.Get (w_heap w) (type (w_opts w))
    (DataStore.ById (id (w_opts w))) DataStore.no_options (DataStore.d_state d)
  = (s, ((t, Some e), x)) →
  ((get w).2 = Callback (Some e) VNull ∧
   (update stringify stack w).2 = Callback (Some e) VUndefined ∧
   (delete w).2 = Callback (Some e) VUndefined) ∧
  Forall (λ w', w_rules w' = w_rules w ∧ creating (w_opts w') = creating (w_opts w) ∧
                unwritten w w')
    [(get w).1; (update stringify stack w).1; (delete w).1].
Proof.
  intros Hi Hd Hread.
  assert (same_writes (DataStore.drivers (w_ds w))
            (<[i := DataStore.called d
                      (DataStore.CallRead DataStore.Get (type (w_opts w))
                         (DataStore.ById (id (w_opts w))) DataStore.no_options) s]>
               (DataStore.drivers (w_ds w)))) as Hsame by (by apply same_writes_read).
  assert (∃ h', get w
            = (put_ds (put_heap (put_opts w (set_results (w_opts w) VNull)) h')
                 (DataStore.with_drivers (w_ds w)
                    (<[i := DataStore.called d
                              (DataStore.CallRead DataStore.Get (type (w_opts w))
                                 (DataStore.ById (id (w_opts w))) DataStore.no_options) s]>
                       (DataStore.drivers (w_ds w)))),
               Callback (Some e) VNull)) as [h1 Hget].
  { unfold get, andThen, modify_opts, _getObject, andThen, the_opts.
    cbn [w_opts put_opts type id allowMissing set_results].
    destruct (ds_get_routed (put_opts w (set_results (w_opts w) VNull))
                (type (w_opts w)) (id (w_opts w)) i d s t (Some e) x Hi Hd Hread)
      as (h' & v & _ & ->).
    by exists h'. }
  assert (∃ h', update stringify stack w
            = (put_ds (put_heap (put_opts w (set_allowMissing (w_opts w) true)) h')
                 (DataStore.with_drivers (w_ds w)
                    (<[i := DataStore.called d
                              (DataStore.CallRead DataStore.Get (type (w_opts w))
                                 (DataStore.ById (id (w_opts w))) DataStore.no_options) s]>
                       (DataStore.drivers (w_ds w)))),
               Callback (Some e) VUndefined)) as [h2 Hupdate].
  { unfold update, andThen, modify_opts, _getObject, andThen, the_opts.
    cbn [w_opts put_opts type id allowMissing set_allowMissing].
    destruct (ds_get_routed (put_opts w (set_allowMissing (w_opts w) true))
                (type (w_opts w)) (id (w_opts w)) i d s t (Some e) x Hi Hd Hread)
      as (h' & v & _ & ->).
    by exists h'. }
  assert (∃ h', delete w
            = (put_ds (put_heap w h')
                 (DataStore.with_drivers (w_ds w)
                    (<[i := DataStore.called d
                              (DataStore.CallRead DataStore.Get (type (w_opts w))
                                 (DataStore.ById (id (w_opts w))) DataStore.no_options) s]>
                       (DataStore.drivers (w_ds w)))),
               Callback (Some e) VUndefined)) as [h3 Hdelete].
  { unfold delete, andThen, _getObject, andThen, the_opts.
    destruct (ds_get_routed w (type (w_opts w)) (id (w_opts w)) i d s t (Some e) x
                Hi Hd Hread) as (h' & v & _ & ->).
    by exists h'. }
  rewrite Hget, Hupdate, Hdelete. split; [done|].
  repeat constructor; done.
Qed.

(** X15. A factory that answers [null] for the type makes an update of a
    missing id throw: the id of the new object is assigned to [null]. The
    update does not call back, and nothing is written. *)
Theorem unknown_type_throws w i d s t :
  DataStore._getAuthoritative (DataStore.drivers (w_ds w)) "get" = Some i →
  DataStore.drivers (w_ds w) !! i = Some d →
  DataStore.d_read d DataStore.Get (w_heap w) (type (w_opts w))
    (DataStore.ById (id (w_opts w))) DataStore.no_options (DataStore.d_state d)
  = (s, ((t, None), DataStore.LNull)) →
  DataStore.create (w_ds w) (type (w_opts w)) = DataStore.LNull →
  (update stringify stack w).2 = Uncaught TypeError ∧
  read_only w (update stringify stack w).1.
Proof.
  intros Hi Hd Hread Hcreate.
  assert (same_writes (DataStore.drivers (w_ds w))
            (<[i := DataStore.called d
                      (DataStore.CallRead DataStore.Get (type (w_opts w))
                         (DataStore.ById (id (w_opts w))) DataStore.no_options) s]>
               (DataStore.drivers (w_ds w)))) as Hsame by (by apply same_writes_read).
  unfold update, andThen, modify_opts, _getObject, andThen, the_opts.
  cbn [w_opts put_opts type id allowMissing set_allowMissing].
  destruct (ds_get_routed (put_opts w (set_allowMissing (w_opts w) true))
              (type (w_opts w)) (id (w_opts w)) i d s t None DataStore.LNull Hi Hd Hread)
    as (h' & v & [= <- <-] & ->).
  cbn. unfold _createObject, andThen, the_opts, js, modify_opts. cbn.
  rewrite Hcreate. cbn. repeat split; try done; simpl; by rewrite length_insert.
Qed.

End Operations.
End OperationProps.

(** ** Checks *)

Module CheckProps.
Import JS Async DeepDiff Objecticon Trace.
Import StoreProps RuleProps TraceProps.

Section Checks.
Context {State : Type}.
Implicit Types (w : @world State) (r : registry) (o : opts).

Lemma checkRules_allowed strict r h (ro : rule_opts) :
  (_checkRules strict r h ro).2.2 = None ↔ allowed strict r h ro.
Proof.
  unfold _checkRules, allowed. rewrite rules_for_touch.
  set (f := field_or_null (field ro)).
  set (rules := rules_for r _ _ f).
  destruct (negb (bool_decide (is_Some f)) && strict && bool_decide (rules = [])) eqn:E.
  - apply andb_prop in E as [E Hnil]. apply andb_prop in E as [Hf Hs].
    apply bool_decide_eq_true in Hnil. apply negb_true_iff, bool_decide_eq_false in Hf.
    simpl. split; [done|]. intros [Hsome _].
    destruct f; [by destruct Hf|]. by destruct (Hsome eq_refl Hs).
  - cbn [snd]. rewrite each_succeeds, Forall_fmap. split.
    + intros Hall. split; [|done]. intros Hf Hs Hnil.
      rewrite Hf, Hs in E. simpl in E. by apply bool_decide_eq_false in E.
    + by intros [_ Hall].
Qed.

Lemma checkRules_outcome strict r r' h (ro : rule_opts) :
  same_rules r r' → (_checkRules strict r' h ro).2 = (_checkRules strict r h ro).2.
Proof.
  intros Hsame. unfold _checkRules. rewrite !rules_for_touch, Hsame.
  by case_match.
Qed.

(** Each change is checked on its own: what one check answers does not
    depend on the checks made before it. *)
Lemma check_each_outcomes strict h o a cs : ∀ r,
  (check_each strict r h o a cs).2
  = (λ c, (_checkRules strict r h (with_change o a (join "." (path c)) c)).2) <$> cs.
Proof.
  induction cs as [|c cs IH]; intros r; simpl; [done|].
  pose proof (checkRules_same_rules strict r h (with_change o a (join "." (path c)) c)) as H1.
  destruct (_checkRules strict r h _) as [r1 out] eqn:E. simpl in H1.
  specialize (IH r1). destruct (check_each _ _ _ _ _ cs) as [r2 outs]. simpl in *.
  f_equal. rewrite IH. apply list_fmap_ext. intros _ c' _.
  by apply checkRules_outcome.
Qed.

Lemma finish_Done (out : outcome) w :
  (finish (State:=State) out w).2 = Done () ↔ out.2 = None.
Proof. unfold finish. by destruct out.2. Qed.



End Checks.

Lemma toLowerCase_idemp (s : string) : toLowerCase (toLowerCase s) = toLowerCase s.
Proof.
  induction s as [|c s IH]; simpl; [done|]. f_equal; [|done].
  destruct c as [[] [] [] [] [] [] [] []]; reflexivity.
Qed.


End CheckProps.

(** ** A put of nothing *)

Module PutProps.
Import JS Async DataStore.
Import StoreProps.

Section Put.
Context {State : Type}.
Implicit Types (self : DataStore State).

(** X21. A put of [null] or of [undefined] reaches every driver and answers
    the caller as any put does; then reading the id of the object throws,
    and no log entry is made: the loggers and the heap stay as they are. *)
Theorem put_of_nothing self now type object meta h :
  object = VNull ∨ object = VUndefined →
  once (CallPut type object) (λ d, d_put d h type object (d_state d))
    (drivers self) (drivers (put self now type object meta h).2.1) ∧
  told (λ d, d_put d h type object (d_state d)) (drivers self)
    (answer (put self now type object meta h).2.2) ∧
  afterwards (put self now type object meta h).2.2 = Thrown TypeError ∧
  loggers (put self now type object meta h).2.1 = loggers self ∧
  (put self now type object meta h).1 = h.
Proof.
  intros Hobj. unfold put, invoke_put.
  pose proof (fan_out_once (CallPut type object)
                (λ d, d_put d h type object (d_state d)) (drivers self)) as Honce.
  pose proof (fan_out_result (CallPut type object)
                (λ d, d_put d h type object (d_state d)) (drivers self)) as Hres.
  pose proof (each_told (λ d, d_put d h type object (d_state d)) (drivers self)) as Htold.
  destruct (fan_out _ (drivers self)) as [ds [t error]]. simpl in *.
  rewrite <- Hres in Htold. simpl in Htold.
  unfold bind. destruct Hobj as [-> | ->]; simpl; (split; [done|]); (split; [done|]); done.
Qed.

End Put.

End PutProps.

(** ** Updates and deletes that go through *)

Module WriteProps.
Import JS Async DeepDiff Separation Objecticon Queries Trace.
Import SeparationProps CopyProps StoreProps RuleProps EngineProps TraceProps OperationProps.

Section Writes.
Context {State : Type}.
Variable stringify : heap → list DeepDiff.change → string.
Variable stack : nat.
Implicit Types (w : @world State) (d : DataStore.driver State).

Local Existing Instances steady_refl steady_trans read_only_refl read_only_trans.

(** *** What a datum holds once it is in the heap *)

Lemma materialize_scalar x val h :
  scalar x = Some val → DataStore.materialize x h = (h, Normal val).
Proof. destruct x; simpl; intros [= <-]; reflexivity. Qed.

Lemma fill_content (r : loc) (props : list (string * DataStore.lit)) : ∀ (H H' : heap) m,
  forEach props (λ p, let! v := DataStore.materialize p.2 in set (VObj r) p.1 v) H
  = (H', Normal ()) →
  H !! r = Some (Object CPlain m) →
  NoDup props.*1 →
  ∃ m', H' !! r = Some (Object CPlain m') ∧
        (∀ k x val, (k, x) ∈ props → scalar x = Some val → m' !! k = Some val) ∧
        (∀ k, k ∉ props.*1 → m' !! k = m !! k).
Proof.
  induction props as [|[k0 x0] props IH]; intros H H' m Hrun Hr Hnd.
  { unfold forEach, ret in Hrun. simplify_eq. exists m. split; [done|]. split; [|done].
    intros k x val Hin. by apply elem_of_nil in Hin. }
  rewrite forEach_cons in Hrun. unfold bind in Hrun. simpl in Hrun, Hnd.
  apply NoDup_cons in Hnd as [Hk0 Hnd].
  destruct (materialize_spec x0 H) as (H1 & v0 & Hmat & Hpre & _).
  rewrite Hmat in Hrun.
  assert (H1 !! r = Some (Object CPlain m)) as Hr1 by (by eapply prefix_lookup_Some).
  unfold set in Hrun. rewrite Hr1 in Hrun. simpl in Hrun.
  destruct (IH (<[r := Object CPlain (<[k0 := v0]> m)]> H1) H' (<[k0 := v0]> m))
    as (m' & Hr' & Hin' & Hout'); [done| |done|].
  { apply list_lookup_insert_eq. by eapply lookup_lt_Some. }
  exists m'. split; [done|]. split.
  - intros k x val Hin Hval. apply elem_of_cons in Hin as [[= -> ->]|Hin].
    + rewrite (Hout' k0 Hk0), lookup_insert_eq.
      rewrite (materialize_scalar x0 val H Hval) in Hmat. by simplify_eq.
    + by eapply Hin'.
  - intros k Hk. apply not_elem_of_cons in Hk as [Hne Hk].
    rewrite (Hout' k Hk). by apply lookup_insert_ne.
Qed.

Lemma materialize_content props (h h' : heap) v k x val :
  DataStore.materialize (DataStore.LObject props) h = (h', Normal v) →
  NoDup props.*1 → (k, x) ∈ props → scalar x = Some val →
  ∃ m, h' !! length h = Some (Object CPlain m) ∧ m !! k = Some val.
Proof.
  intros Hrun Hnd Hin Hval. cbn [DataStore.materialize] in Hrun.
  unfold bind at 1, new_object, alloc in Hrun. unfold bind in Hrun.
  destruct (forEach props _ (h ++ [Object CPlain ∅])) as [H' [[]|e]] eqn:E; [|done].
  destruct (fill_content (length h) props _ _ ∅ E) as (m' & Hr & Hin' & _); [|done|].
  { by apply list_lookup_middle. }
  unfold ret in Hrun. simplify_eq. exists m'. split; [done|]. by eapply Hin'.
Qed.

(** *** Fetching an object that is stored *)

Lemma getObject_fetches w i d s t props :
  DataStore._getAuthoritative (DataStore.drivers (w_ds w)) "get" = Some i →
  DataStore.drivers (w_ds w) !! i = Some d →
  DataStore.d_read d DataStore.Get (w_heap w) (type (w_opts w))
    (DataStore.ById (id (w_opts w))) DataStore.no_options (DataStore.d_state d)
  = (s, ((t, None), DataStore.LObject props)) →
  ∃ w1 m,
    _getObject w = (w1, Done ()) ∧
    DataStore.materialize (DataStore.LObject props) (w_heap w)
    = (w_heap w1, Normal (VObj (length (w_heap w)))) ∧
    w_heap w `prefix_of` w_heap w1 ∧
    w_heap w1 !! length (w_heap w) = Some (Object CPlain m) ∧
    well (length (w_heap w)) (length (w_heap w1)) (w_heap w1)
      (DataStore.lit_depth (DataStore.LObject props)) (VObj (length (w_heap w))) ∧
    w_opts w1 = set_results (w_opts w)
                  (if truthy (results (w_opts w)) then results (w_opts w)
                   else VObj (length (w_heap w))) ∧
    w_ds w1 = DataStore.with_drivers (w_ds w)
                (<[i := DataStore.called d
                          (DataStore.CallRead DataStore.Get (type (w_opts w))
                             (DataStore.ById (id (w_opts w))) DataStore.no_options) s]>
                   (DataStore.drivers (w_ds w))).
Proof.
  intros Hi Hd Hread.
  destruct (materialize_object props) with (h := w_heap w)
    as (h1 & m & Hmat & Hpre & Hroot & Hkids).
  { apply Forall_forall. intros ? _. apply materialize_spec. }
  destruct (materialize_spec (DataStore.LObject props) (w_heap w))
    as (h1' & v' & Hmat' & _ & Hwell).
  rewrite Hmat in Hmat'. simplify_eq.
  destruct (ds_get_routed w (type (w_opts w)) (id (w_opts w)) i d s t None _ Hi Hd Hread)
    as (h' & v & Hm & Hget).
  rewrite Hmat in Hm. simplify_eq.
  unfold _getObject, andThen, the_opts. rewrite Hget. cbn.
  eexists _, m. split; [reflexivity|]. cbn. by repeat split.
Qed.

(** *** Applying one change to a field *)

Lemma applyChange_sets_field (h : heap) u m kind k lhs rhs idx itm :
  kind = "N" ∨ kind = "E" →
  h !! u = Some (Object CPlain m) →
  applyChange (VObj u) (VBool true) (Change kind [SStr k] lhs rhs idx itm) h
  = (<[u := Object CPlain (<[k := rhs]> m)]> h, Normal ()).
Proof.
  intros [-> | ->] Hu; unfold applyChange; simpl; unfold bind, ret, set; by rewrite Hu.
Qed.

Lemma applyChanges_sets_field w n lo l m kind k lhs rhs idx itm :
  results (w_opts w) = VObj l →
  w_heap w !! l = Some (Object CPlain m) →
  well lo (length (w_heap w)) (w_heap w) n (VObj l) →
  (n ≤ stack)%nat →
  kind = "N" ∨ kind = "E" →
  k ≠ "updatedAt" →
  changes (w_opts w) = Some [Change kind [SStr k] lhs rhs idx itm] →
  ∃ w2 mu,
    _applyChanges stack w = (w2, Done ()) ∧
    w_heap w2 !! length (w_heap w) = Some (Object CPlain mu) ∧
    mu !! k = Some rhs ∧
    (∀ k' v, k' ≠ k → k' ≠ "updatedAt" → m !! k' = Some v →
             (∀ l', v ≠ VObj l') → v ≠ VUndefined → mu !! k' = Some v) ∧
    w_opts w2 = set_updated (w_opts w) (VObj (length (w_heap w))) ∧
    w_ds w2 = w_ds w ∧ w_now w2 = w_now w.
Proof.
  intros Hres Hl Hw Hn Hkind Hk Hcs.
  destruct (clone_well stack n lo (w_heap w) l m Hn Hw Hl)
    as (h2 & m' & Hclone & Hu & _ & Hcopied).
  assert (length (w_heap w) < length h2)%nat as Hlt by (by eapply lookup_lt_Some).
  unfold _applyChanges, andThen, the_opts, js, modify_opts.
  rewrite Hres, Hclone, Hcs. cbn [w_heap put_heap put_opts w_opts].
  rewrite forEach_cons. unfold bind at 1.
  rewrite (applyChange_sets_field h2 _ m' kind k _ _ _ _ Hkind Hu).
  set (h3 := <[length (w_heap w) := Object CPlain (<[k := rhs]> m')]> h2).
  assert (h3 !! length (w_heap w) = Some (Object CPlain (<[k := rhs]> m')))
    as Hu3 by (by apply list_lookup_insert_eq).
  change (forEach [] _ h3) with (h3, Normal ()).
  cbn [w_heap put_heap put_opts w_opts w_now].
  rewrite get_ref.
  destruct (decide (prop h3 (VObj (length (w_heap w))) "updateAt" = VUndefined)).
  - eexists _, _. split; [reflexivity|]. cbn. split; [exact Hu3|].
    split; [by rewrite lookup_insert_eq|].
    split; [|done]. intros k' v Hk' _ Hv Hnr Hnu.
    rewrite lookup_insert_ne by done. by apply Hcopied.
  - unfold new_Date, alloc. cbn [w_heap put_heap put_opts w_opts w_now].
    unfold JS.set. rewrite lookup_app_l by (unfold h3; rewrite length_insert; lia).
    rewrite Hu3. cbn [own_set o_class o_props].
    eexists _, _. split; [reflexivity|]. cbn [w_heap put_heap].
    split; [apply list_lookup_insert_eq; rewrite length_app; unfold h3;
            rewrite length_insert; lia|].
    split; [by rewrite lookup_insert_ne, lookup_insert_eq|].
    split; [|done]. intros k' v Hk' Hk'' Hv Hnr Hnu.
    rewrite !lookup_insert_ne by done. by apply Hcopied.
Qed.

(** *** The write *)

Lemma once_last (c : DataStore.call) (run : DataStore.driver State → State * outcome)
    (ds ds' : list (DataStore.driver State)) :
  DataStore.once c run ds ds' → Forall (λ d', last (DataStore.d_calls d') = Some c) ds'.
Proof.
  unfold DataStore.once. induction 1 as [|d d' ds ds' [Hc _] _ IH]; constructor; [|done].
  rewrite Hc. apply last_snoc.
Qed.

Lemma write_puts w u :
  updated (w_opts w) = VObj u →
  (u < length (w_heap w))%nat →
  Forall (λ d', last (DataStore.d_calls d') = Some (DataStore.CallPut (type (w_opts w)) (VObj u)))
    (DataStore.drivers (w_ds (_write stringify w).1)).
Proof.
  intros Hu Hlt.
  destruct (meta_with_diff_spec stringify (meta (w_opts w))
              (default [] (changes (w_opts w))) (w_heap w)) as [mm Hmeta].
  unfold _write, andThen, the_opts, js.
  rewrite Hmeta. cbn [w_heap put_heap w_ds w_now].
  rewrite Hu, put_unfold. cbv zeta. cbn [DataStore.answer].
  match goal with
  | |- context [DataStore.fan_out (DataStore.invoke_put ?hh ?ty ?ob) ?ds] =>
      pose proof (fan_out_once (DataStore.CallPut ty ob)
                    (λ d, DataStore.d_put d hh ty ob (DataStore.d_state d)) ds) as Honce;
      apply once_last in Honce;
      change (DataStore.fan_out (λ d, let '(s, r) := DataStore.d_put d hh ty ob (DataStore.d_state d) in
                                      (DataStore.called d (DataStore.CallPut ty ob) s, r)) ds)
        with (DataStore.fan_out (DataStore.invoke_put hh ty ob) ds) in Honce;
      destruct (DataStore.fan_out (DataStore.invoke_put hh ty ob) ds) as [ds' [t' err]]
  end.
  simpl in *. by destruct err.
Qed.

Lemma write_opts w w' :
  _write stringify w = (w', Done ()) →
  w_opts w' = set_results (w_opts w) (updated (w_opts w)).
Proof.
  unfold _write, andThen, the_opts, js.
  destruct (meta_with_diff _ _ _ _) as [h [mm|x]]; [|done].
  destruct (DataStore.put _ _ _ _ _ _) as [h' [ds wr]]. simpl.
  destruct (DataStore.answer wr); [done|]. unfold modify_opts. by intros [= <-].
Qed.

(** *** An update of a stored object *)

Lemma steady_rules w w' a f :
  steady w w' →
  rules_for (w_rules w') (toLowerCase (type (w_opts w'))) a f
  = rules_for (w_rules w) (toLowerCase (type (w_opts w))) a f.
Proof. intros (Hr & _ & Ht & _). by rewrite Hr, Ht. Qed.


(** *** A delete that goes through *)

Lemma meta_copy meta (h : heap) :
  ∃ m, (let! c := new_object in Extend.extend 1 false c meta) h
       = (h ++ [Object CPlain m], Normal (VObj (length h))).
Proof.
  unfold bind at 1, new_object, alloc.
  destruct (shallow_extend (length h) meta (h ++ [Object CPlain ∅]) ∅) as [m1 Hext].
  { by apply list_lookup_middle. }
  rewrite Hext. rewrite insert_app_r_alt, Nat.sub_diag by done. by exists m1.
Qed.


End Writes.
End WriteProps.

(** ** Reads that go through, and the write stage *)

Module ReadProps.
Import JS Async DeepDiff Separation Objecticon Queries Trace.
Import SeparationProps CopyProps StoreProps RuleProps EngineProps TraceProps OperationProps
  WriteProps.

Section Reads.
Context {State : Type}.
Variable stringify : heap → list DeepDiff.change → string.
Implicit Types (w : @world State) (d : DataStore.driver State).

Local Existing Instances steady_refl steady_trans read_only_refl read_only_trans.

(** X2. A [get] of an object the store holds, when the read rules pass,
    calls back with the object as the authoritative driver answered it: a
    new object in the heap whose scalar fields are those of the answer. *)
Theorem get_of_stored_object w i d s t props :
  DataStore._getAuthoritative (DataStore.drivers (w_ds w)) "get" = Some i →
  DataStore.drivers (w_ds w) !! i = Some d →
  DataStore.d_read d DataStore.Get (w_heap w) (type (w_opts w))
    (DataStore.ById (id (w_opts w))) DataStore.no_options (DataStore.d_state d)
  = (s, ((t, None), DataStore.LObject props)) →
  NoDup props.*1 →
  Forall (λ rule : rule, ∀ h o, (rule h o).2 = None)
    (rules_for (w_rules w) (toLowerCase (type (w_opts w))) "read" None) →
  (strict (w_options w) = true →
   rules_for (w_rules w) (toLowerCase (type (w_opts w))) "read" None ≠ []) →
  ∃ w',
    get w = (w', Callback None (VObj (length (w_heap w)))) ∧
    DataStore.materialize (DataStore.LObject props) (w_heap w)
    = (w_heap w', Normal (VObj (length (w_heap w)))) ∧
    ∀ k x v, (k, x) ∈ props → scalar x = Some v →
             prop (w_heap w') (VObj (length (w_heap w))) k = v.
Proof.
  intros Hi Hd Hread Hnd Htype Hstrict.
  set (w0 := put_opts w (set_results (w_opts w) VNull)).
  destruct (getObject_fetches w0 i d s t props Hi Hd Hread)
    as (w1 & m & Hget & Hmat & Hpre & Hroot & Hwell & Hopts1 & Hds1).
  cbn [w0 w_heap put_opts w_opts set_results type id results truthy] in *.
  pose proof (keeps_getObject w0) as Hk1. rewrite Hget in Hk1. simpl in Hk1.
  assert (steady w w1) as Hst1.
  { transitivity w0; [by repeat split|apply Hk1]. }
  pose proof (checkTypeRules_passes w1 "read") as Hcheck.
  rewrite (steady_rules w w1 _ _ Hst1) in Hcheck.
  destruct Hst1 as (_ & Ho1 & _).
  rewrite Ho1 in Hcheck. specialize (Hcheck Htype Hstrict).
  eexists. split; [|split].
  - unfold get, andThen, modify_opts. fold w0. rewrite Hget, Hcheck.
    cbn [w_opts put_rules]. rewrite Hopts1. reflexivity.
  - exact Hmat.
  - intros k x v Hin Hv. cbn [w_heap put_rules].
    destruct (materialize_content props (w_heap w) (w_heap w1) _ k x v Hmat Hnd Hin Hv)
      as (m0 & Hm0 & Hk0).
    unfold prop. rewrite Hm0. unfold own_get. simpl. by rewrite Hk0.
Qed.

(** X3. A [query], when the query rules pass, calls back with what the
    driver that is authoritative for queries answered. *)
Theorem query_returns_the_answer w i d s t x :
  DataStore._getAuthoritative (DataStore.drivers (w_ds w)) "query" = Some i →
  DataStore.drivers (w_ds w) !! i = Some d →
  DataStore.d_read d DataStore.Query (w_heap w) (type (w_opts w))
    (DataStore.ByQuery (Objecticon.query (w_opts w)))
    (DataStore.ReadOptions (view (w_opts w)) None None) (DataStore.d_state d)
  = (s, ((t, None), x)) →
  Forall (λ rule : rule, ∀ h o, (rule h o).2 = None)
    (rules_for (w_rules w) (toLowerCase (type (w_opts w))) "query" None) →
  (strict (w_options w) = true →
   rules_for (w_rules w) (toLowerCase (type (w_opts w))) "query" None ≠ []) →
  ∃ w' v,
    query w = (w', Callback None v) ∧
    DataStore.materialize x (w_heap w) = (w_heap w', Normal v).
Proof.
  intros Hi Hd Hread Htype Hstrict.
  destruct (handleRead_routed DataStore.Query _ _ _ _ _ _ _ _ _ _ _ Hi Hd Hread)
    as (h' & v & Hm & Hrun).
  unfold query, andThen, modify_opts, _query, DataStore.query, DataStore.read, bind.
  cbn [w_opts put_opts w_ds w_heap type Objecticon.query view set_results].
  rewrite Hrun. simpl.
  match goal with |- context [_checkTypeRules "query" ?w0] => set (w1 := w0) end.
  pose proof (checkTypeRules_passes w1 "query") as Hcheck.
  cbn [w1 w_rules w_opts put_opts put_ds put_heap type set_results w_options] in Hcheck.
  specialize (Hcheck Htype Hstrict). cbn [w1]. rewrite Hcheck.
  eexists _, v. split; [reflexivity|]. exact Hm.
Qed.

(** *** The write stage *)

Lemma meta_with_diff_content meta cs (h : heap) :
  ∃ m,
    meta_with_diff stringify meta cs h
    = (h ++ [Object CPlain (<["diff" := VStr (stringify (h ++ [Object CPlain m]) cs)]> m)],
       Normal (VObj (length h))).
Proof.
  unfold meta_with_diff, bind at 1, new_object, alloc.
  destruct (shallow_extend (length h) meta (h ++ [Object CPlain ∅]) ∅) as [m1 Hext].
  { by apply list_lookup_middle. }
  unfold bind at 1. rewrite Hext.
  rewrite insert_app_r_alt, Nat.sub_diag by done. simpl.
  exists m1. unfold bind, set. rewrite list_lookup_middle by done. simpl.
  rewrite insert_app_r_alt, Nat.sub_diag by done. reflexivity.
Qed.

(** X5. The write stage of an update puts the patched copy to every driver
    once, and makes a log entry for it with the action [put], the id of the
    copy, and a new metadata object that holds the diff as the JSON text of
    the changes. The stage ends without an error exactly when every driver
    accepted the put, and only then is the copy made the result of the
    operation: after a failed write the result is what it was. The log
    entry is made either way. *)
Theorem write_stage w u :
  updated (w_opts w) = VObj u →
  (u < length (w_heap w))%nat →
  ∃ h' answer,
    DataStore.once (DataStore.CallPut (type (w_opts w)) (VObj u))
      (λ d, DataStore.d_put d h' (type (w_opts w)) (VObj u) (DataStore.d_state d))
      (DataStore.drivers (w_ds w)) (DataStore.drivers (w_ds (_write stringify w).1)) ∧
    DataStore.told
      (λ d, DataStore.d_put d h' (type (w_opts w)) (VObj u) (DataStore.d_state d))
      (DataStore.drivers (w_ds w)) answer ∧
    (_write stringify w).2 = match answer with None => Done () | Some e => Failed e end ∧
    results (w_opts (_write stringify w).1)
    = match answer with None => VObj u | Some _ => results (w_opts w) end ∧
    DataStore.audited (w_ds w) (w_now w) "put" (type (w_opts w))
      (prop (w_heap w) (VObj u) (DataStore.idField (w_ds w))) (VObj (length (w_heap w)))
      h' (w_heap (_write stringify w).1) (w_ds (_write stringify w).1) ∧
    ∃ h'', prop h' (VObj (length (w_heap w))) "diff"
           = VStr (stringify h'' (default [] (changes (w_opts w)))).
Proof.
  intros Hu Hlt.
  destruct (meta_with_diff_content (meta (w_opts w)) (default [] (changes (w_opts w)))
              (w_heap w)) as [mm Hmeta].
  set (h' := w_heap w ++ [Object CPlain (<["diff" := _]> mm)]) in Hmeta.
  set (ty := type (w_opts w)).
  set (F := DataStore.fan_out (DataStore.invoke_put h' ty (VObj u))
              (DataStore.drivers (w_ds w))).
  set (oid := prop h' (VObj u) (DataStore.idField (w_ds w))).
  set (h2 := (h' ++ [Object (CDate (w_now w)) ∅]) ++
             [DataStore.auditLogEntry (VObj (length h')) "put" ty oid
                (VObj (length (w_heap w)))]).
  set (L := DataStore.fan_out
              (DataStore.invoke_put h2 "auditlogentry" (VObj (S (length h'))))
              (DataStore.loggers (w_ds w))).
  assert (_write stringify w
          = (put_opts (put_ds (put_heap (put_heap w h') h2)
                         (DataStore.with_loggers (DataStore.with_drivers (w_ds w) F.1) L.1))
               (match F.2.2 with
                | None => set_results (w_opts w) (VObj u)
                | Some _ => w_opts w
                end),
             match F.2.2 with None => Done () | Some e => Failed e end)) as Hrun.
  { unfold _write, andThen, the_opts, js. rewrite Hmeta.
    cbn [w_heap put_heap w_ds w_now]. rewrite Hu, put_unfold. cbv zeta.
    cbn [DataStore.answer]. fold ty F oid h2 L.
    destruct F.2.2; [by destruct w|]. unfold modify_opts. cbn. by rewrite Hu. }
  assert (oid = prop (w_heap w) (VObj u) (DataStore.idField (w_ds w))) as Hoid.
  { unfold oid, prop, h'. by rewrite lookup_app_l. }
  exists h', F.2.2. rewrite Hrun. cbn [fst snd w_ds w_heap w_opts put_opts put_ds put_heap
    DataStore.drivers DataStore.with_loggers DataStore.with_drivers].
  split; [|split; [|split; [|split; [|split]]]].
  - apply (fan_out_once (DataStore.CallPut ty (VObj u))
             (λ d, DataStore.d_put d h' ty (VObj u) (DataStore.d_state d))).
  - unfold F, DataStore.invoke_put. rewrite fan_out_result. apply each_told.
  - done.
  - by destruct F.2.2.
  - rewrite <- Hoid.
    apply (entry_audited (w_ds w) (w_now w) "put" ty oid (VObj (length (w_heap w))) h' F.1).
  - eexists. unfold prop, h'. rewrite list_lookup_middle by done.
    unfold own_get. simpl. by rewrite lookup_insert_eq.
Qed.

End Reads.

End ReadProps.

(** ** A new engine *)

Module ConstructionProps.
Import JS Async DeepDiff Objecticon Construction Trace.
Import StoreProps RuleProps EngineProps TraceProps OperationProps.

Section Construction.
Context {State : Type}.
Variable stringify : heap → list DeepDiff.change → string.
Variable stack : nat.
Implicit Types (w : @world State).

Lemma getLog_without_loggers w :
  DataStore.loggers (w_ds w) = [] →
  (∀ v, (getLog w).2 ≠ Callback None v) ∧
  ((_checkTypeRules "log" w).2 = Done () →
   (getLog w).2 = Callback (Some NoDriversAvailable) VUndefined).
Proof.
  intros Hnone. destruct (checkTypeRules_world "log" w) as [r Hr].
  unfold getLog, andThen.
  destruct (_checkTypeRules "log" w) as [w1 [[]|e|x]]; simpl in *; subst w1;
    [|by split..].
  unfold _getLog, andThen, the_opts, DataStore.getLog, bind.
  cbn [w_ds put_rules]. rewrite Hnone. cbn. by split.
Qed.

Lemma update_ds w :
  w_ds (update stringify stack w).1
  = w_ds ((andThen (modify_opts (fun o => set_allowMissing o true))
             (fun _ => andThen _getObject (fun _ => _update stringify stack))) w).1.
Proof.
  unfold update. destruct (andThen _ _ w) as [w' [[]|e|x]]; simpl; [|done..].
  by destruct (JS.get _ _ _) as [h [v|x]].
Qed.

Lemma steady_no_loggers w w' :
  steady w w' → DataStore.loggers (w_ds w) = [] → DataStore.loggers (w_ds w') = [].
Proof.
  intros (_ & _ & _ & _ & _ & _ & [_ Hl] & _) Hnone.
  rewrite Hnone in Hl. by apply nil_length_inv.
Qed.

(** X24. A new engine has no loggers: the constructor hands the id field,
    the factory and the drivers to the store, and nothing else. Until a
    logger is added to the store, [getLog] never answers with a log (it
    answers that no drivers are available once its check has passed), and
    the log entries of updates and deletes are put nowhere. *)
Theorem new_engine_has_no_loggers (options : engine_options State) (e : engine State)
    h o now uuid :
  new_Objecticon options = Some e →
  DataStore.loggers (e_ds e) = [] ∧
  (∀ v, (getLog (serving e h o now uuid)).2 ≠ Callback None v) ∧
  ((_checkTypeRules "log" (serving e h o now uuid)).2 = Done () →
   (getLog (serving e h o now uuid)).2 = Callback (Some NoDriversAvailable) VUndefined) ∧
  DataStore.loggers (w_ds (update stringify stack (serving e h o now uuid)).1) = [] ∧
  DataStore.loggers (w_ds (delete (serving e h o now uuid)).1) = [].
Proof.
  intros Hnew.
  assert (DataStore.loggers (e_ds e) = []) as Hnone.
  { unfold new_Objecticon, new_DataStore in Hnew. cbn in Hnew.
    destruct (eo_create options); by simplify_eq. }
  split; [done|].
  destruct (getLog_without_loggers (serving e h o now uuid) Hnone) as [Hnever Hthen].
  split; [done|]. split; [done|]. split.
  - rewrite update_ds. eapply steady_no_loggers; [apply keeps_update_pipeline|done].
  - rewrite delete_world. eapply steady_no_loggers; [apply keeps_delete_pipeline|done].
Qed.

End Construction.

End ConstructionProps.

(** ** The log read, an earlier result, and the error of a check *)

Module EdgeProps.
Import JS Async DeepDiff Objecticon Trace.
Import StoreProps RuleProps EngineProps TraceProps OperationProps CheckProps WriteProps TagProps.

Section Edges.
Context {State : Type}.
Implicit Types (w : @world State) (self : DataStore.DataStore State).

(** X25. The store reads its log from the loggers and never from the
    data drivers, which stay as they are. With no logger that is
    authoritative for queries the read fails with the error of no drivers
    being available, whatever the data drivers declare. Otherwise the first
    such logger is asked once, for the type [auditlogentry], with the type
    and the id of the object as criteria and the options as they were
    given. *)
Theorem getLog_asks_the_loggers self type ident o h :
  (∀ r, (DataStore.getLog self type ident o h).2 = Normal r →
        DataStore.drivers r.1 = DataStore.drivers self) ∧
  (Forall (λ g, DataStore.is_authoritative "query" g = false) (DataStore.loggers self) →
   (DataStore.getLog self type ident o h).2
   = Normal (DataStore.with_loggers self (DataStore.loggers self),
             (Some NoDriversAvailable, VUndefined))) ∧
  (∀ i g s t err x,
     DataStore.loggers self !! i = Some g →
     DataStore.is_authoritative "query" g = true →
     (∀ j g', (j < i)%nat → DataStore.loggers self !! j = Some g' →
              DataStore.is_authoritative "query" g' = false) →
     DataStore.d_read g DataStore.Query h "auditlogentry" (DataStore.ByObject type ident) o
       (DataStore.d_state g) = (s, ((t, err), x)) →
     ∃ h' v,
       DataStore.materialize x h = (h', Normal v) ∧
       DataStore.getLog self type ident o h
       = (h', Normal (DataStore.with_loggers self
                        (<[i := DataStore.called g
                                  (DataStore.CallRead DataStore.Query "auditlogentry"
                                     (DataStore.ByObject type ident) o) s]>
                           (DataStore.loggers self)),
                      (err, v)))).
Proof.
  split; [|split].
  - intros r. unfold DataStore.getLog, bind.
    destruct (DataStore._handleReadOperation _ _ _ _ _ _) as [h' [[ls res]|e]]; [|done].
    by intros [= <-].
  - intros Hnone. apply getAuthoritative_None in Hnone.
    unfold DataStore.getLog, bind, DataStore._handleReadOperation.
    cbn [DataStore.op_name]. by rewrite Hnone.
  - intros i g s t err x Hi Hg Hfirst Hread.
    assert (DataStore._getAuthoritative (DataStore.loggers self) "query" = Some i) as Hauth.
    { apply getAuthoritative_least. split; [by exists g|done]. }
    destruct (handleRead_routed DataStore.Query _ _ _ _ _ _ _ _ _ _ _ Hauth Hi Hread)
      as (h' & v & Hm & Hrun).
    exists h', v. split; [done|]. unfold DataStore.getLog, bind. by rewrite Hrun.
Qed.

(** X26. A result the context already carries is kept: when the context
    of a call holds a result and the object is found in the store, fetching
    leaves that earlier result in place and what the driver answered is not
    used. ([get] clears the result before it fetches; [update] and [delete]
    do not.) *)
Theorem earlier_result_is_kept w i d s t props :
  truthy (results (w_opts w)) = true →
  DataStore._getAuthoritative (DataStore.drivers (w_ds w)) "get" = Some i →
  DataStore.drivers (w_ds w) !! i = Some d →
  DataStore.d_read d DataStore.Get (w_heap w) (type (w_opts w))
    (DataStore.ById (id (w_opts w))) DataStore.no_options (DataStore.d_state d)
  = (s, ((t, None), DataStore.LObject props)) →
  (_getObject w).2 = Done () ∧
  results (w_opts (_getObject w).1) = results (w_opts w) ∧
  results (w_opts (_getObject (put_opts w (set_results (w_opts w) VNull))).1)
  = VObj (length (w_heap w)).
Proof.
  intros Htruthy Hi Hd Hread.
  destruct (getObject_fetches w i d s t props Hi Hd Hread)
    as (w1 & m & Hget & _ & _ & _ & _ & Hopts1 & _).
  destruct (getObject_fetches (put_opts w (set_results (w_opts w) VNull)) i d s t props
              Hi Hd Hread) as (w2 & m2 & Hget2 & _ & _ & _ & _ & Hopts2 & _).
  rewrite Hget, Hget2. cbn [fst snd]. rewrite Hopts1, Hopts2, Htruthy. by repeat split.
Qed.


End Edges.

End EdgeProps.

Module Examples.
Import JS Async DeepDiff Objecticon Queries Trace Construction.
Import OperationProps CheckProps PutProps WriteProps ReadProps ConstructionProps TagProps.
Import EdgeProps.

Lemma locked_closed (a : string) : closed Cases.locked a.
Proof. left. split; reflexivity. Qed.





Lemma missing_id_is_an_error_witness :
  (get Fixture.with_diff).2 = Callback (Some (InvalidId "widget" (VStr "X"))) VNull ∧
  (delete Fixture.with_diff).2 = Callback (Some (InvalidId "widget" (VStr "X"))) VUndefined.
Proof.
  destruct (missing_id_is_an_error Fixture.with_diff 0
              (Fixture.stub (Some "get,query,search") DataStore.LNull Fixture.ok) () 0
              eq_refl eq_refl eq_refl eq_refl) as [Hget Hdelete].
  split; [by rewrite Hget|by rewrite Hdelete].
Defined.

Lemma read_error_ends_the_operation_witness :
  (get Cases.unreachable).2 = Callback (Some (Failure "down")) VNull ∧
  (update Fixture.stringify 8 Cases.unreachable).2 = Callback (Some (Failure "down")) VUndefined ∧
  (delete Cases.unreachable).2 = Callback (Some (Failure "down")) VUndefined.
Proof.
  apply (read_error_ends_the_operation Fixture.stringify 8 Cases.unreachable 0
           (Cases.down (Some "get") "down") () 3 (Failure "down") DataStore.LNull
           eq_refl eq_refl eq_refl).
Defined.

Lemma unknown_type_throws_witness :
  (update Fixture.stringify 8 Cases.unknown).2 = Uncaught TypeError ∧
  read_only Cases.unknown (update Fixture.stringify 8 Cases.unknown).1.
Proof.
  apply (unknown_type_throws Fixture.stringify 8 Cases.unknown 0
           (Fixture.stub (Some "get,query,search") DataStore.LNull Fixture.ok) () 0);
    reflexivity.
Defined.


Lemma put_of_nothing_witness :
  DataStore.afterwards (DataStore.put Cases.stocked 1000 "widget" VNull VUndefined []).2.2
  = Thrown TypeError ∧
  DataStore.loggers (DataStore.put Cases.stocked 1000 "widget" VNull VUndefined []).2.1
  = DataStore.loggers Cases.stocked.
Proof.
  destruct (put_of_nothing Cases.stocked 1000 "widget" VNull VUndefined [] (or_introl eq_refl))
    as (_ & _ & Hafter & Hloggers & _).
  by split.
Defined.

Lemma first_authoritative_serves_witness :
  DataStore._getAuthoritative (DataStore.drivers Cases.rivals) "get" = Some 1%nat.
Proof.
  apply (first_authoritative_serves DataStore.Get Cases.rivals "widget"
           (DataStore.ById (VStr "w1")) DataStore.no_options [] 1
           (Fixture.stub (Some "get") Fixture.widget Fixture.ok) () 0 None Fixture.widget).
  - reflexivity.
  - reflexivity.
  - intros [|j] d' Hj Hd'; [|lia]. simpl in Hd'. by simplify_eq.
  - reflexivity.
Defined.



Lemma new_engine_has_no_loggers_witness :
  ∃ e, new_Objecticon Cases.plain = Some e ∧
       DataStore.loggers (e_ds e) = [] ∧
       ∀ v, (getLog (serving e [] Cases.rename 1000 "f81d4fae")).2 ≠ Callback None v.
Proof.
  eexists. split; [reflexivity|].
  destruct (new_engine_has_no_loggers Fixture.stringify 8 Cases.plain _ [] Cases.rename 1000
              "f81d4fae" eq_refl) as (Hnone & Hnever & _).
  by split.
Defined.

Lemma get_of_stored_object_witness :
  ∃ w', get Cases.lenient = (w', Callback None (VObj 0%nat)) ∧
        prop (w_heap w') (VObj 0%nat) "name" = VStr "foo".
Proof.
  destruct (get_of_stored_object Cases.lenient 0
              (Fixture.stub (Some "get,query,search") Fixture.widget Fixture.ok) () 0
              [("id", DataStore.LStr "w1"); ("name", DataStore.LStr "foo");
               ("createdAt", DataStore.LDate 7); ("updatedAt", DataStore.LDate 7)])
    as (w' & Hrun & _ & Hfields).
  - reflexivity.
  - reflexivity.
  - reflexivity.
  - apply (bool_decide_unpack _). by vm_compute.
  - vm_compute. constructor.
  - intros H. vm_compute in H. discriminate H.
  - exists w'. split; [exact Hrun|].
    apply (Hfields "name" (DataStore.LStr "foo") (VStr "foo")); [|reflexivity].
    apply list_elem_of_further, list_elem_of_here.
Defined.

Lemma query_returns_the_answer_witness :
  ∃ w' v, query Cases.lenient = (w', Callback None v) ∧
          DataStore.materialize Fixture.widget [] = (w_heap w', Normal v).
Proof.
  apply (query_returns_the_answer Cases.lenient 0
           (Fixture.stub (Some "get,query,search") Fixture.widget Fixture.ok) () 0
           Fixture.widget).
  - reflexivity.
  - reflexivity.
  - reflexivity.
  - vm_compute. constructor.
  - intros H. vm_compute in H. discriminate H.
Defined.

Lemma write_stage_witness :
  (_write Fixture.stringify Cases.patched).2 = Done () ∧
  results (w_opts (_write Fixture.stringify Cases.patched).1) = VObj 2%nat.
Proof.
  destruct (write_stage Fixture.stringify Cases.patched 2)
    as (h' & answer & _ & Htold & Hdone & Hres & _).
  - reflexivity.
  - vm_compute. lia.
  - assert (answer = None) as ->.
    { apply Htold. repeat constructor. }
    by split.
Defined.

Lemma earlier_result_is_kept_witness :
  (_getObject Cases.revisited).2 = Done () ∧
  results (w_opts (_getObject Cases.revisited).1) = VObj 0%nat ∧
  results (w_opts (_getObject (put_opts Cases.revisited
                                 (set_results (w_opts Cases.revisited) VNull))).1)
  = VObj 2%nat.
Proof.
  apply (earlier_result_is_kept Cases.revisited 0
           (Fixture.stub (Some "get,query,search") Fixture.widget Fixture.ok) () 0
           [("id", DataStore.LStr "w1"); ("name", DataStore.LStr "foo");
            ("createdAt", DataStore.LDate 7); ("updatedAt", DataStore.LDate 7)]);
    reflexivity.
Defined.

End Examples.
